(** * The distbench test sequencer: a shallow embedding and its properties

    The definitions below follow [distbench_test_sequencer.cc] function by
    function.  The registry fields [node_map_] and [node_id_map_] are finite
    maps (their declaring header is not part of the sources, so their
    iteration order is left open); the [std::set] and [std::map] locals of
    [DoRunTest] are sorted lists, because the code depends on their iteration
    order; gRPC completion queues are lists of completion events. *)

From Stdlib Require Import ZArith Lia List Permutation Sorted.
From stdpp Require Import base tactics option list gmap strings pretty sorting.

Local Open Scope Z_scope.

(** ** Status values *)

Inductive StatusCode : Type :=
  | OK | CANCELLED | UNKNOWN | INVALID_ARGUMENT | DEADLINE_EXCEEDED
  | NOT_FOUND | ALREADY_EXISTS | PERMISSION_DENIED | RESOURCE_EXHAUSTED
  | FAILED_PRECONDITION | ABORTED | OUT_OF_RANGE | UNIMPLEMENTED
  | INTERNAL | UNAVAILABLE | DATA_LOSS | UNAUTHENTICATED.

#[global] Instance StatusCode_eq_dec : EqDecision StatusCode.
Proof. solve_decision. Defined.

Record Status : Type := mkStatus { code : StatusCode; message : string }.

#[global] Instance Status_eq_dec : EqDecision Status.
Proof. solve_decision. Defined.

Definition Status_OK : Status := mkStatus OK "".

Definition ok (s : Status) : bool := bool_decide (code s = OK).

(** ** Machine integers

    [int] is 32 bits wide; a conversion from [size_t] keeps the low 32 bits
    and reads them as a two's complement number. *)

Definition int_wrap (z : Z) : Z := (z + 2 ^ 31) mod 2 ^ 32 - 2 ^ 31.

Definition int_of_size (n : nat) : Z := int_wrap (Z.of_nat n).

(** ** The registry *)

(** Modelled from the spec: the protobuf message [NodeRegistration] is
    declared outside the sources.  [hostname] and [control_port] are the
    fields that the code reads; [attributes] stands for the optional
    descriptive fields of the payload. *)
Record NodeRegistration : Type := mkNodeRegistration {
  hostname : string;
  control_port : Z;
  attributes : list string
}.

#[global] Instance NodeRegistration_eq_dec : EqDecision NodeRegistration.
Proof. solve_decision. Defined.

Record NodeConfig : Type := mkNodeConfig {
  node_id : Z;
  node_alias : string
}.

Definition NodeConfig_default : NodeConfig := mkNodeConfig 0 "".

(** A stub is identified by the target its channel was created for. *)
Record Stub : Type := mkStub { target : string }.

(** Modelled from the spec: the [Node] struct is declared in the header,
    which is not among the sources.  Its fields are the ones the code
    reads and writes; [idle] is true initially.  A node enters the map only
    in the branch of [RegisterNode] where the stub is not null, and its
    [stub] field is assigned in the same critical section, so the field
    holds a stub in every state another thread can see. *)
Record Node : Type := mkNode {
  registration : NodeRegistration;
  stub : Stub;
  idle : bool
}.

(** The [idle] field of a default-constructed [Node]. *)
Definition Node_default_idle : bool := true.

Definition set_idle (b : bool) (n : Node) : Node :=
  mkNode (registration n) (stub n) b.

Record Sequencer : Type := mkSequencer {
  node_map_ : gmap string Node;
  node_id_map_ : gmap string Z
}.

Definition Sequencer_init : Sequencer := mkSequencer ∅ ∅.

(** [absl::StrCat("node", node_id)] *)
Definition alias_of (id : Z) : string := "node" +:+ pretty id.

(** [absl::StrCat("dns:///", request->hostname(), ":", request->control_port())] *)
Definition node_service_of (r : NodeRegistration) : string :=
  "dns:///" +:+ hostname r +:+ ":" +:+ pretty (control_port r).

Section RegisterNode.

(** [request->DebugString()]: the text rendering of the payload, produced
    by the protobuf runtime. *)
Variable DebugString : NodeRegistration -> string.

(** [RegisterNode], with the call to [DistBenchNodeManager::NewStub] on the
    freshly created channel as the parameter [NewStub]: it is given the
    channel target and may return a null stub. *)
Definition RegisterNode (NewStub : string -> option Stub) (st : Sequencer)
    (request : NodeRegistration) (response : NodeConfig)
    : Status * NodeConfig * Sequencer :=
  if (bool_decide (hostname request = "") || (control_port request <=? 0)%Z)%bool
  then (mkStatus INVALID_ARGUMENT "Invalid Registration", response, st)
  else
    let node_id0 := int_of_size (size (node_map_ st)) in
    let registration := DebugString request in
    let '(node_id, id_map) :=
      match node_id_map_ st !! registration with
      | Some id => (id, node_id_map_ st)
      | None => (node_id0, <[registration := node_id0]> (node_id_map_ st))
      end in
    let node_service := node_service_of request in
    match NewStub node_service with
    | Some stub =>
        let response := mkNodeConfig node_id (alias_of node_id) in
        (* auto& node = node_map_[alias]: the entry, created if absent *)
        let node_idle :=
          match node_map_ st !! node_alias response with
          | Some node => idle node
          | None => Node_default_idle
          end in
        let node := mkNode request stub node_idle in
        (Status_OK, response,
         mkSequencer (<[node_alias response := node]> (node_map_ st)) id_map)
    | None =>
        (mkStatus UNKNOWN "Could not create node stub.", response,
         mkSequencer (node_map_ st) id_map)
    end.

(** A series of calls, each with a fresh response object, as the server
    runtime issues them one after the other under the exclusive lock. *)
Fixpoint RegisterNodes (st : Sequencer)
    (calls : list ((string -> option Stub) * NodeRegistration))
    : list (Status * NodeConfig) * Sequencer :=
  match calls with
  | [] => ([], st)
  | (NewStub, request) :: calls' =>
      let '(s, r, st') := RegisterNode NewStub st request NodeConfig_default in
      let '(rs, st'') := RegisterNodes st' calls' in
      ((s, r) :: rs, st'')
  end.

End RegisterNode.

Definition stub_always : string -> option Stub := fun t => Some (mkStub t).
Definition stub_never : string -> option Stub := fun _ => None.

(** *** Vocabulary of the statements about the registry *)

(** The payloads that pass the check at the top of [RegisterNode]. *)
Definition valid_registration (r : NodeRegistration) : Prop :=
  hostname r <> "" /\ 0 < control_port r.

(** The identifier a call works with: the recorded one if the payload was
    seen before, the size of the node map otherwise. *)
Definition chosen_id (DebugString : NodeRegistration -> string)
    (st : Sequencer) (r : NodeRegistration) : Z :=
  default (int_of_size (size (node_map_ st))) (node_id_map_ st !! DebugString r).

(** What calls that all succeed keep true of the two maps: the aliases are
    [node0 .. node(n-1)] for the size [n] of the node map, the recorded
    identifiers are below [n], no identifier is recorded for two payloads,
    and there are as many recorded payloads as nodes. *)
Definition Registry_inv (st : Sequencer) : Prop :=
  (forall a, is_Some (node_map_ st !! a) <->
             exists i, 0 <= i < Z.of_nat (size (node_map_ st)) /\ a = alias_of i) /\
  (forall k id, node_id_map_ st !! k = Some id ->
                0 <= id < Z.of_nat (size (node_map_ st))) /\
  (forall k1 k2 id, node_id_map_ st !! k1 = Some id ->
                    node_id_map_ st !! k2 = Some id -> k1 = k2) /\
  size (node_id_map_ st) = size (node_map_ st).

(** ** Ordered containers of [DoRunTest]

    [std::set<std::string>] is a list without duplicates kept in the order of
    [std::string::operator<], which compares the bytes of the two strings
    lexicographically, as [String.ltb] does.  [std::map<std::string, V>] is
    a list of pairs kept in the order of its keys. *)

Fixpoint sorted_place {A : Type} (key : A -> string) (x : A) (l : list A) : list A :=
  match l with
  | [] => [x]
  | y :: l' =>
      if String.ltb (key x) (key y) then x :: l else y :: sorted_place key x l'
  end.

(** [s.insert(x)]: nothing changes when [x] is an element already. *)
Definition set_insert (x : string) (s : list string) : list string :=
  if bool_decide (x ∈ s) then s else sorted_place id x s.

(** [s.erase(it)] for the iterator [it] that [s.find(x)] returned. *)
Fixpoint set_erase (x : string) (s : list string) : list string :=
  match s with
  | [] => []
  | y :: s' => if bool_decide (x = y) then s' else y :: set_erase x s'
  end.

Abbreviation ServiceMap := (list (string * list string)).

Fixpoint map_alter (f : list string -> list string) (k : string) (m : ServiceMap)
    : ServiceMap :=
  match m with
  | [] => []
  | (k', v) :: m' =>
      if bool_decide (k = k') then (k', f v) :: m' else (k', v) :: map_alter f k m'
  end.

(** [f] applied to the entry [m[k]], which [operator[]] creates with an empty
    set when the key is absent. *)
Definition map_at (k : string) (f : list string -> list string) (m : ServiceMap)
    : ServiceMap :=
  if bool_decide (k ∈ m.*1) then map_alter f k m else sorted_place fst (k, f []) m.

(** ** Test descriptions *)

(** The fields of the protobuf messages that [DoRunTest] reads. *)
Record ServiceSpec : Type := mkServiceSpec {
  server_type : string;
  count : Z
}.

(** [node_service_bundles] is a protobuf map from an alias to a bundle of
    service names; it is given here as the list of its entries in the order
    in which the range-for loop of [DoRunTest] visits them. *)
Record DistributedSystemDescription : Type := mkDescription {
  services : list ServiceSpec;
  node_service_bundles : list (string * list string)
}.

(** [absl::StrCat(service_node.server_type(), "/", i)] *)
Definition service_instance (server_type : string) (i : Z) : string :=
  server_type +:+ "/" +:+ pretty i.

Definition NotFoundError (msg : string) : Status := mkStatus NOT_FOUND msg.
Definition InvalidArgumentError (msg : string) : Status := mkStatus INVALID_ARGUMENT msg.

(** ** Placement: the first half of [DoRunTest] *)

(** The snapshot of the aliases, taken under the lock. *)
Definition snapshot_nodes (node_map : gmap string Node) : list string :=
  fold_left (fun idle_nodes node => set_insert node.1 idle_nodes)
            (map_to_list node_map) [].

(** [for (int i = 0; i < service_node.count(); ++i)] over every service. *)
Definition expand_services (services : list ServiceSpec) : list string :=
  fold_left
    (fun unplaced service_node =>
       fold_left
         (fun unplaced i =>
            set_insert (service_instance (server_type service_node) i) unplaced)
         (seqZ 0 (count service_node)) unplaced)
    services [].

(** The inner loop over the services of one bundle. *)
Fixpoint place_bundle_services (alias : string) (bundle : list string)
    (unplaced_services : list string) (node_service_map : ServiceMap)
    : Status + (list string * ServiceMap) :=
  match bundle with
  | [] => inr (unplaced_services, node_service_map)
  | service :: bundle' =>
      if bool_decide (service ∈ unplaced_services)
      then place_bundle_services alias bundle'
             (set_erase service unplaced_services)
             (map_at alias (set_insert service) node_service_map)
      else inl (NotFoundError
                  ("Service " +:+ service +:+ " was not found or already placed."))
  end.

(** The loop over [test.node_service_bundles()]. *)
Fixpoint place_bundles (bundles : list (string * list string))
    (unplaced_services idle_nodes : list string) (node_service_map : ServiceMap)
    : Status + (list string * list string * ServiceMap) :=
  match bundles with
  | [] => inr (unplaced_services, idle_nodes, node_service_map)
  | (alias, bundle) :: bundles' =>
      match place_bundle_services alias bundle unplaced_services node_service_map with
      | inl e => inl e
      | inr (unplaced_services', node_service_map') =>
          if bool_decide (alias ∈ idle_nodes)
          then place_bundles bundles' unplaced_services'
                 (set_erase alias idle_nodes) node_service_map'
          else inl (NotFoundError
                      ("Node " +:+ alias +:+ " was not found or not idle."))
      end
  end.

(** One round of the loop over the services that are still unplaced. *)
Definition auto_place_step (acc : list string * ServiceMap * string)
    (service : string) : list string * ServiceMap * string :=
  let '(idle_nodes, node_service_map, failures) := acc in
  match idle_nodes with
  | [] =>
      let failures :=
        if bool_decide (failures = "") then failures else failures +:+ ", " in
      (idle_nodes, node_service_map, failures +:+ service)
  | it :: idle_nodes' =>
      (idle_nodes', map_at it (set_insert service) node_service_map, failures)
  end.

Definition auto_place (unplaced_services idle_nodes : list string)
    (node_service_map : ServiceMap) : list string * ServiceMap * string :=
  fold_left auto_place_step unplaced_services (idle_nodes, node_service_map, "").

(** What the rounds without an idle node do to [failures], one name after
    the other. *)
Definition failures_append (failures : string) (names : list string) : string :=
  fold_left
    (fun failures service =>
       (if bool_decide (failures = "") then failures else failures +:+ ", ")
       +:+ service)
    names failures.

(** Lines 163 to 233 of [DoRunTest]: validation and placement. *)
Definition place_services (node_map : gmap string Node)
    (test : DistributedSystemDescription) : Status + ServiceMap :=
  match services test with
  | [] => inl (InvalidArgumentError "No services defined.")
  | _ =>
      let idle_nodes := snapshot_nodes node_map in
      let unplaced_services := expand_services (services test) in
      match place_bundles (node_service_bundles test)
                          unplaced_services idle_nodes [] with
      | inl e => inl e
      | inr (unplaced_services, idle_nodes, node_service_map) =>
          let '(idle_nodes, node_service_map, failures) :=
            auto_place unplaced_services idle_nodes node_service_map in
          if bool_decide (failures = "")
          then inr (fold_left (fun m idle_node => map_at idle_node id m)
                              idle_nodes node_service_map)
          else inl (NotFoundError
                      ("No idle node for placement of services: " +:+ failures))
      end
  end.

(** ** Fan-out phases *)

(** Modelled from the spec: the protobuf messages [ServiceEndpointMap] and
    [ServiceLogs] are declared outside the sources.  The endpoint map sends a
    service instance to its endpoint, the logs hold one entry per service
    instance, and [MergeFrom] on a protobuf map field takes the union of the
    keys, the merged-in message winning on a key that both have. *)
Abbreviation ServiceEndpointMap := (gmap string string).
Abbreviation ServiceLogs := (gmap string (list string)).

Definition MergeFrom {V : Type} (ret response : gmap string V) : gmap string V :=
  response ∪ ret.

Inductive RpcKind : Type :=
  | ConfigureNodeRpc | IntroducePeersRpc | RunTrafficRpc | CancelTrafficRpc.

#[global] Instance RpcKind_eq_dec : EqDecision RpcKind.
Proof. solve_decision. Defined.

(** What a phase does to the outside, in program order. *)
Inductive Event : Type :=
  | EvIssue (k : RpcKind) (alias : string)
  | EvFinish (k : RpcKind) (alias : string) (s : Status)
  | EvIdle (alias : string) (b : bool).

#[global] Instance Event_eq_dec : EqDecision Event.
Proof. solve_decision. Defined.

(** One result of [cq.Next(&tag, &ok)]: the flag [ok], the tag, which is the
    index of the finished entry of [pending_rpcs], and the [status] and
    [response] fields of that entry as the worker filled them. *)
Record CqEvent (R : Type) : Type := mkCqEvent {
  ev_ok : bool;
  ev_tag : nat;
  ev_status : Status;
  ev_response : R
}.
Arguments mkCqEvent {R}.
Arguments ev_ok {R}.
Arguments ev_tag {R}.
Arguments ev_status {R}.
Arguments ev_response {R}.

(** The loop [while (rpc_count) { cq.Next(&tag, &ok); if (ok) { --rpc_count;
    ... } }] over the stream [cq] of completion events; [finish] is the rest
    of the body of [if (ok)].  The result is [None] when the stream ends
    while RPCs are outstanding (the thread stays blocked in [Next]) or when
    [finish] has no result.  The events that were not consumed are
    returned with the final state. *)
Fixpoint drain {R S : Type} (finish : CqEvent R -> S -> option S)
    (cq : list (CqEvent R)) (rpc_count : nat) (s : S)
    : option (S * list (CqEvent R)) :=
  match rpc_count with
  | O => Some (s, cq)
  | Datatypes.S rpc_count' =>
      match cq with
      | [] => None
      | ev :: cq' =>
          if ev_ok ev
          then match finish ev s with
               | Some s' => drain finish cq' rpc_count' s'
               | None => None
               end
          else drain finish cq' rpc_count s
      end
  end.

(** [if (!finished_rpc->status.ok()) status = finished_rpc->status;] *)
Definition retain (status finished : Status) : Status :=
  if ok finished then status else finished.

Record NodeServiceConfig : Type := mkNodeServiceConfig {
  nsc_traffic_config : DistributedSystemDescription;
  nsc_services : list string
}.

(** *** ConfigureNodes *)

(** The loop that fills [pending_rpcs] and starts the calls; [None] is the
    failure of [QCHECK(it != node_map_.end())]. *)
Fixpoint ConfigureNodes_issue (node_map : gmap string Node)
    (test : DistributedSystemDescription) (node_service_map : ServiceMap)
    : option (list (string * NodeServiceConfig)) :=
  match node_service_map with
  | [] => Some []
  | (alias, node_services) :: rest =>
      match node_map !! alias with
      | None => None
      | Some _ =>
          match ConfigureNodes_issue node_map test rest with
          | Some pending => Some ((alias, mkNodeServiceConfig test node_services) :: pending)
          | None => None
          end
      end
  end.

Definition ConfigureNodes_finish (pending_rpcs : list (string * NodeServiceConfig))
    (ev : CqEvent ServiceEndpointMap)
    (s : Status * ServiceEndpointMap * list Event)
    : option (Status * ServiceEndpointMap * list Event) :=
  let '(status, ret, trace) := s in
  match pending_rpcs !! ev_tag ev with
  | None => None
  | Some (alias, _) =>
      Some (retain status (ev_status ev),
            MergeFrom ret (ev_response ev),
            trace ++ [EvFinish ConfigureNodeRpc alias (ev_status ev)])
  end.

(** The state of the locals [status] and [ret] when the loop ends, the
    events so far and the rest of the queue. *)
Definition ConfigureNodes_loop (node_map : gmap string Node)
    (node_service_map : ServiceMap) (test : DistributedSystemDescription)
    (cq : list (CqEvent ServiceEndpointMap))
    : option (Status * ServiceEndpointMap * list Event
              * list (CqEvent ServiceEndpointMap)) :=
  match ConfigureNodes_issue node_map test node_service_map with
  | None => None
  | Some pending_rpcs =>
      drain (ConfigureNodes_finish pending_rpcs) cq (length pending_rpcs)
            (Status_OK, ∅, map (fun p => EvIssue ConfigureNodeRpc p.1) pending_rpcs)
  end.

Definition ConfigureNodes (node_map : gmap string Node)
    (node_service_map : ServiceMap) (test : DistributedSystemDescription)
    (cq : list (CqEvent ServiceEndpointMap))
    : option ((Status + ServiceEndpointMap) * list Event) :=
  match ConfigureNodes_loop node_map node_service_map test cq with
  | None => None
  | Some (status, ret, trace, _) =>
      if ok status then Some (inr ret, trace)
      else Some (inl (InvalidArgumentError "Unknown GRPC error2"), trace)
  end.

(** *** IntroducePeers *)

Fixpoint IntroducePeers_issue (node_map : gmap string Node)
    (service_map : ServiceEndpointMap) (node_service_map : ServiceMap)
    : option (list (string * ServiceEndpointMap)) :=
  match node_service_map with
  | [] => Some []
  | (alias, _) :: rest =>
      match node_map !! alias with
      | None => None
      | Some _ =>
          match IntroducePeers_issue node_map service_map rest with
          | Some pending => Some ((alias, service_map) :: pending)
          | None => None
          end
      end
  end.

Definition IntroducePeers_finish (pending_rpcs : list (string * ServiceEndpointMap))
    (ev : CqEvent unit) (s : Status * list Event) : option (Status * list Event) :=
  let '(status, trace) := s in
  match pending_rpcs !! ev_tag ev with
  | None => None
  | Some (alias, _) =>
      Some (retain status (ev_status ev),
            trace ++ [EvFinish IntroducePeersRpc alias (ev_status ev)])
  end.

Definition IntroducePeers_loop (node_map : gmap string Node)
    (node_service_map : ServiceMap) (service_map : ServiceEndpointMap)
    (cq : list (CqEvent unit))
    : option (Status * list Event * list (CqEvent unit)) :=
  match IntroducePeers_issue node_map service_map node_service_map with
  | None => None
  | Some pending_rpcs =>
      drain (IntroducePeers_finish pending_rpcs) cq (length pending_rpcs)
            (Status_OK, map (fun p => EvIssue IntroducePeersRpc p.1) pending_rpcs)
  end.

Definition IntroducePeers (node_map : gmap string Node)
    (node_service_map : ServiceMap) (service_map : ServiceEndpointMap)
    (cq : list (CqEvent unit)) : option (Status * list Event) :=
  match IntroducePeers_loop node_map node_service_map service_map cq with
  | None => None
  | Some (status, trace, _) =>
      if ok status then Some (Status_OK, trace)
      else Some (InvalidArgumentError "Unknown GRPC error", trace)
  end.

(** *** RunTraffic *)

(** The issuing loop; [rpc_state.node] points at the entry of the alias, so
    the alias stands for the pointer. *)
Fixpoint RunTraffic_issue (node_map : gmap string Node)
    (node_service_map : ServiceMap) (trace : list Event)
    : option (gmap string Node * list string * list Event) :=
  match node_service_map with
  | [] => Some (node_map, [], trace)
  | (alias, _) :: rest =>
      match node_map !! alias with
      | None => None
      | Some node =>
          match RunTraffic_issue (<[alias := set_idle false node]> node_map) rest
                  (trace ++ [EvIdle alias false; EvIssue RunTrafficRpc alias]) with
          | Some (node_map', pending, trace') => Some (node_map', alias :: pending, trace')
          | None => None
          end
      end
  end.

Definition RunTraffic_finish (pending_rpcs : list string) (ev : CqEvent ServiceLogs)
    (s : Status * ServiceLogs * gmap string Node * list Event)
    : option (Status * ServiceLogs * gmap string Node * list Event) :=
  let '(status, ret, node_map, trace) := s in
  match pending_rpcs !! ev_tag ev with
  | None => None
  | Some alias =>
      Some (retain status (ev_status ev),
            MergeFrom ret (ev_response ev),
            alter (set_idle true) alias node_map,
            trace ++ [EvFinish RunTrafficRpc alias (ev_status ev); EvIdle alias true])
  end.

Definition RunTraffic_loop (node_map : gmap string Node)
    (node_service_map : ServiceMap) (cq : list (CqEvent ServiceLogs))
    : option (Status * ServiceLogs * gmap string Node * list Event
              * list (CqEvent ServiceLogs)) :=
  match RunTraffic_issue node_map node_service_map [] with
  | None => None
  | Some (node_map', pending_rpcs, trace) =>
      drain (RunTraffic_finish pending_rpcs) cq (length pending_rpcs)
            (Status_OK, ∅, node_map', trace)
  end.

Definition RunTraffic (node_map : gmap string Node)
    (node_service_map : ServiceMap) (cq : list (CqEvent ServiceLogs))
    : option ((Status + ServiceLogs) * gmap string Node * list Event) :=
  match RunTraffic_loop node_map node_service_map cq with
  | None => None
  | Some (status, ret, node_map', trace, _) =>
      if ok status then Some (inr ret, node_map', trace)
      else Some (inl (InvalidArgumentError "Unknown GRPC error2"), node_map', trace)
  end.

(** *** CancelTraffic *)

(** The scan over [node_map_], in the order [nodes] in which the range-for
    loop visits the entries. *)
Fixpoint CancelTraffic_issue (nodes : list (string * Node))
    : list string * list Event :=
  match nodes with
  | [] => ([], [])
  | (alias, node) :: rest =>
      let '(pending, trace) := CancelTraffic_issue rest in
      if idle node then (pending, trace)
      else (alias :: pending, EvIssue CancelTrafficRpc alias :: trace)
  end.

Definition CancelTraffic_finish (pending_rpcs : list string) (ev : CqEvent unit)
    (s : gmap string Node * list Event) : option (gmap string Node * list Event) :=
  let '(node_map, trace) := s in
  match pending_rpcs !! ev_tag ev with
  | None => None
  | Some alias =>
      Some (alter (set_idle true) alias node_map,
            trace ++ [EvFinish CancelTrafficRpc alias (ev_status ev); EvIdle alias true])
  end.

Definition CancelTraffic (node_map : gmap string Node) (cq : list (CqEvent unit))
    : option (gmap string Node * list Event) :=
  let '(pending_rpcs, trace) := CancelTraffic_issue (map_to_list node_map) in
  match drain (CancelTraffic_finish pending_rpcs) cq (length pending_rpcs)
              (node_map, trace) with
  | None => None
  | Some (s, _) => Some s
  end.

(** *** Vocabulary of the statements about the phases *)

(** The completions that the loop acts on, in the order of their arrival. *)
Definition finished {R : Type} (cq : list (CqEvent R)) : list (CqEvent R) :=
  filter (fun ev => ev_ok ev = true) cq.

(** The queue delivers the completion of each of the [n] RPCs once. *)
Definition complete_queue {R : Type} (n : nat) (cq : list (CqEvent R)) : Prop :=
  ev_tag <$> finished cq ≡ₚ seq 0 n.

(** [finish] applied to a list of completions, one after the other. *)
Fixpoint finish_all {R S : Type} (finish : CqEvent R -> S -> option S)
    (evs : list (CqEvent R)) (s : S) : option S :=
  match evs with
  | [] => Some s
  | ev :: evs' =>
      match finish ev s with
      | Some s' => finish_all finish evs' s'
      | None => None
      end
  end.

(** The value of the local [status] after these statuses were seen. *)
Definition last_failure (statuses : list Status) : Status :=
  fold_left retain statuses Status_OK.

(** The first status that is not OK, and OK if there is none. *)
Definition first_failure (statuses : list Status) : Status :=
  default Status_OK (head (filter (fun s => ok s = false) statuses)).

(** The accumulator after these responses were merged in. *)
Definition merged {V : Type} (responses : list (gmap string V)) : gmap string V :=
  fold_left MergeFrom responses ∅.

(** The aliases of the placement are registered. *)
Definition known_aliases (node_map : gmap string Node) (node_service_map : ServiceMap)
    : Prop :=
  forall a, a ∈ node_service_map.*1 -> is_Some (node_map !! a).

(** The aliases to which a trace issues an RPC of kind [k], and the aliases
    whose RPC of kind [k] it sees finish. *)
Definition issued_to (k : RpcKind) (trace : list Event) : list string :=
  omap (fun e => match e with
                 | EvIssue k' a => if decide (k' = k) then Some a else None
                 | _ => None
                 end) trace.

Definition finished_of (k : RpcKind) (trace : list Event) : list string :=
  omap (fun e => match e with
                 | EvFinish k' a _ => if decide (k' = k) then Some a else None
                 | _ => None
                 end) trace.

(** ** The per-test driver and the per-sequence loop *)

(** The completion queues of the three phases of one test: what the workers
    answer, and in which order the answers arrive. *)
Record TestEnv : Type := mkTestEnv {
  cq_configure : list (CqEvent ServiceEndpointMap);
  cq_introduce : list (CqEvent unit);
  cq_traffic : list (CqEvent ServiceLogs)
}.

Record TestResult : Type := mkTestResult {
  traffic_config : DistributedSystemDescription;
  placement : ServiceEndpointMap;
  service_logs : ServiceLogs
}.

(** [DoRunTest]: the result, the registry after the call, and the events of
    the call. *)
Definition DoRunTest (node_map : gmap string Node)
    (test : DistributedSystemDescription) (env : TestEnv)
    : option ((Status + TestResult) * gmap string Node * list Event) :=
  match place_services node_map test with
  | inl e => Some (inl e, node_map, [])
  | inr node_service_map =>
      match ConfigureNodes node_map node_service_map test (cq_configure env) with
      | None => None
      | Some (inl e, trace1) => Some (inl e, node_map, trace1)
      | Some (inr service_map, trace1) =>
          match IntroducePeers node_map node_service_map service_map
                               (cq_introduce env) with
          | None => None
          | Some (ipret, trace2) =>
              if negb (ok ipret) then Some (inl ipret, node_map, trace1 ++ trace2)
              else
                match RunTraffic node_map node_service_map (cq_traffic env) with
                | None => None
                | Some (inr logs, node_map', trace3) =>
                    Some (inr (mkTestResult test service_map logs), node_map',
                          trace1 ++ trace2 ++ trace3)
                | Some (inl e, node_map', trace3) =>
                    Some (inl e, node_map', trace1 ++ trace2 ++ trace3)
                end
          end
      end
  end.

(** [DoRunTestSequence].  Every test comes with what
    [running_test_sequence_context_->IsCancelled()] answers at the top of its
    round and with the queues of its phases.  [response] collects the
    results, as [response->add_test_results()] does. *)
Fixpoint DoRunTestSequence (node_map : gmap string Node)
    (tests : list (DistributedSystemDescription * bool * TestEnv))
    (response : list TestResult)
    : option (Status * list TestResult * gmap string Node * list Event) :=
  match tests with
  | [] => Some (Status_OK, response, node_map, [])
  | (test, IsCancelled, env) :: tests' =>
      if IsCancelled
      then Some (mkStatus ABORTED "Cancelled by new test sequence.",
                 response, node_map, [])
      else
        match DoRunTest node_map test env with
        | None => None
        | Some (inr result, node_map', trace) =>
            match DoRunTestSequence node_map' tests' (response ++ [result]) with
            | None => None
            | Some (s, response', node_map'', trace') =>
                Some (s, response', node_map'', trace ++ trace')
            end
        | Some (inl e, node_map', trace) =>
            Some (mkStatus ABORTED (message e), response, node_map', trace)
        end
  end.

(** ** RunTestSequence under interleaving

    Every call of [RunTestSequence] runs on a thread of its own.  A thread is
    a number; its program counter names the source line it will execute
    next.  The shared fields are the ones the function reads and writes:
    [mutex_] (one exclusive holder or a number of shared holders),
    [running_test_sequence_context_], [running_test_notification_], the
    notifications, and the [idle] flags of the nodes.  The server context and
    the notification of a call are named by the number of its thread.

    Of [DoRunTestSequence] the model keeps what it does to these fields: it
    takes [mutex_] exclusively for a while (the cancellation check, the
    snapshot, ConfigureNodes, IntroducePeers), it runs RunTraffic under the
    reader lock, and it returns.  Which of these it does next is left to
    the label of the step, so every run of the function is among the runs
    of the model. *)

Inductive Pc : Type :=
  | NotCalled
  | L71                                  (* CancelTraffic(): ReaderMutexLock m(&mutex_) *)
  | L111 (todo pending : list string)    (* CancelTraffic: for (auto& node_it : node_map_) *)
  | L124 (pending : list string)         (* CancelTraffic: while (rpc_count) *)
  | L72                                  (* mutex_.Lock() *)
  | L74                                  (* if (ctx) ctx->TryCancel() *)
  | L77                                  (* prior_notification = running_test_notification_ *)
  | L78                                  (* mutex_.Unlock() *)
  | L79                                  (* if (prior) prior->WaitForNotification() *)
  | L82                                  (* mutex_.Lock() *)
  | L83                                  (* while (running_test_sequence_context_) *)
  | L85                                  (* running_test_sequence_context_ = context *)
  | L86                                  (* running_test_notification_ = make_shared(...) *)
  | L88                                  (* mutex_.Unlock() *)
  | L89                                  (* in DoRunTestSequence, outside its critical sections *)
  | L89_locked                           (* in DoRunTestSequence, holding mutex_ exclusively *)
  | L376 (todo pending : list string)    (* RunTraffic: the issuing loop *)
  | L387 (pending : list string)         (* RunTraffic: while (rpc_count) *)
  | L90                                  (* notification->Notify() *)
  | L91                                  (* mutex_.Lock() *)
  | L92                                  (* running_test_sequence_context_ = nullptr *)
  | L93                                  (* mutex_.Unlock() *)
  | L94.                                 (* return result *)

Definition upd {A : Type} (f : nat -> A) (t : nat) (v : A) : nat -> A :=
  fun t' => if decide (t' = t) then v else f t'.

Definition upd_node (f : string -> bool) (a : string) (v : bool) : string -> bool :=
  fun a' => if decide (a' = a) then v else f a'.

Record CState : Type := mkCState {
  all_nodes : list string;
  pcs : nat -> Pc;
  prior_notification : nat -> option nat;
  mutex_writer : option nat;
  mutex_readers : nat;
  running_test_sequence_context_ : option nat;
  running_test_notification_ : option nat;
  notified : nat -> bool;
  cancelled : nat -> bool;
  node_idle : string -> bool;
  (* history: the nodes that were not idle when the call arrived, the nodes
     its CancelTraffic sent an RPC to, and the nodes whose flag a finished
     RPC has set back to true after the call arrived and while the scan of
     its CancelTraffic had yet to read that flag, each with the thread that
     saw the RPC finish and the kind of the RPC *)
  entry_busy : nat -> list string;
  cancel_targets : nat -> list string;
  idled_before_scan : nat -> list (string * nat * RpcKind)
}.

(** The nodes that the scan of CancelTraffic has yet to visit. *)
Definition to_scan (all : list string) (p : Pc) : list string :=
  match p with
  | L71 => all
  | L111 todo _ => todo
  | _ => []
  end.

Definition CState_init (nodes : list string) : CState :=
  mkCState nodes (fun _ => NotCalled) (fun _ => None) None 0 None None
           (fun _ => false) (fun _ => false) (fun _ => true)
           (fun _ => []) (fun _ => []) (fun _ => []).

Definition set_pc (t : nat) (p : Pc) (s : CState) : CState :=
  mkCState (all_nodes s) (upd (pcs s) t p) (prior_notification s) (mutex_writer s)
    (mutex_readers s) (running_test_sequence_context_ s)
    (running_test_notification_ s) (notified s) (cancelled s) (node_idle s)
    (entry_busy s) (cancel_targets s) (idled_before_scan s).

Definition set_prior (t : nat) (n : option nat) (s : CState) : CState :=
  mkCState (all_nodes s) (pcs s) (upd (prior_notification s) t n) (mutex_writer s)
    (mutex_readers s) (running_test_sequence_context_ s)
    (running_test_notification_ s) (notified s) (cancelled s) (node_idle s)
    (entry_busy s) (cancel_targets s) (idled_before_scan s).

Definition set_writer (w : option nat) (s : CState) : CState :=
  mkCState (all_nodes s) (pcs s) (prior_notification s) w
    (mutex_readers s) (running_test_sequence_context_ s)
    (running_test_notification_ s) (notified s) (cancelled s) (node_idle s)
    (entry_busy s) (cancel_targets s) (idled_before_scan s).

Definition set_readers (r : nat) (s : CState) : CState :=
  mkCState (all_nodes s) (pcs s) (prior_notification s) (mutex_writer s)
    r (running_test_sequence_context_ s)
    (running_test_notification_ s) (notified s) (cancelled s) (node_idle s)
    (entry_busy s) (cancel_targets s) (idled_before_scan s).

Definition set_context (c : option nat) (s : CState) : CState :=
  mkCState (all_nodes s) (pcs s) (prior_notification s) (mutex_writer s)
    (mutex_readers s) c
    (running_test_notification_ s) (notified s) (cancelled s) (node_idle s)
    (entry_busy s) (cancel_targets s) (idled_before_scan s).

Definition set_notification (n : option nat) (s : CState) : CState :=
  mkCState (all_nodes s) (pcs s) (prior_notification s) (mutex_writer s)
    (mutex_readers s) (running_test_sequence_context_ s)
    n (notified s) (cancelled s) (node_idle s)
    (entry_busy s) (cancel_targets s) (idled_before_scan s).

Definition set_notified (t : nat) (s : CState) : CState :=
  mkCState (all_nodes s) (pcs s) (prior_notification s) (mutex_writer s)
    (mutex_readers s) (running_test_sequence_context_ s)
    (running_test_notification_ s) (upd (notified s) t true) (cancelled s)
    (node_idle s) (entry_busy s) (cancel_targets s) (idled_before_scan s).

Definition set_cancelled (t : nat) (s : CState) : CState :=
  mkCState (all_nodes s) (pcs s) (prior_notification s) (mutex_writer s)
    (mutex_readers s) (running_test_sequence_context_ s)
    (running_test_notification_ s) (notified s) (upd (cancelled s) t true)
    (node_idle s) (entry_busy s) (cancel_targets s) (idled_before_scan s).

(** [node->idle = false] *)
Definition set_busy (a : string) (s : CState) : CState :=
  mkCState (all_nodes s) (pcs s) (prior_notification s) (mutex_writer s)
    (mutex_readers s) (running_test_sequence_context_ s)
    (running_test_notification_ s) (notified s) (cancelled s)
    (upd_node (node_idle s) a false)
    (entry_busy s) (cancel_targets s) (idled_before_scan s).

(** [finished_rpc->node->idle = true], executed by the thread [t] for an RPC
    of the kind [k]; it is noted in the history of every call whose scan
    has yet to read the flag of [a] *)
Definition set_idled (t : nat) (k : RpcKind) (a : string) (s : CState) : CState :=
  mkCState (all_nodes s) (pcs s) (prior_notification s) (mutex_writer s)
    (mutex_readers s) (running_test_sequence_context_ s)
    (running_test_notification_ s) (notified s) (cancelled s)
    (upd_node (node_idle s) a true)
    (entry_busy s) (cancel_targets s)
    (fun t' => if bool_decide (a ∈ to_scan (all_nodes s) (pcs s t'))
               then (a, t, k) :: idled_before_scan s t'
               else idled_before_scan s t').

(** The call arrives: the history of the thread starts here. *)
Definition set_entry (t : nat) (s : CState) : CState :=
  mkCState (all_nodes s) (pcs s) (prior_notification s) (mutex_writer s)
    (mutex_readers s) (running_test_sequence_context_ s)
    (running_test_notification_ s) (notified s) (cancelled s) (node_idle s)
    (upd (entry_busy s) t (filter (fun a => node_idle s a = false) (all_nodes s)))
    (upd (cancel_targets s) t [])
    (upd (idled_before_scan s) t []).

Definition add_target (t : nat) (a : string) (s : CState) : CState :=
  mkCState (all_nodes s) (pcs s) (prior_notification s) (mutex_writer s)
    (mutex_readers s) (running_test_sequence_context_ s)
    (running_test_notification_ s) (notified s) (cancelled s) (node_idle s)
    (entry_busy s) (upd (cancel_targets s) t (cancel_targets s t ++ [a]))
    (idled_before_scan s).

(** What the scheduler and the environment choose. *)
Inductive Label : Type :=
  | Run (t : nat)
      (* thread [t] executes the statement at its program counter *)
  | Critical (t : nat)
      (* in the body: a critical section under [MutexLock] begins (the
         cancellation check, the snapshot, ConfigureNodes, IntroducePeers) *)
  | Traffic (t : nat) (placement : list string)
      (* in the body: RunTraffic is entered with these aliases *)
  | Leave (t : nat)
      (* the body returns *)
  | Finish (t : nat) (alias : string).
      (* [cq.Next] of thread [t] delivers the completion of the RPC to [alias] *)

Definition mutex_free (s : CState) : bool :=
  bool_decide (mutex_writer s = None) && bool_decide (mutex_readers s = 0%nat).

Definition lock_exclusive (t : nat) (p : Pc) (s : CState) : option CState :=
  if mutex_free s then Some (set_pc t p (set_writer (Some t) s)) else None.

Definition lock_shared (t : nat) (p : Pc) (s : CState) : option CState :=
  if bool_decide (mutex_writer s = None)
  then Some (set_pc t p (set_readers (S (mutex_readers s)) s)) else None.

Definition unlock_shared (t : nat) (p : Pc) (s : CState) : CState :=
  set_pc t p (set_readers (Nat.pred (mutex_readers s)) s).

Definition RunTestSequence_step (s : CState) (l : Label) : option CState :=
  match l with
  | Run t =>
      match pcs s t with
      | NotCalled => Some (set_pc t L71 (set_entry t s))
      | L71 => lock_shared t (L111 (all_nodes s) []) s
      | L111 [] pending => Some (set_pc t (L124 pending) s)
      | L111 (a :: todo) pending =>
          if node_idle s a then Some (set_pc t (L111 todo pending) s)
          else Some (set_pc t (L111 todo (pending ++ [a])) (add_target t a s))
      | L124 [] => Some (unlock_shared t L72 s)
      | L124 (_ :: _) => None
      | L72 => lock_exclusive t L74 s
      | L74 =>
          match running_test_sequence_context_ s with
          | Some c => Some (set_pc t L77 (set_cancelled c s))
          | None => Some (set_pc t L77 s)
          end
      | L77 => Some (set_pc t L78 (set_prior t (running_test_notification_ s) s))
      | L78 => Some (set_pc t L79 (set_writer None s))
      | L79 =>
          match prior_notification s t with
          | Some n => if notified s n then Some (set_pc t L82 s) else None
          | None => Some (set_pc t L82 s)
          end
      | L82 => lock_exclusive t L83 s
      | L83 =>
          match running_test_sequence_context_ s with
          | Some _ => Some (set_pc t L74 s)
          | None => Some (set_pc t L85 s)
          end
      | L85 => Some (set_pc t L86 (set_context (Some t) s))
      | L86 => Some (set_pc t L88 (set_notification (Some t) s))
      | L88 => Some (set_pc t L89 (set_writer None s))
      | L89 => None
      | L89_locked => Some (set_pc t L89 (set_writer None s))
      | L376 [] pending => Some (set_pc t (L387 pending) s)
      | L376 (a :: todo) pending =>
          Some (set_pc t (L376 todo (pending ++ [a])) (set_busy a s))
      | L387 [] => Some (unlock_shared t L89 s)
      | L387 (_ :: _) => None
      | L90 => Some (set_pc t L91 (set_notified t s))
      | L91 => lock_exclusive t L92 s
      | L92 => Some (set_pc t L93 (set_context None s))
      | L93 => Some (set_pc t L94 (set_writer None s))
      | L94 => None
      end
  | Critical t =>
      match pcs s t with
      | L89 => lock_exclusive t L89_locked s
      | _ => None
      end
  | Traffic t placement =>
      match pcs s t with
      | L89 =>
          if forallb (fun a => bool_decide (a ∈ all_nodes s)) placement
          then lock_shared t (L376 placement []) s
          else None
      | _ => None
      end
  | Leave t =>
      match pcs s t with
      | L89 => Some (set_pc t L90 s)
      | _ => None
      end
  | Finish t a =>
      match pcs s t with
      | L124 pending =>
          if bool_decide (a ∈ pending)
          then Some (set_pc t (L124 (set_erase a pending))
                        (set_idled t CancelTrafficRpc a s))
          else None
      | L387 pending =>
          if bool_decide (a ∈ pending)
          then Some (set_pc t (L387 (set_erase a pending))
                        (set_idled t RunTrafficRpc a s))
          else None
      | _ => None
      end
  end.

Fixpoint run (s : CState) (ls : list Label) : option CState :=
  match ls with
  | [] => Some s
  | l :: ls' =>
      match RunTestSequence_step s l with
      | Some s' => run s' ls'
      | None => None
      end
  end.

Definition reachable (nodes : list string) (s : CState) : Prop :=
  exists ls, run (CState_init nodes) ls = Some s.

(** The thread holds [mutex_] exclusively. *)
Definition holds_mutex (p : Pc) : bool :=
  match p with
  | L74 | L77 | L78 | L83 | L85 | L86 | L88 | L89_locked | L92 | L93 => true
  | _ => false
  end.

(** The thread has installed its context and has not cleared it yet. *)
Definition has_context (p : Pc) : bool :=
  match p with
  | L86 | L88 | L89 | L89_locked | L376 _ _ | L387 _ | L90 | L91 | L92 => true
  | _ => false
  end.

(** The thread has installed its notification as well. *)
Definition has_handle (p : Pc) : bool :=
  match p with
  | L88 | L89 | L89_locked | L376 _ _ | L387 _ | L90 | L91 | L92 => true
  | _ => false
  end.

(** What every reachable state satisfies. *)
Definition Inv_mutex (s : CState) : Prop :=
  forall t, holds_mutex (pcs s t) = true <-> mutex_writer s = Some t.

Definition Inv_context (s : CState) : Prop :=
  (forall t, has_context (pcs s t) = true <-> running_test_sequence_context_ s = Some t) /\
  (forall t, has_handle (pcs s t) = true -> running_test_notification_ s = Some t) /\
  (forall t, pcs s t = L85 -> running_test_sequence_context_ s = None).

Definition Inv_cancel (s : CState) : Prop :=
  (forall t a, a ∈ entry_busy s t ->
     a ∈ cancel_targets s t \/
     (exists A k, (a, A, k) ∈ idled_before_scan s t) \/
     (a ∈ to_scan (all_nodes s) (pcs s t) /\ node_idle s a = false)) /\
  (forall t a A k, (a, A, k) ∈ idled_before_scan s t ->
     A <> t /\ (k = RunTrafficRpc \/ k = CancelTrafficRpc)).

(** The thread is inside [DoRunTestSequence]. *)
Definition in_body (p : Pc) : bool :=
  match p with
  | L89 | L89_locked | L376 _ _ | L387 _ => true
  | _ => false
  end.

(** ** Inputs of the examples *)

Definition example_node (host : string) (is_idle : bool) : Node :=
  mkNode (mkNodeRegistration host 7 []) (mkStub ("dns:///" +:+ host +:+ ":7")) is_idle.

(** Two registered nodes, both idle. *)
Definition example_two_nodes : gmap string Node :=
  <["node0" := example_node "h1" true]> (<["node1" := example_node "h2" true]> ∅).

(** One registered node whose RunTraffic is outstanding. *)
Definition example_busy_node : gmap string Node :=
  <["node0" := example_node "h1" false]> ∅.

(** A placement of two services on the two nodes, and two queues for it: in
    the first both workers answer with an error, node0 first; in the second
    only node1 does. *)
Definition example_placement : ServiceMap :=
  [("node0", ["A/0"]); ("node1", ["A/1"])].

Definition example_test : DistributedSystemDescription :=
  mkDescription [mkServiceSpec "A" 2] [].

Definition example_cq_two_failures {R : Type} (r : R) : list (CqEvent R) :=
  [mkCqEvent true 0 (mkStatus UNAVAILABLE "node0 is down") r;
   mkCqEvent true 1 (mkStatus INTERNAL "node1 failed") r].

Definition example_cq_one_failure {R : Type} (r : R) : list (CqEvent R) :=
  [mkCqEvent true 1 (mkStatus INTERNAL "node1 failed") r;
   mkCqEvent true 0 Status_OK r].

(** The schedule of two calls, thread 0 and thread 1, on the single node
    node0.  Thread 0 goes through the entry and starts RunTraffic on node0.
    Thread 1 arrives while node0 is busy.  The RPC of thread 0 finishes and
    sets node0 idle before the scan of thread 1 reads its flag, so thread 1
    sends no CancelTraffic RPC; it then cancels thread 0, waits for it, and
    enters its body. *)
Definition example_schedule : list Label :=
  (* thread 0: entry, CancelTraffic, the lock protocol, into the body *)
  repeat (Run 0) 15 ++
  (* thread 0: the cancellation check, the snapshot, Configure, Introduce *)
  [Critical 0; Run 0; Critical 0; Run 0; Critical 0; Run 0; Critical 0; Run 0] ++
  (* thread 0: RunTraffic on node0, the RPC is issued *)
  [Traffic 0 ["node0"]; Run 0; Run 0] ++
  (* thread 1 arrives *)
  [Run 1] ++
  (* the RPC of thread 0 finishes *)
  [Finish 0 "node0"] ++
  (* thread 1: CancelTraffic finds node0 idle *)
  repeat (Run 1) 4 ++
  (* thread 0 leaves RunTraffic *)
  [Run 0] ++
  (* thread 1: Lock, TryCancel, capture, Unlock *)
  repeat (Run 1) 4 ++
  (* thread 0 leaves the body, notifies, clears the context *)
  [Leave 0] ++ repeat (Run 0) 4 ++
  (* thread 1: wakes up, Lock, condition, install, Unlock *)
  repeat (Run 1) 6.

(** The state at the end of the schedule. *)
Definition example_final : CState :=
  default (CState_init []) (run (CState_init ["node0"]) example_schedule).

(** The schedule of two calls in which the scan of thread 1 finds node0
    busy.  Thread 0 is in RunTraffic on node0 when thread 1 arrives; the
    scan of thread 1 reads the flag of node0 while it is false and sends a
    CancelTraffic RPC; that RPC finishes, then the RunTraffic RPC of thread
    0 does; thread 1 cancels thread 0, waits for it, and enters its body. *)
Definition example_schedule_cancel : list Label :=
  repeat (Run 0) 15 ++
  [Traffic 0 ["node0"]; Run 0; Run 0] ++
  (* thread 1: arrives, takes the reader lock, scans node0, ends the scan *)
  repeat (Run 1) 4 ++
  (* the CancelTraffic RPC of thread 1 finishes, then the RunTraffic RPC *)
  [Finish 1 "node0"; Finish 0 "node0"] ++
  (* both leave their reader sections *)
  [Run 1; Run 0] ++
  (* thread 1: Lock, TryCancel, capture, Unlock *)
  repeat (Run 1) 4 ++
  (* thread 0 leaves the body, notifies, clears the context *)
  [Leave 0] ++ repeat (Run 0) 4 ++
  (* thread 1: wakes up, Lock, condition, install, Unlock *)
  repeat (Run 1) 6.

Definition example_final_cancel : CState :=
  default (CState_init []) (run (CState_init ["node0"]) example_schedule_cancel).

(** ** Vocabulary of the further statements *)

(** Two payloads of the examples. *)
Definition example_h1 : NodeRegistration := mkNodeRegistration "h1" 7 [].
Definition example_h2 : NodeRegistration := mkNodeRegistration "h2" 7 [].

(** Three registered nodes, all idle. *)
Definition example_three_nodes : gmap string Node :=
  <["node2" := example_node "h3" true]> example_two_nodes.

(** The placement that the loop over the unplaced services and the loop over
    the idle nodes that are left build when no bundle is given: the services
    and the idle nodes are paired in order, one service to a node, and the
    nodes beyond the last service get an empty set. *)
Definition auto_layout (idle_nodes unplaced_services : list string) : ServiceMap :=
  ((fun p => (p.1, [p.2])) <$> zip idle_nodes unplaced_services)
  ++ ((fun a => (a, [])) <$> drop (length unplaced_services) idle_nodes).

(** The service [x] is in the set of the alias [a]. *)
Definition placed_on (m : ServiceMap) (a x : string) : Prop :=
  exists s, (a, s) ∈ m /\ x ∈ s.

(** The bundles that the loop over [test.node_service_bundles()] accepts,
    given the unplaced services and the idle nodes it starts with: no alias
    is named by two bundles, every alias is an idle node, no service is named
    twice, and every service is unplaced. *)
Definition valid_bundles (bundles : list (string * list string))
    (unplaced_services idle_nodes : list string) : Prop :=
  NoDup bundles.*1 /\
  (forall a, a ∈ bundles.*1 -> a ∈ idle_nodes) /\
  NoDup (concat bundles.*2) /\
  (forall x, x ∈ concat bundles.*2 -> x ∈ unplaced_services).

(** Two registries hold the same nodes: they differ at most in [idle]
    flags. *)
Definition same_nodes (node_map node_map' : gmap string Node) : Prop :=
  set_idle true <$> node_map' = set_idle true <$> node_map.

(** Every registered node is idle. *)
Definition all_idle (node_map : gmap string Node) : Prop :=
  forall a node, node_map !! a = Some node -> idle node = true.

(** The queues of the three phases of a test deliver the completion of
    every RPC that the phase issues for the placement of the test. *)
Definition queues_complete (node_map : gmap string Node)
    (test : DistributedSystemDescription) (env : TestEnv) : Prop :=
  forall node_service_map,
    place_services node_map test = inr node_service_map ->
    complete_queue (length node_service_map) (cq_configure env) /\
    complete_queue (length node_service_map) (cq_introduce env) /\
    complete_queue (length node_service_map) (cq_traffic env).

(** The statuses of the completions that a queue delivers are all OK. *)
Definition all_ok {R : Type} (cq : list (CqEvent R)) : Prop :=
  forallb ok (ev_status <$> finished cq) = true.

(** The queues of a test on the two nodes in which every worker answers OK:
    node1 answers first, and an event that is not [ok] comes in between. *)
Definition example_cq_ok {R : Type} (r0 r1 : R) : list (CqEvent R) :=
  [mkCqEvent true 1 Status_OK r1; mkCqEvent false 0 Status_OK r0;
   mkCqEvent true 0 Status_OK r0].

Definition example_env_ok : TestEnv :=
  mkTestEnv (example_cq_ok {["A/0" := "h1:1000"]} {["A/1" := "h2:1000"]})
            (example_cq_ok tt tt)
            (example_cq_ok {["A/0" := ["log of A/0"]]} {["A/1" := ["log of A/1"]]}).

(** In these queues node1 answers the IntroducePeers RPC with an error. *)
Definition example_env_introduce_fails : TestEnv :=
  mkTestEnv (example_cq_ok {["A/0" := "h1:1000"]} {["A/1" := "h2:1000"]})
            (example_cq_one_failure tt) [].

(** In these queues node1 answers the RunTraffic RPC with an error. *)
Definition example_env_traffic_fails : TestEnv :=
  mkTestEnv (example_cq_ok {["A/0" := "h1:1000"]} {["A/1" := "h2:1000"]})
            (example_cq_ok tt tt) (example_cq_one_failure ∅).

(** The call has installed its notification and has not called [Notify]
    yet. *)
Definition before_notify (p : Pc) : bool :=
  match p with
  | L88 | L89 | L89_locked | L376 _ _ | L387 _ | L90 => true
  | _ => false
  end.

(** The call has called [Notify]. *)
Definition after_notify (p : Pc) : bool :=
  match p with
  | L91 | L92 | L93 | L94 => true
  | _ => false
  end.

(** The nodes whose RunTraffic RPC the thread has issued and not yet seen
    finish. *)
Definition awaited (p : Pc) : list string :=
  match p with
  | L376 _ pending => pending
  | L387 pending => pending
  | _ => []
  end.

(** A node is busy only while a RunTraffic RPC to it is outstanding. *)
Definition Inv_busy (s : CState) : Prop :=
  forall a, node_idle s a = false -> exists t, a ∈ awaited (pcs s t).

(** The notifications: a notification is notified once its call is past
    [Notify]; the notification that is installed, and the one a call has
    captured, belong to a call that has installed it. *)
Definition Inv_notify (s : CState) : Prop :=
  (forall n, notified s n = true <-> after_notify (pcs s n) = true) /\
  (forall n, running_test_notification_ s = Some n ->
             before_notify (pcs s n) || after_notify (pcs s n) = true) /\
  (forall t n, prior_notification s t = Some n ->
               before_notify (pcs s n) || after_notify (pcs s n) = true).

(** The call to which a captured notification belongs has finished its
    body or has been cancelled. *)
Definition Inv_wait (s : CState) : Prop :=
  (forall t n, pcs s t = L77 -> running_test_notification_ s = Some n ->
               notified s n || cancelled s n = true) /\
  (forall t n, prior_notification s t = Some n ->
               notified s n || cancelled s n = true).

(** Thread 0 is in its body when thread 1 arrives and goes up to
    [WaitForNotification]. *)
Definition example_schedule_wait : list Label :=
  repeat (Run 0) 15 ++ repeat (Run 1) 9.

Definition example_waiting : CState :=
  default (CState_init []) (run (CState_init ["node0"]) example_schedule_wait).

(** Thread 0 has issued the RunTraffic RPC to node0. *)
Definition example_schedule_traffic : list Label :=
  repeat (Run 0) 15 ++ [Traffic 0 ["node0"]; Run 0; Run 0].

Definition example_in_traffic : CState :=
  default (CState_init []) (run (CState_init ["node0"]) example_schedule_traffic).

(** The thread holds [mutex_] as a reader: it is inside CancelTraffic or
    inside RunTraffic. *)
Definition in_reader (p : Pc) : bool :=
  match p with
  | L111 _ _ | L124 _ | L376 _ _ | L387 _ => true
  | _ => false
  end.

(** The count of the readers of [mutex_] is the number of the threads that
    are inside a reader section, and it is zero while a writer holds the
    lock. *)
Definition Inv_readers (s : CState) : Prop :=
  (exists l : list nat,
     NoDup l /\ (forall t, in_reader (pcs s t) = true <-> t ∈ l) /\
     mutex_readers s = length l) /\
  (mutex_writer s <> None -> mutex_readers s = 0%nat).

(** Thread 0 is in the first critical section of its body. *)
Definition example_schedule_critical : list Label :=
  repeat (Run 0) 15 ++ [Critical 0].

Definition example_in_critical : CState :=
  default (CState_init []) (run (CState_init ["node0"]) example_schedule_critical).

(** Thread 0 is in its body, between two critical sections; thread 1 has
    not called yet. *)
Definition example_schedule_body : list Label := repeat (Run 0) 15.

Definition example_in_body : CState :=
  default (CState_init []) (run (CState_init ["node0"]) example_schedule_body).

(** * Properties *)

(** ** Machine integers and aliases *)

Lemma int_wrap_small z : - 2 ^ 31 <= z < 2 ^ 31 -> int_wrap z = z.
Proof. intros H. unfold int_wrap. rewrite Z.mod_small; lia. Qed.

Lemma int_of_size_small n : Z.of_nat n < 2 ^ 31 -> int_of_size n = Z.of_nat n.
Proof. intros H. apply int_wrap_small. lia. Qed.

Lemma alias_of_inj i j : alias_of i = alias_of j -> i = j.
Proof.
  unfold alias_of. intros H.
  apply (inj (String.app "node")) in H. by apply (inj pretty) in H.
Qed.

(** ** RegisterNode *)

Section RegisterNodeFacts.
Variable DebugString : NodeRegistration -> string.

Lemma RegisterNode_invalid NewStub st r resp :
  ~ valid_registration r ->
  RegisterNode DebugString NewStub st r resp
  = (mkStatus INVALID_ARGUMENT "Invalid Registration", resp, st).
Proof.
  intros Hv. unfold RegisterNode.
  destruct (bool_decide (hostname r = "")) eqn:E1; simpl; [done|].
  destruct (control_port r <=? 0) eqn:E2; [done|].
  exfalso. apply Hv. split.
  - by apply bool_decide_eq_false in E1.
  - apply Z.leb_gt in E2. lia.
Qed.

(** The two branches that a valid payload can take. *)
Lemma RegisterNode_valid NewStub st r resp :
  valid_registration r ->
  RegisterNode DebugString NewStub st r resp =
  let id := chosen_id DebugString st r in
  let id_map := <[DebugString r := id]> (node_id_map_ st) in
  match NewStub (node_service_of r) with
  | Some stub =>
      (Status_OK, mkNodeConfig id (alias_of id),
       mkSequencer
         (<[alias_of id :=
              mkNode r stub
                (match node_map_ st !! alias_of id with
                 | Some node => idle node
                 | None => Node_default_idle
                 end)]> (node_map_ st))
         id_map)
  | None =>
      (mkStatus UNKNOWN "Could not create node stub.", resp,
       mkSequencer (node_map_ st) id_map)
  end.
Proof.
  intros [Hh Hp]. unfold RegisterNode, chosen_id, node_service_of.
  rewrite bool_decide_eq_false_2 by done.
  destruct (control_port r <=? 0) eqn:E2; [apply Z.leb_le in E2; lia|].
  simpl orb. cbv iota.
  destruct (node_id_map_ st !! DebugString r) as [id|] eqn:E; simpl.
  - rewrite insert_id by done. done.
  - done.
Qed.

Lemma chosen_id_recorded nm idm r id :
  chosen_id DebugString (mkSequencer nm (<[DebugString r := id]> idm)) r = id.
Proof. unfold chosen_id. simpl. by rewrite lookup_insert_eq. Qed.

Lemma chosen_id_init r : chosen_id DebugString Sequencer_init r = 0.
Proof. unfold chosen_id. simpl. by rewrite lookup_empty. Qed.

(** A call that returns OK had a valid payload and got a stub. *)
Lemma RegisterNode_OK_inv NewStub st r resp s c st' :
  RegisterNode DebugString NewStub st r resp = (s, c, st') ->
  code s = OK ->
  valid_registration r /\ is_Some (NewStub (node_service_of r)).
Proof.
  intros Hcall Hok.
  destruct (decide (valid_registration r)) as [Hv|Hv].
  - split; [done|]. rewrite RegisterNode_valid in Hcall by done. simpl in Hcall.
    destruct (NewStub (node_service_of r)); [eauto|].
    injection Hcall as <- _ _. discriminate.
  - rewrite RegisterNode_invalid in Hcall by done.
    injection Hcall as <- _ _. discriminate.
Qed.

Lemma Registry_inv_init : Registry_inv Sequencer_init.
Proof.
  unfold Registry_inv, Sequencer_init; simpl. repeat split.
  - intros [x Hx]. by rewrite lookup_empty in Hx.
  - intros (i & Hi & _). rewrite map_size_empty in Hi. lia.
  - rewrite lookup_empty in H. done.
  - rewrite lookup_empty in H. done.
  - intros k1 k2 id H. by rewrite lookup_empty in H.
Qed.

(** One successful call keeps the invariant, never forgets a recorded
    identifier, and lets the node map grow by one entry at most. *)
Lemma RegisterNode_keeps_inv NewStub st r resp s c st' :
  Registry_inv st ->
  Z.of_nat (size (node_map_ st)) < 2 ^ 31 ->
  RegisterNode DebugString NewStub st r resp = (s, c, st') ->
  code s = OK ->
  Registry_inv st' /\
  c = mkNodeConfig (chosen_id DebugString st r) (alias_of (chosen_id DebugString st r)) /\
  node_id_map_ st' = <[DebugString r := chosen_id DebugString st r]> (node_id_map_ st) /\
  (forall k id, node_id_map_ st !! k = Some id -> node_id_map_ st' !! k = Some id) /\
  (size (node_map_ st') <= S (size (node_map_ st)))%nat.
Proof.
  intros (I1 & I2 & I3 & I4) Hsz Hcall Hok.
  destruct (RegisterNode_OK_inv _ _ _ _ _ _ _ Hcall Hok) as [Hv [stub Hstub]].
  rewrite RegisterNode_valid in Hcall by done. simpl in Hcall.
  rewrite Hstub in Hcall. injection Hcall as _ <- <-. simpl.
  unfold chosen_id in *.
  destruct (node_id_map_ st !! DebugString r) as [id|] eqn:E; simpl.
  - (* a repeated payload *)
    assert (Hex : is_Some (node_map_ st !! alias_of id)).
    { apply I1. exists id. split; [by eapply I2|done]. }
    destruct Hex as [node Hnode]. rewrite Hnode.
    rewrite (insert_id (node_id_map_ st)) by done.
    assert (Hsize : size (<[alias_of id := mkNode r stub (idle node)]> (node_map_ st))
                    = size (node_map_ st)).
    { by eapply map_size_insert_Some. }
    split; [|split; [done|split; [done|split; [done|lia]]]].
    unfold Registry_inv; simpl. rewrite Hsize. repeat split; try done.
    + intros Ha. apply I1.
      destruct (decide (a = alias_of id)) as [->|Hne]; [eauto|].
      by rewrite lookup_insert_ne in Ha.
    + intros Ha. apply I1 in Ha.
      destruct (decide (a = alias_of id)) as [->|Hne].
      * rewrite lookup_insert_eq. eauto.
      * by rewrite lookup_insert_ne.
    + by eapply I2.
    + by eapply I2.
  - (* a new payload *)
    rewrite int_of_size_small by done.
    set (n := size (node_map_ st)) in *.
    assert (Hfresh : node_map_ st !! alias_of (Z.of_nat n) = None).
    { destruct (node_map_ st !! alias_of (Z.of_nat n)) eqn:En; [|done].
      assert (Hs : is_Some (node_map_ st !! alias_of (Z.of_nat n))) by eauto.
      apply I1 in Hs as (i & Hi & Heq). apply alias_of_inj in Heq. lia. }
    rewrite Hfresh.
    assert (Hsize : size (<[alias_of (Z.of_nat n) := mkNode r stub Node_default_idle]>
                            (node_map_ st)) = S n).
    { by apply map_size_insert_None. }
    split; [|split; [done|split; [done|split; [|lia]]]].
    + unfold Registry_inv; simpl. rewrite Hsize. repeat split.
      * intros Ha. destruct (decide (a = alias_of (Z.of_nat n))) as [->|Hne].
        -- exists (Z.of_nat n). split; [lia|done].
        -- rewrite lookup_insert_ne in Ha by done.
           apply I1 in Ha as (i & Hi & ->). exists i. split; [lia|done].
      * intros (i & Hi & ->).
        destruct (decide (i = Z.of_nat n)) as [->|Hne].
        -- rewrite lookup_insert_eq. eauto.
        -- rewrite lookup_insert_ne by (intros Heq; apply alias_of_inj in Heq; lia).
           apply I1. exists i. split; [lia|done].
      * destruct (decide (k = DebugString r)) as [->|Hne].
        -- rewrite lookup_insert_eq in H. injection H as <-. lia.
        -- rewrite lookup_insert_ne in H by done. apply I2 in H. lia.
      * destruct (decide (k = DebugString r)) as [->|Hne].
        -- rewrite lookup_insert_eq in H. injection H as <-. lia.
        -- rewrite lookup_insert_ne in H by done. apply I2 in H. lia.
      * intros k1 k2 id H1 H2.
        destruct (decide (k1 = DebugString r)) as [->|Hne1];
          destruct (decide (k2 = DebugString r)) as [->|Hne2]; try done.
        -- rewrite lookup_insert_eq in H1. injection H1 as <-.
           rewrite lookup_insert_ne in H2 by done. apply I2 in H2. lia.
        -- rewrite lookup_insert_eq in H2. injection H2 as <-.
           rewrite lookup_insert_ne in H1 by done. apply I2 in H1. lia.
        -- rewrite lookup_insert_ne in H1, H2 by done. by eapply I3.
      * rewrite map_size_insert_None by done. by rewrite I4.
    + intros k id Hk. rewrite lookup_insert_ne; [done|]. intros <-. congruence.
Qed.

(** What a failed stub construction leaves behind, in general: the node
    map is the old one, and the payload is recorded with the identifier the
    call had chosen. *)
Lemma RegisterNode_stub_failure NewStub st r resp :
  valid_registration r ->
  NewStub (node_service_of r) = None ->
  RegisterNode DebugString NewStub st r resp
  = (mkStatus UNKNOWN "Could not create node stub.", resp,
     mkSequencer (node_map_ st)
       (<[DebugString r := chosen_id DebugString st r]> (node_id_map_ st))).
Proof.
  intros Hv Hstub. rewrite RegisterNode_valid by done. simpl. by rewrite Hstub.
Qed.

(** C3, at the input on which the code departs from it: the first call
    ever, for the payload h1:7, with a stub construction that fails, returns
    UNKNOWN and leaves the node map empty, but it has recorded the payload
    with the identifier 0 in the deduplication map, so the registry state is
    not the one before the call. *)
Theorem RegisterNode_stub_failure_records_id :
  let request := mkNodeRegistration "h1" 7 [] in
  RegisterNode DebugString stub_never Sequencer_init request NodeConfig_default
  = (mkStatus UNKNOWN "Could not create node stub.", NodeConfig_default,
     mkSequencer ∅ {[ DebugString request := 0 ]})
  /\ mkSequencer ∅ {[ DebugString request := 0 ]} <> Sequencer_init.
Proof.
  intros request. split.
  - rewrite RegisterNode_stub_failure; [|split; [done|simpl; lia]|done].
    rewrite chosen_id_init. simpl. rewrite insert_empty. done.
  - unfold Sequencer_init. intros Heq.
    apply (f_equal (fun st => node_id_map_ st !! DebugString request)) in Heq.
    simpl in Heq.
    rewrite lookup_singleton_eq, lookup_empty in Heq. done.
Qed.

(** The identifier that the failed call recorded is handed out again: a
    different payload that registers next gets the identifier 0, and the
    first payload, registering again, gets the recorded 0 as well, so the
    two payloads share the alias node0 and the second call's node is
    replaced. *)
Lemma stub_failure_then_shared_alias p1 p2 :
  valid_registration p1 -> valid_registration p2 ->
  DebugString p1 <> DebugString p2 ->
  exists st',
    RegisterNodes DebugString Sequencer_init
      [(stub_never, p1); (stub_always, p2); (stub_always, p1)]
    = ([(mkStatus UNKNOWN "Could not create node stub.", NodeConfig_default);
        (Status_OK, mkNodeConfig 0 "node0");
        (Status_OK, mkNodeConfig 0 "node0")], st')
    /\ registration <$> (node_map_ st' !! "node0") = Some p1
    /\ size (node_map_ st') = 1%nat.
Proof.
  intros Hv1 Hv2 Hne. eexists. simpl.
  rewrite (RegisterNode_stub_failure stub_never) by done.
  rewrite chosen_id_init.
  rewrite (RegisterNode_valid stub_always) by done.
  assert (Hc2 : forall idm,
             chosen_id DebugString
               (mkSequencer ∅ (<[DebugString p1 := 0]> idm)) p2
             = default 0 (idm !! DebugString p2)).
  { intros idm. unfold chosen_id. simpl. by rewrite lookup_insert_ne. }
  simpl. rewrite !Hc2, lookup_empty. simpl.
  rewrite (RegisterNode_valid stub_always) by done.
  assert (Hc1 : forall nm,
             chosen_id DebugString
               (mkSequencer nm (<[DebugString p2 := 0]> (<[DebugString p1 := 0]> ∅))) p1
             = 0).
  { intros nm. unfold chosen_id. simpl.
    rewrite lookup_insert_ne by done. by rewrite lookup_insert_eq. }
  simpl. rewrite !Hc1.
  change (alias_of 0) with "node0".
  split; [reflexivity|]. simpl. split.
  - by rewrite lookup_insert_eq.
  - rewrite insert_insert_eq. rewrite insert_empty. apply map_size_singleton.
Qed.

(** C5: a valid payload whose stub can be built is registered twice in a
    row, from any state of the registry.  Both calls return OK with the
    same node_id and the same node_alias, which is node followed by the
    id, and the node map has the same size after the second call as after
    the first.  When the first call is the first registration ever, the
    id is 0, the alias is node0 and the size is 1. *)
Theorem RegisterNode_twice NewStub1 NewStub2 st request :
  valid_registration request ->
  is_Some (NewStub1 (node_service_of request)) ->
  is_Some (NewStub2 (node_service_of request)) ->
  exists id st1 st2,
    RegisterNode DebugString NewStub1 st request NodeConfig_default
    = (Status_OK, mkNodeConfig id (alias_of id), st1) /\
    RegisterNode DebugString NewStub2 st1 request NodeConfig_default
    = (Status_OK, mkNodeConfig id (alias_of id), st2) /\
    size (node_map_ st2) = size (node_map_ st1) /\
    (st = Sequencer_init ->
     id = 0 /\ alias_of id = "node0" /\ size (node_map_ st2) = 1%nat).
Proof.
  intros Hv [stub1 H1] [stub2 H2].
  exists (chosen_id DebugString st request). eexists. eexists.
  rewrite RegisterNode_valid by done. simpl. rewrite H1.
  split; [reflexivity|].
  rewrite RegisterNode_valid by done. simpl. rewrite H2.
  rewrite !chosen_id_recorded.
  split; [reflexivity|]. simpl. split.
  - eapply map_size_insert_Some. eexists. apply lookup_insert_eq.
  - intros ->. rewrite !chosen_id_init. split; [done|]. split; [done|].
    simpl. rewrite insert_insert_eq, insert_empty. apply map_size_singleton.
Qed.

(** A series of calls that all return OK keeps the invariant; the
    deduplication map ends up holding, for every call, the identifier that
    the call returned. *)
Lemma RegisterNodes_keeps_inv calls : forall st results st',
  Registry_inv st ->
  Z.of_nat (size (node_map_ st) + length calls) < 2 ^ 31 ->
  RegisterNodes DebugString st calls = (results, st') ->
  Forall (fun sr => code sr.1 = OK) results ->
  Registry_inv st' /\
  (forall k id, node_id_map_ st !! k = Some id -> node_id_map_ st' !! k = Some id) /\
  dom (node_id_map_ st')
    = dom (node_id_map_ st) ∪ list_to_set (DebugString <$> calls.*2) /\
  (forall i r c, calls.*2 !! i = Some r -> results.*2 !! i = Some c ->
     node_id_map_ st' !! DebugString r = Some (node_id c) /\
     node_alias c = alias_of (node_id c)).
Proof.
  induction calls as [|[NewStub r] calls IH]; intros st results st' Hinv Hsz Hrun Hok.
  - simpl in Hrun. injection Hrun as <- <-. split; [done|]. split; [done|].
    split; [simpl; by rewrite (right_id_L ∅ (∪))|].
    intros i r c Hr. simpl in Hr. done.
  - simpl in Hrun.
    destruct (RegisterNode DebugString NewStub st r NodeConfig_default)
      as [[s c] st1] eqn:Hcall.
    destruct (RegisterNodes DebugString st1 calls) as [rs st2] eqn:Hrest.
    injection Hrun as <- <-.
    apply Forall_cons in Hok as [Hok1 Hok]. simpl in Hok1.
    simpl length in Hsz.
    destruct (RegisterNode_keeps_inv _ _ _ _ _ _ _ Hinv ltac:(lia) Hcall Hok1)
      as (Hinv1 & Hc & Hmap & Hmono1 & Hsize1).
    destruct (IH st1 rs st2 Hinv1 ltac:(lia) Hrest Hok)
      as (Hinv2 & Hmono2 & Hdom & Hres).
    split; [done|]. split; [by eauto|]. split.
    + rewrite Hdom, Hmap, dom_insert_L. simpl.
      rewrite (comm_L (∪) {[DebugString r]} (dom (node_id_map_ st))).
      by rewrite (assoc_L (∪)).
    + intros [|i] r' c' Hr' Hc'; simpl in Hr', Hc'.
      * injection Hr' as <-. injection Hc' as <-. split.
        -- apply Hmono2. rewrite Hmap, Hc. simpl. apply lookup_insert_eq.
        -- by rewrite Hc.
      * by eapply Hres.
Qed.

(** C4: in a series of calls that starts on the empty registry and in
    which every call returns OK, two calls with different payloads get
    different ids and different aliases, two calls with the same payload
    get the same id and alias, and the node map has one entry for every
    different payload, no more.  The payloads are told apart by their
    DebugString texts, and there are fewer than 2^31 calls, so that the
    size of the node map fits an int. *)
Theorem RegisterNodes_distinct_payloads calls results st' :
  RegisterNodes DebugString Sequencer_init calls = (results, st') ->
  Forall (fun sr => code sr.1 = OK) results ->
  Z.of_nat (length calls) < 2 ^ 31 ->
  (forall r1 r2, r1 ∈ calls.*2 -> r2 ∈ calls.*2 ->
                 DebugString r1 = DebugString r2 -> r1 = r2) ->
  (forall i j ri rj ci cj,
      calls.*2 !! i = Some ri -> calls.*2 !! j = Some rj ->
      results.*2 !! i = Some ci -> results.*2 !! j = Some cj ->
      (ri <> rj -> node_id ci <> node_id cj /\ node_alias ci <> node_alias cj) /\
      (ri = rj -> ci = cj)) /\
  size (node_map_ st') = size (list_to_set (C := gset string) (DebugString <$> calls.*2)).
Proof.
  intros Hrun Hok Hlen Hinj.
  destruct (RegisterNodes_keeps_inv calls Sequencer_init results st'
              Registry_inv_init) as ((I1 & I2 & I3 & I4) & _ & Hdom & Hres);
    [simpl; rewrite map_size_empty; simpl; lia|done|done|].
  split.
  - intros i j ri rj ci cj Hri Hrj Hci Hcj.
    destruct (Hres i ri ci Hri Hci) as [Hi Hai].
    destruct (Hres j rj cj Hrj Hcj) as [Hj Haj].
    split.
    + intros Hne.
      assert (node_id ci <> node_id cj) as Hid.
      { intros Heq. rewrite Heq in Hi. apply Hne.
        apply Hinj; [by eapply list_elem_of_lookup_2..|]. by eapply I3. }
      split; [done|]. rewrite Hai, Haj. intros Heq. by apply alias_of_inj in Heq.
    + intros <-. rewrite Hi in Hj. injection Hj as Hid.
      destruct ci, cj. simpl in *. congruence.
  - rewrite <- I4, <- size_dom, Hdom. simpl. rewrite dom_empty_L.
    by rewrite (left_id_L ∅ (∪)).
Qed.
End RegisterNodeFacts.

(** C5 at the payload h1:7 on the empty registry. *)
Lemma RegisterNode_twice_witness :
  exists id st1 st2,
    RegisterNode (fun r => hostname r) stub_always Sequencer_init
      (mkNodeRegistration "h1" 7 []) NodeConfig_default
    = (Status_OK, mkNodeConfig id (alias_of id), st1) /\
    RegisterNode (fun r => hostname r) stub_always st1
      (mkNodeRegistration "h1" 7 []) NodeConfig_default
    = (Status_OK, mkNodeConfig id (alias_of id), st2) /\
    size (node_map_ st2) = size (node_map_ st1) /\
    (Sequencer_init = Sequencer_init ->
     id = 0 /\ alias_of id = "node0" /\ size (node_map_ st2) = 1%nat).
Proof.
  apply (RegisterNode_twice (fun r => hostname r) stub_always stub_always
           Sequencer_init (mkNodeRegistration "h1" 7 [])).
  - split; [done|simpl; lia].
  - simpl. eauto.
  - simpl. eauto.
Defined.

(** C4 on three calls, the third repeating the first. *)
Lemma RegisterNodes_distinct_payloads_witness :
  let DS := fun r => hostname r in
  let calls := [(stub_always, mkNodeRegistration "h1" 7 []);
                (stub_always, mkNodeRegistration "h2" 7 []);
                (stub_always, mkNodeRegistration "h1" 7 [])] in
  let results := (RegisterNodes DS Sequencer_init calls).1 in
  let st' := (RegisterNodes DS Sequencer_init calls).2 in
  (forall i j ri rj ci cj,
      calls.*2 !! i = Some ri -> calls.*2 !! j = Some rj ->
      results.*2 !! i = Some ci -> results.*2 !! j = Some cj ->
      (ri <> rj -> node_id ci <> node_id cj /\ node_alias ci <> node_alias cj) /\
      (ri = rj -> ci = cj)) /\
  size (node_map_ st') = size (list_to_set (C := gset string) (DS <$> calls.*2)).
Proof.
  intros DS calls results st'.
  apply (RegisterNodes_distinct_payloads DS calls results st').
  - subst results st'. by destruct (RegisterNodes DS Sequencer_init calls).
  - subst results calls DS. vm_compute. repeat constructor.
  - simpl. lia.
  - intros r1 r2 H1 H2 Heq. subst calls DS. simpl in *.
    rewrite !elem_of_cons in H1, H2. rewrite elem_of_nil in H1, H2.
    destruct H1 as [->|[->|[->|[]]]], H2 as [->|[->|[->|[]]]];
      simpl in Heq; done.
Defined.

(** ** Ordered containers *)

Lemma sorted_place_perm {A} (key : A -> string) x l :
  sorted_place key x l ≡ₚ x :: l.
Proof.
  induction l as [|y l IH]; simpl; [done|].
  destruct (String.ltb (key x) (key y)); [done|].
  rewrite IH. apply Permutation_swap.
Qed.

Lemma ltb_le x y : String.ltb x y = true -> String.le x y.
Proof.
  unfold String.le, String.ltb, String.leb.
  destruct (String.compare x y); done.
Qed.

Lemma not_ltb_le x y : String.ltb x y = false -> String.le y x.
Proof.
  unfold String.le, String.ltb, String.leb.
  rewrite (String.compare_antisym y x).
  destruct (String.compare x y); done.
Qed.

Lemma sorted_place_sorted x l :
  StronglySorted String.le l -> StronglySorted String.le (sorted_place id x l).
Proof.
  induction 1 as [|y l Hl IH Hy]; simpl.
  - repeat constructor.
  - destruct (String.ltb x y) eqn:E.
    + constructor; [by constructor|].
      apply ltb_le in E. constructor; [done|].
      eapply Forall_impl; [exact Hy|]. intros z Hz. simpl in *. by etrans.
    + constructor; [done|].
      apply not_ltb_le in E.
      rewrite (sorted_place_perm id x l). by constructor.
Qed.

Lemma elem_of_set_insert y x s : y ∈ set_insert x s <-> y = x \/ y ∈ s.
Proof.
  unfold set_insert. case_bool_decide as Hx.
  - split; [by right|]. by intros [->|].
  - rewrite sorted_place_perm. apply elem_of_cons.
Qed.

Lemma set_insert_NoDup x s : NoDup s -> NoDup (set_insert x s).
Proof.
  intros Hs. unfold set_insert. case_bool_decide as Hx; [done|].
  rewrite sorted_place_perm. by constructor.
Qed.

Lemma set_insert_sorted x s :
  StronglySorted String.le s -> StronglySorted String.le (set_insert x s).
Proof.
  intros Hs. unfold set_insert. case_bool_decide; [done|].
  by apply sorted_place_sorted.
Qed.

Lemma set_insert_fresh x s : x ∉ s -> set_insert x s ≡ₚ x :: s.
Proof.
  intros Hx. unfold set_insert. rewrite bool_decide_eq_false_2 by done.
  apply sorted_place_perm.
Qed.

Lemma set_erase_perm x s : x ∈ s -> s ≡ₚ x :: set_erase x s.
Proof.
  induction s as [|y s IH]; intros Hx; [by apply elem_of_nil in Hx|].
  simpl. case_bool_decide as E; [by subst|].
  apply elem_of_cons in Hx as [->|Hx]; [done|].
  rewrite (IH Hx) at 1. apply Permutation_swap.
Qed.

Lemma set_erase_sorted x s :
  StronglySorted String.le s -> StronglySorted String.le (set_erase x s).
Proof.
  induction 1 as [|y s Hs IH Hy]; simpl; [constructor|].
  case_bool_decide; [done|]. constructor; [done|].
  rewrite Forall_forall in *. intros z Hz. apply Hy.
  clear -Hz. induction s as [|w s IH]; simpl in *; [done|].
  case_bool_decide; [by right|].
  apply elem_of_cons in Hz as [->|Hz]; [left|right; auto].
Qed.

Lemma set_erase_NoDup x s : NoDup s -> x ∈ s -> NoDup (set_erase x s) /\ x ∉ set_erase x s.
Proof.
  intros Hs Hx. pose proof (set_erase_perm x s Hx) as Hp.
  rewrite Hp in Hs. by apply NoDup_cons in Hs as [? ?].
Qed.

Lemma elem_of_set_erase y x s :
  NoDup s -> x ∈ s -> (y ∈ set_erase x s <-> y ∈ s /\ y <> x).
Proof.
  intros Hs Hx. destruct (set_erase_NoDup x s Hs Hx) as [_ Hnot].
  rewrite (set_erase_perm x s Hx) at 2. rewrite elem_of_cons. split.
  - intros Hy. split; [by right|]. by intros ->.
  - intros [[->|Hy] Hne]; done.
Qed.

(** *** The map from aliases to sets of services *)

Lemma map_alter_keys f k (m : ServiceMap) : (map_alter f k m).*1 = m.*1.
Proof.
  induction m as [|[k' v] m IH]; csimpl; [done|].
  case_bool_decide; csimpl; [done|]. by rewrite IH.
Qed.

Lemma map_alter_id k (m : ServiceMap) : map_alter id k m = m.
Proof.
  induction m as [|[k' v] m IH]; csimpl; [done|].
  case_bool_decide; csimpl; [done|]. by rewrite IH.
Qed.

Lemma map_alter_insert_flat x k (m : ServiceMap) :
  k ∈ m.*1 -> x ∉ concat m.*2 ->
  concat (map_alter (set_insert x) k m).*2 ≡ₚ x :: concat m.*2.
Proof.
  induction m as [|[k' v] m IH]; csimpl; intros Hk Hx.
  - by apply elem_of_nil in Hk.
  - rewrite not_elem_of_app in Hx. destruct Hx as [Hxv Hxm].
    case_bool_decide as E; csimpl.
    + by rewrite (set_insert_fresh x v Hxv).
    + apply elem_of_cons in Hk as [->|Hk]; [done|].
      rewrite (IH Hk Hxm). by rewrite Permutation_middle.
Qed.

Lemma map_at_keys k f (m : ServiceMap) :
  (map_at k f m).*1 ≡ₚ (if bool_decide (k ∈ m.*1) then m.*1 else k :: m.*1).
Proof.
  unfold map_at. case_bool_decide.
  - by rewrite map_alter_keys.
  - by rewrite sorted_place_perm.
Qed.

Lemma elem_of_map_at_keys a k f (m : ServiceMap) :
  a ∈ (map_at k f m).*1 <-> a = k \/ a ∈ m.*1.
Proof.
  rewrite map_at_keys. case_bool_decide as E.
  - split; [by right|]. by intros [->|].
  - apply elem_of_cons.
Qed.

Lemma map_at_keys_NoDup k f (m : ServiceMap) : NoDup m.*1 -> NoDup (map_at k f m).*1.
Proof.
  intros Hm. rewrite map_at_keys. case_bool_decide; [done|]. by constructor.
Qed.

Lemma map_at_insert_flat x k (m : ServiceMap) :
  x ∉ concat m.*2 ->
  concat (map_at k (set_insert x) m).*2 ≡ₚ x :: concat m.*2.
Proof.
  intros Hx. unfold map_at. case_bool_decide.
  - by apply map_alter_insert_flat.
  - rewrite sorted_place_perm. done.
Qed.

Lemma map_at_id_flat k (m : ServiceMap) :
  concat (map_at k id m).*2 ≡ₚ concat m.*2.
Proof.
  unfold map_at. case_bool_decide.
  - by rewrite map_alter_id.
  - rewrite sorted_place_perm. done.
Qed.

(** ** Placement *)

Lemma fold_set_insert_spec {B} (g : B -> string) l : forall acc,
  let r := fold_left (fun acc y => set_insert (g y) acc) l acc in
  (NoDup acc -> NoDup r) /\
  (StronglySorted String.le acc -> StronglySorted String.le r) /\
  (forall x, x ∈ r <-> x ∈ acc \/ exists y, y ∈ l /\ x = g y).
Proof.
  induction l as [|y l IH]; intros acc; simpl.
  - split; [done|]. split; [done|]. intros x. split; [by left|].
    intros [?|(y & Hy & _)]; [done|]. by apply elem_of_nil in Hy.
  - destruct (IH (set_insert (g y) acc)) as (Hnd & Hso & Hel).
    split; [intros; by apply Hnd, set_insert_NoDup|].
    split; [intros; by apply Hso, set_insert_sorted|].
    intros x. rewrite Hel, elem_of_set_insert. split.
    + intros [[->|Hx]|(z & Hz & ->)].
      * right. exists y. split; [left|done].
      * by left.
      * right. exists z. split; [by right|done].
    + intros [Hx|(z & Hz & ->)]; [by left; right|].
      apply elem_of_cons in Hz as [->|Hz]; [by left; left|].
      right. by exists z.
Qed.

Lemma snapshot_nodes_spec (nm : gmap string Node) :
  NoDup (snapshot_nodes nm) /\
  StronglySorted String.le (snapshot_nodes nm) /\
  (forall a, a ∈ snapshot_nodes nm <-> is_Some (nm !! a)).
Proof.
  unfold snapshot_nodes.
  destruct (fold_set_insert_spec (B := string * Node) fst (map_to_list nm) [])
    as (Hnd & Hso & Hel).
  split; [apply Hnd; constructor|]. split; [apply Hso; constructor|].
  intros a. rewrite Hel. split.
  - intros [Ha|([k n] & Hin & ->)]; [by apply elem_of_nil in Ha|].
    apply elem_of_map_to_list in Hin. simpl. eauto.
  - intros [n Hn]. right. exists (a, n). split; [|done].
    by apply elem_of_map_to_list.
Qed.

(** The snapshot reads the keys of the node map and nothing else. *)
Lemma snapshot_nodes_fmap (f : Node -> Node) (nm : gmap string Node) :
  snapshot_nodes (f <$> nm) = snapshot_nodes nm.
Proof.
  unfold snapshot_nodes. rewrite map_to_list_fmap.
  generalize (@nil string).
  induction (map_to_list nm) as [|[k n] l IH]; intros acc; csimpl; [done|].
  apply IH.
Qed.

Lemma expand_services_spec svcs :
  NoDup (expand_services svcs) /\
  StronglySorted String.le (expand_services svcs) /\
  (forall x, x ∈ expand_services svcs <->
     exists sn i, sn ∈ svcs /\ 0 <= i < count sn /\
                  x = service_instance (server_type sn) i).
Proof.
  unfold expand_services.
  assert (H : forall acc,
    let r := fold_left
      (fun unplaced service_node =>
         fold_left (fun unplaced i =>
           set_insert (service_instance (server_type service_node) i) unplaced)
           (seqZ 0 (count service_node)) unplaced) svcs acc in
    (NoDup acc -> NoDup r) /\
    (StronglySorted String.le acc -> StronglySorted String.le r) /\
    (forall x, x ∈ r <-> x ∈ acc \/
       exists sn i, sn ∈ svcs /\ 0 <= i < count sn /\
                    x = service_instance (server_type sn) i)).
  { induction svcs as [|sn svcs IH]; intros acc; simpl.
    - split; [done|]. split; [done|]. intros x. split; [by left|].
      intros [?|(sn & i & Hsn & _)]; [done|]. by apply elem_of_nil in Hsn.
    - destruct (fold_set_insert_spec (service_instance (server_type sn))
                  (seqZ 0 (count sn)) acc) as (Hnd1 & Hso1 & Hel1).
      simpl in Hnd1, Hso1, Hel1.
      destruct (IH (fold_left (fun unplaced i =>
                      set_insert (service_instance (server_type sn) i) unplaced)
                      (seqZ 0 (count sn)) acc)) as (Hnd & Hso & Hel).
      split; [by auto|]. split; [by auto|].
      intros x. rewrite Hel, Hel1. split.
      + intros [[Hx|(i & Hi & ->)]|(sn' & i & Hsn' & Hi & ->)].
        * by left.
        * right. exists sn, i. apply elem_of_seqZ in Hi.
          split; [left|split; [lia|done]].
        * right. exists sn', i. split; [by right|done].
      + intros [Hx|(sn' & i & Hsn' & Hi & ->)]; [by left; left|].
        apply elem_of_cons in Hsn' as [->|Hsn'].
        * left. right. exists i. split; [|done]. apply elem_of_seqZ. lia.
        * right. by exists sn', i. }
  destruct (H []) as (Hnd & Hso & Hel).
  split; [apply Hnd; constructor|]. split; [apply Hso; constructor|].
  intros x. rewrite Hel. split; [|by right].
  intros [Hx|Hx]; [by apply elem_of_nil in Hx|done].
Qed.

Lemma service_instance_nonempty t i : service_instance t i <> "".
Proof. unfold service_instance. destruct t; discriminate. Qed.

Lemma place_bundle_services_spec alias bundle : forall unplaced nsm unplaced' nsm',
  place_bundle_services alias bundle unplaced nsm = inr (unplaced', nsm') ->
  NoDup (unplaced ++ concat nsm.*2) -> NoDup nsm.*1 ->
  unplaced' ++ concat nsm'.*2 ≡ₚ unplaced ++ concat nsm.*2 /\
  NoDup nsm'.*1 /\
  (forall a, a ∈ nsm'.*1 <-> a ∈ nsm.*1 \/ (a = alias /\ bundle <> [])) /\
  (StronglySorted String.le unplaced -> StronglySorted String.le unplaced').
Proof.
  induction bundle as [|service bundle IH]; intros unplaced nsm unplaced' nsm' Hrun Hnd Hk;
    simpl in Hrun.
  - injection Hrun as <- <-. split; [done|]. split; [done|]. split; [|done].
    intros a. split; [by left|]. by intros [?|[_ ?]].
  - case_bool_decide as Hin; [|done].
    pose proof (set_erase_perm service unplaced Hin) as Hperm.
    assert (Hfresh : service ∉ concat nsm.*2).
    { apply NoDup_app in Hnd as (_ & Hdisj & _). by apply Hdisj. }
    pose proof (map_at_insert_flat service alias nsm Hfresh) as Hflat.
    assert (Hstep : set_erase service unplaced
                    ++ concat (map_at alias (set_insert service) nsm).*2
                    ≡ₚ unplaced ++ concat nsm.*2).
    { rewrite Hflat. rewrite Hperm at 2. simpl. by rewrite Permutation_middle. }
    destruct (IH _ _ _ _ Hrun) as (Hp & Hk' & Hel & Hso).
    + by rewrite Hstep.
    + by apply map_at_keys_NoDup.
    + split; [by rewrite Hp|]. split; [done|]. split.
      * intros a. rewrite Hel, elem_of_map_at_keys. split.
        -- intros [[->|Ha]|[-> _]]; [by right|by left|by right].
        -- intros [Ha|[-> _]]; [by left; right|by left; left].
      * intros Hs. by apply Hso, set_erase_sorted.
Qed.

Lemma place_bundles_spec bundles : forall unplaced idle nsm unplaced' idle' nsm',
  place_bundles bundles unplaced idle nsm = inr (unplaced', idle', nsm') ->
  NoDup (unplaced ++ concat nsm.*2) -> NoDup nsm.*1 -> NoDup idle ->
  unplaced' ++ concat nsm'.*2 ≡ₚ unplaced ++ concat nsm.*2 /\
  NoDup nsm'.*1 /\ NoDup idle' /\
  (forall a, a ∈ nsm'.*1 <->
             a ∈ nsm.*1 \/ exists svcs, (a, svcs) ∈ bundles /\ svcs <> []) /\
  (forall a, a ∈ idle' <-> a ∈ idle /\ a ∉ bundles.*1) /\
  (StronglySorted String.le unplaced -> StronglySorted String.le unplaced') /\
  (StronglySorted String.le idle -> StronglySorted String.le idle') /\
  (forall a, a ∈ bundles.*1 -> a ∈ idle).
Proof.
  induction bundles as [|[alias bundle] bundles IH];
    intros unplaced idle nsm unplaced' idle' nsm' Hrun Hnd Hk Hi; simpl in Hrun.
  - injection Hrun as <- <- <-.
    split; [done|]. split; [done|]. split; [done|].
    split; [|split; [|split; [done|split; [done|]]]].
    + intros a. split; [by left|].
      intros [?|(svcs & Hin & _)]; [done|]. by apply elem_of_nil in Hin.
    + intros a. split; [|by intros [? _]].
      intros Ha. split; [done|]. csimpl. apply not_elem_of_nil.
    + intros a Ha. csimpl in Ha. by apply elem_of_nil in Ha.
  - destruct (place_bundle_services alias bundle unplaced nsm)
      as [e|[unplaced1 nsm1]] eqn:Hinner; [done|].
    case_bool_decide as Hal; [|done].
    destruct (place_bundle_services_spec _ _ _ _ _ _ Hinner Hnd Hk)
      as (Hp1 & Hk1 & Hel1 & Hso1).
    destruct (set_erase_NoDup alias idle Hi Hal) as [Hi1 _].
    destruct (IH _ _ _ _ _ _ Hrun) as (Hp & Hk' & Hi' & Hel & Hid & Hso & Hsi & Hsub);
      [by rewrite Hp1|done|done|].
    split; [by rewrite Hp|]. split; [done|]. split; [done|].
    split; [|split; [|split; [|split]]].
    + intros a. rewrite Hel, Hel1. split.
      * intros [[Ha|[-> Hne]]|(svcs & Hin & Hne)].
        -- by left.
        -- right. exists bundle. split; [left|done].
        -- right. exists svcs. split; [by right|done].
      * intros [Ha|(svcs & Hin & Hne)]; [by left; left|].
        apply elem_of_cons in Hin as [Heq|Hin].
        -- injection Heq as -> ->. left. by right.
        -- right. by exists svcs.
    + intros a. rewrite Hid. rewrite (elem_of_set_erase a alias idle Hi Hal).
      csimpl. rewrite not_elem_of_cons. tauto.
    + intros Hs. by apply Hso, Hso1.
    + intros Hs. by apply Hsi, set_erase_sorted.
    + intros a Ha. csimpl in Ha. apply elem_of_cons in Ha as [->|Ha]; [done|].
      apply Hsub in Ha. by apply (elem_of_set_erase a alias idle Hi Hal) in Ha as [? _].
Qed.

(** The loop over the unplaced services pairs the services with the idle
    nodes in order; the services beyond the last idle node go to
    [failures]. *)
Lemma auto_place_spec unplaced : forall idle nsm failures,
  NoDup (unplaced ++ concat nsm.*2) -> NoDup nsm.*1 ->
  exists nsm',
    fold_left auto_place_step unplaced (idle, nsm, failures)
    = (drop (length unplaced) idle, nsm',
       failures_append failures (drop (length idle) unplaced)) /\
    concat nsm'.*2 ≡ₚ take (length idle) unplaced ++ concat nsm.*2 /\
    NoDup nsm'.*1 /\
    (forall a, a ∈ nsm'.*1 <-> a ∈ nsm.*1 \/ a ∈ take (length unplaced) idle).
Proof.
  induction unplaced as [|service unplaced IH]; intros idle nsm failures Hnd Hk.
  - exists nsm. simpl. rewrite drop_0, drop_nil, take_nil. simpl.
    split; [done|]. split; [done|]. split; [done|].
    intros a. split; [by left|]. intros [?|Ha]; [done|].
    rewrite take_0 in Ha. by apply elem_of_nil in Ha.
  - destruct idle as [|it idle].
    + (* no idle node is left: the state stays, the names pile up *)
      change (fold_left auto_place_step (service :: unplaced) ([], nsm, failures))
        with (fold_left auto_place_step unplaced
                ([], nsm, (if bool_decide (failures = "") then failures
                           else failures +:+ ", ") +:+ service)).
      destruct (IH [] nsm
                  ((if bool_decide (failures = "") then failures
                    else failures +:+ ", ") +:+ service)) as (nsm' & Hrun & Hflat & Hk' & Hel).
      { simpl in Hnd. by apply NoDup_cons in Hnd as [_ ?]. }
      { done. }
      exists nsm'. rewrite Hrun.
      split; [rewrite !drop_nil; reflexivity|].
      split; [exact Hflat|]. split; [done|].
      intros a. rewrite Hel. rewrite !take_nil. done.
    + change (fold_left auto_place_step (service :: unplaced) (it :: idle, nsm, failures))
        with (fold_left auto_place_step unplaced
                (idle, map_at it (set_insert service) nsm, failures)).
      simpl in Hnd. apply NoDup_cons in Hnd as [Hfresh Hnd].
      rewrite not_elem_of_app in Hfresh. destruct Hfresh as [Hfu Hfn].
      pose proof (map_at_insert_flat service it nsm Hfn) as Hflat1.
      destruct (IH idle (map_at it (set_insert service) nsm) failures)
        as (nsm' & Hrun & Hflat & Hk' & Hel).
      { rewrite Hflat1. rewrite <- Permutation_middle. by constructor;
          [rewrite not_elem_of_app|]. }
      { by apply map_at_keys_NoDup. }
      exists nsm'. rewrite Hrun. simpl.
      split; [done|]. split; [|split; [done|]].
      * rewrite Hflat, Hflat1. by rewrite <- Permutation_middle.
      * intros a. rewrite Hel, elem_of_map_at_keys, elem_of_cons. tauto.
Qed.

Lemma string_app_nil_r (s : string) : s +:+ "" = s.
Proof.
  induction s as [|c s IH]; [done|].
  change (String c (s +:+ "") = String c s). by rewrite IH.
Qed.

Lemma string_app_assoc (s1 s2 s3 : string) : (s1 +:+ s2) +:+ s3 = s1 +:+ s2 +:+ s3.
Proof.
  induction s1 as [|c s1 IH]; [done|].
  change (String c ((s1 +:+ s2) +:+ s3) = String c (s1 +:+ s2 +:+ s3)).
  by rewrite IH.
Qed.

(** With names that are not empty, [failures] is the list of the names,
    joined by a comma and a blank. *)
Lemma failures_append_nonempty names : forall failures,
  failures <> "" ->
  failures_append failures names
  = failures +:+ foldr (fun s acc => ", " +:+ s +:+ acc) "" names.
Proof.
  induction names as [|s names IH]; intros failures Hne; simpl.
  - change (failures = failures +:+ ""). symmetry. apply string_app_nil_r.
  - unfold failures_append in *. simpl.
    rewrite bool_decide_eq_false_2 by done.
    rewrite IH.
    + by rewrite !string_app_assoc.
    + destruct failures; [done|]. discriminate.
Qed.

Lemma concat_as_foldr s names :
  String.concat ", " (s :: names)
  = s +:+ foldr (fun s acc => ", " +:+ s +:+ acc) "" names.
Proof.
  revert s. induction names as [|s' names IH]; intros s.
  - change (s = s +:+ ""). symmetry. apply string_app_nil_r.
  - change (String.concat ", " (s :: s' :: names))
      with (s +:+ ", " +:+ String.concat ", " (s' :: names)).
    by rewrite IH.
Qed.

Lemma failures_append_concat names :
  Forall (fun s => s <> "") names ->
  failures_append "" names = String.concat ", " names.
Proof.
  intros Hne. destruct names as [|s names]; [done|].
  apply Forall_cons in Hne as [Hs _].
  unfold failures_append. simpl fold_left.
  change (fold_left _ names ("" +:+ s)) with (failures_append s names).
  rewrite failures_append_nonempty by done. by rewrite concat_as_foldr.
Qed.

Lemma failures_append_empty names :
  Forall (fun s => s <> "") names ->
  failures_append "" names = "" -> names = [].
Proof.
  intros Hne. destruct names as [|s names]; [done|].
  apply Forall_cons in Hne as [Hs _].
  unfold failures_append. simpl fold_left.
  change (fold_left _ names ("" +:+ s)) with (failures_append s names).
  rewrite failures_append_nonempty by done.
  destruct s; [done|]. discriminate.
Qed.

Lemma fold_map_at_id_spec l : forall (m : ServiceMap),
  NoDup m.*1 ->
  let m' := fold_left (fun m idle_node => map_at idle_node id m) l m in
  concat m'.*2 ≡ₚ concat m.*2 /\ NoDup m'.*1 /\
  (forall a, a ∈ m'.*1 <-> a ∈ m.*1 \/ a ∈ l).
Proof.
  induction l as [|k l IH]; intros m Hm; simpl.
  - split; [done|]. split; [done|]. intros a. split; [by left|].
    intros [?|Ha]; [done|]. by apply elem_of_nil in Ha.
  - destruct (IH (map_at k id m)) as (Hflat & Hk & Hel).
    { by apply map_at_keys_NoDup. }
    split; [by rewrite Hflat, map_at_id_flat|]. split; [done|].
    intros a. rewrite Hel, elem_of_map_at_keys, elem_of_cons. tauto.
Qed.

Lemma elem_of_drop_elem_of {A} (x : A) n l : x ∈ drop n l -> x ∈ l.
Proof. intros Hx. rewrite <- (take_drop n l). apply elem_of_app. by right. Qed.

Lemma elem_of_flat (m : ServiceMap) a s x : (a, s) ∈ m -> x ∈ s -> x ∈ concat m.*2.
Proof.
  induction m as [|[k v] m IH]; csimpl; intros Hin Hx.
  - by apply elem_of_nil in Hin.
  - apply elem_of_app. apply elem_of_cons in Hin as [Heq|Hin].
    + injection Heq as -> ->. by left.
    + right. by apply IH.
Qed.

(** An element of the flattened map sits under one key only. *)
Lemma flat_NoDup_one_alias (m : ServiceMap) a1 s1 a2 s2 x :
  NoDup m.*1 -> NoDup (concat m.*2) ->
  (a1, s1) ∈ m -> (a2, s2) ∈ m -> x ∈ s1 -> x ∈ s2 -> a1 = a2.
Proof.
  induction m as [|[k v] m IH]; csimpl; intros Hk Hf H1 H2 Hx1 Hx2.
  - by apply elem_of_nil in H1.
  - apply NoDup_cons in Hk as [Hk Hks]. apply NoDup_app in Hf as (Hv & Hdisj & Hfm).
    assert (Hin : forall a s, (a, s) ∈ m -> x ∈ s -> x ∈ concat m.*2).
    { intros a s. apply elem_of_flat. }
    apply elem_of_cons in H1 as [H1|H1]; apply elem_of_cons in H2 as [H2|H2].
    + congruence.
    + injection H1 as -> ->. exfalso. eapply Hdisj; [exact Hx1|]. by eapply Hin.
    + injection H2 as -> ->. exfalso. eapply Hdisj; [exact Hx2|]. by eapply Hin.
    + by eapply IH.
Qed.

(** What a successful placement looks like, stage by stage. *)
Lemma place_services_inr nm test nsm :
  place_services nm test = inr nsm ->
  services test <> [] /\
  exists unplaced idle nsm1 nsm2,
    place_bundles (node_service_bundles test) (expand_services (services test))
                  (snapshot_nodes nm) [] = inr (unplaced, idle, nsm1) /\
    auto_place unplaced idle nsm1 = (drop (length unplaced) idle, nsm2, "") /\
    (length unplaced <= length idle)%nat /\
    nsm = fold_left (fun m idle_node => map_at idle_node id m)
                    (drop (length unplaced) idle) nsm2.
Proof.
  unfold place_services. intros Hrun.
  destruct (services test) as [|sn svcs] eqn:Hsv; [done|]. split; [done|].
  rewrite <- Hsv in *.
  destruct (place_bundles _ _ _ _) as [e|[[unplaced idle] nsm1]] eqn:Hb; [done|].
  destruct (expand_services_spec (services test)) as (Hnd & Hso & Hel).
  destruct (snapshot_nodes_spec nm) as (Hind & Hiso & Hiel).
  destruct (place_bundles_spec _ _ _ _ _ _ _ Hb) as (Hp & Hk & Hi & _);
    [by rewrite app_nil_r|constructor|done|]. csimpl in Hp. rewrite app_nil_r in Hp.
  destruct (auto_place_spec unplaced idle nsm1 "") as (nsm2 & Hauto & _);
    [by rewrite Hp|done|].
  unfold auto_place in *. rewrite Hauto in Hrun.
  case_bool_decide as Hf; [|done]. injection Hrun as <-.
  assert (Hne : Forall (fun s => s <> "") (drop (length idle) unplaced)).
  { apply Forall_forall. intros x Hx.
    assert (x ∈ expand_services (services test)) as Hx'.
    { rewrite <- Hp. apply elem_of_app. left. by eapply elem_of_drop_elem_of. }
    apply Hel in Hx' as (sn' & i & _ & _ & ->). apply service_instance_nonempty. }
  pose proof (failures_append_empty _ Hne Hf) as Hdrop.
  apply drop_nil_inv in Hdrop.
  exists unplaced, idle, nsm1, nsm2. rewrite Hauto, Hf. done.
Qed.

(** A successful placement: its services and its keys. *)
Lemma place_services_spec nm test nsm :
  place_services nm test = inr nsm ->
  concat nsm.*2 ≡ₚ expand_services (services test) /\
  NoDup (concat nsm.*2) /\
  NoDup nsm.*1 /\
  (forall x, x ∈ concat nsm.*2 <->
     exists sn i, sn ∈ services test /\ 0 <= i < count sn /\
                  x = service_instance (server_type sn) i) /\
  (forall a1 s1 a2 s2 x,
     (a1, s1) ∈ nsm -> (a2, s2) ∈ nsm -> x ∈ s1 -> x ∈ s2 -> a1 = a2) /\
  (forall a, a ∈ nsm.*1 <->
     (is_Some (nm !! a) /\ a ∉ (node_service_bundles test).*1) \/
     (exists svcs, (a, svcs) ∈ node_service_bundles test /\ svcs <> [])).
Proof.
  intros Hrun.
  destruct (place_services_inr _ _ _ Hrun)
    as (_ & unplaced & idle & nsm1 & nsm2 & Hb & Hauto & Hlen & ->).
  destruct (expand_services_spec (services test)) as (Hnd & Hso & Hel).
  destruct (snapshot_nodes_spec nm) as (Hind & Hiso & Hiel).
  destruct (place_bundles_spec _ _ _ _ _ _ _ Hb) as (Hp & Hk & Hi & Hkeys & Hidle & _);
    [by rewrite app_nil_r|constructor|done|]. csimpl in Hp. rewrite app_nil_r in Hp.
  destruct (auto_place_spec unplaced idle nsm1 "") as (nsm2' & Hauto' & Hflat2 & Hk2 & Hkeys2);
    [by rewrite Hp|done|].
  unfold auto_place in Hauto. rewrite Hauto in Hauto'. injection Hauto' as <- _.
  rewrite take_ge in Hflat2 by done.
  destruct (fold_map_at_id_spec (drop (length unplaced) idle) nsm2 Hk2)
    as (Hflat3 & Hk3 & Hkeys3). simpl in Hflat3, Hk3, Hkeys3.
  assert (Hflat : concat (fold_left (fun m idle_node => map_at idle_node id m)
                            (drop (length unplaced) idle) nsm2).*2
                  ≡ₚ expand_services (services test)).
  { by rewrite Hflat3, Hflat2. }
  split; [done|]. split; [by rewrite Hflat|]. split; [done|].
  split; [intros x; by rewrite Hflat|]. split.
  - intros a1 s1 a2 s2 x. apply flat_NoDup_one_alias; [done|by rewrite Hflat].
  - intros a. rewrite Hkeys3, Hkeys2, Hkeys.
    assert (Ha : a ∈ take (length unplaced) idle \/ a ∈ drop (length unplaced) idle
                 <-> a ∈ idle).
    { rewrite <- elem_of_app. by rewrite take_drop. }
    rewrite <- Hiel. rewrite <- Hidle. rewrite <- Ha.
    rewrite elem_of_nil. tauto.
Qed.

(** C6, as the code has it: when the placement succeeds, the sets under
    the aliases hold, together, exactly the requested service instances
    (the names server_type/i for i below count), every instance once, so no
    instance is under two aliases; and the keys of the placement are the
    registered aliases that no bundle names, together with the aliases of
    the bundles that name one service at least. *)
Theorem place_services_partition nm test nsm :
  place_services nm test = inr nsm ->
  concat nsm.*2 ≡ₚ expand_services (services test) /\
  NoDup (concat nsm.*2) /\
  NoDup nsm.*1 /\
  (forall x, x ∈ concat nsm.*2 <->
     exists sn i, sn ∈ services test /\ 0 <= i < count sn /\
                  x = service_instance (server_type sn) i) /\
  (forall a1 s1 a2 s2 x,
     (a1, s1) ∈ nsm -> (a2, s2) ∈ nsm -> x ∈ s1 -> x ∈ s2 -> a1 = a2) /\
  (forall a, a ∈ nsm.*1 <->
     (is_Some (nm !! a) /\ a ∉ (node_service_bundles test).*1) \/
     (exists svcs, (a, svcs) ∈ node_service_bundles test /\ svcs <> [])).
Proof. apply place_services_spec. Qed.

(** The aliases of a placement are registered: the QCHECKs of the phases
    hold. *)
Lemma place_services_known nm test nsm :
  place_services nm test = inr nsm -> known_aliases nm nsm.
Proof.
  intros Hrun a Ha.
  destruct (place_services_spec _ _ _ Hrun) as (_ & _ & _ & _ & _ & Hkeys).
  apply Hkeys in Ha as [[Ha _]|(svcs & Hin & _)]; [done|].
  destruct (place_services_inr _ _ _ Hrun) as (_ & unplaced & idle & nsm1 & nsm2 & Hb & _).
  destruct (expand_services_spec (services test)) as (Hnd & _).
  destruct (snapshot_nodes_spec nm) as (Hind & _ & Hiel).
  destruct (place_bundles_spec _ _ _ _ _ _ _ Hb) as (_ & _ & _ & _ & _ & _ & _ & Hsub);
    [by rewrite app_nil_r|constructor|done|].
  apply Hiel, Hsub. apply list_elem_of_fmap. by exists (a, svcs).
Qed.

(** C6, as stated, fails: the alias of a bundle that names no service is
    taken out of the idle nodes and gets no entry.  With node0 and node1
    registered, one service A/0 requested and the bundle of node1 empty, the
    placement is node0 -> {A/0}, and node1 is not a key of it. *)
Lemma placement_omits_alias_of_empty_bundle :
  ~ (forall nm test nsm,
       place_services nm test = inr nsm ->
       (concat nsm.*2 ≡ₚ expand_services (services test) /\ NoDup (concat nsm.*2)) /\
       (forall a, a ∈ (node_service_bundles test).*1 \/ is_Some (nm !! a) ->
                  a ∈ nsm.*1)).
Proof.
  intros H.
  destruct (H example_two_nodes
              (mkDescription [mkServiceSpec "A" 1] [("node1", [])])
              [("node0", ["A/0"])]) as [_ Hkeys].
  - vm_compute. reflexivity.
  - specialize (Hkeys "node1"). csimpl in Hkeys.
    assert (Hin : "node1" ∈ ["node0"]) by (apply Hkeys; left; left).
    apply list_elem_of_singleton in Hin. discriminate.
Qed.

(** C6 on two instances of A, one of them pinned to node1 by a bundle. *)
Lemma place_services_partition_witness :
  let test := mkDescription [mkServiceSpec "A" 2] [("node1", ["A/1"])] in
  let nsm := [("node0", ["A/0"]); ("node1", ["A/1"])] in
  concat nsm.*2 ≡ₚ expand_services (services test) /\
  NoDup (concat nsm.*2) /\
  NoDup nsm.*1 /\
  (forall x, x ∈ concat nsm.*2 <->
     exists sn i, sn ∈ services test /\ 0 <= i < count sn /\
                  x = service_instance (server_type sn) i) /\
  (forall a1 s1 a2 s2 x,
     (a1, s1) ∈ nsm -> (a2, s2) ∈ nsm -> x ∈ s1 -> x ∈ s2 -> a1 = a2) /\
  (forall a, a ∈ nsm.*1 <->
     (is_Some (example_two_nodes !! a) /\ a ∉ (node_service_bundles test).*1) \/
     (exists svcs, (a, svcs) ∈ node_service_bundles test /\ svcs <> [])).
Proof.
  intros test nsm.
  apply (place_services_partition example_two_nodes test nsm).
  vm_compute. reflexivity.
Defined.

(** ** The failure of the automatic placement *)

Lemma place_services_unfold nm test :
  services test <> [] ->
  place_services nm test =
  match place_bundles (node_service_bundles test) (expand_services (services test))
                      (snapshot_nodes nm) [] with
  | inl e => inl e
  | inr (unplaced_services, idle_nodes, node_service_map) =>
      let '(idle_nodes, node_service_map, failures) :=
        auto_place unplaced_services idle_nodes node_service_map in
      if bool_decide (failures = "")
      then inr (fold_left (fun m idle_node => map_at idle_node id m)
                          idle_nodes node_service_map)
      else inl (NotFoundError
                  ("No idle node for placement of services: " +:+ failures))
  end.
Proof. intros Hsv. unfold place_services. by destruct (services test). Qed.

(** C7: when the bundles have been consumed and more services are left
    than idle nodes, DoRunTest fails with NOT_FOUND, and its message is the
    fixed text followed by the names of the services that the loop could not
    place, joined by a comma and a blank.  These are the names of the set of
    unplaced services beyond its first [length idle] ones, in the increasing
    order of the set; the loop has placed the other names, and no phase is
    run. *)
Theorem DoRunTest_not_enough_nodes nm test env unplaced idle nsm :
  services test <> [] ->
  place_bundles (node_service_bundles test) (expand_services (services test))
                (snapshot_nodes nm) [] = inr (unplaced, idle, nsm) ->
  (length idle < length unplaced)%nat ->
  DoRunTest nm test env
  = Some (inl (NotFoundError
                 ("No idle node for placement of services: "
                  +:+ String.concat ", " (drop (length idle) unplaced))),
          nm, []) /\
  StronglySorted String.le (drop (length idle) unplaced) /\
  NoDup (drop (length idle) unplaced) /\
  exists nsm',
    auto_place unplaced idle nsm
    = ([], nsm', String.concat ", " (drop (length idle) unplaced)) /\
    concat nsm'.*2 ≡ₚ take (length idle) unplaced ++ concat nsm.*2.
Proof.
  intros Hsv Hb Hlen.
  destruct (expand_services_spec (services test)) as (Hnd & Hso & Hel).
  destruct (snapshot_nodes_spec nm) as (Hind & Hiso & Hiel).
  destruct (place_bundles_spec _ _ _ _ _ _ _ Hb) as (Hp & Hk & Hi & _ & _ & Hsu & _);
    [by rewrite app_nil_r|constructor|done|]. csimpl in Hp. rewrite app_nil_r in Hp.
  specialize (Hsu Hso).
  assert (Hndu : NoDup unplaced).
  { assert (Hall : NoDup (unplaced ++ concat nsm.*2)) by (by rewrite Hp).
    by apply NoDup_app in Hall as (? & _ & _). }
  destruct (auto_place_spec unplaced idle nsm "") as (nsm' & Hauto & Hflat & _);
    [by rewrite Hp|done|].
  assert (Hne : Forall (fun s => s <> "") (drop (length idle) unplaced)).
  { apply Forall_forall. intros x Hx.
    assert (x ∈ expand_services (services test)) as Hx'.
    { rewrite <- Hp. apply elem_of_app. left. by eapply elem_of_drop_elem_of. }
    apply Hel in Hx' as (sn' & i & _ & _ & ->). apply service_instance_nonempty. }
  rewrite (failures_append_concat _ Hne) in Hauto.
  rewrite drop_ge in Hauto by lia.
  assert (Hmsg : String.concat ", " (drop (length idle) unplaced) <> "").
  { destruct (drop (length idle) unplaced) as [|s l] eqn:Hd.
    - apply drop_nil_inv in Hd. lia.
    - apply Forall_cons in Hne as [Hs _]. rewrite concat_as_foldr.
      destruct s; [done|]. discriminate. }
  split; [|split; [|split]].
  - unfold DoRunTest. rewrite place_services_unfold by done.
    rewrite Hb. unfold auto_place in *. rewrite Hauto.
    by rewrite bool_decide_eq_false_2.
  - rewrite <- (take_drop (length idle) unplaced) in Hsu.
    by apply StronglySorted_app_1_r in Hsu.
  - rewrite <- (take_drop (length idle) unplaced) in Hndu.
    by apply NoDup_app in Hndu as (_ & _ & ?).
  - exists nsm'. done.
Qed.

(** C7 on the example of the claim: two registered nodes and three
    instances of A; the message lists A/2 and nothing else. *)
Lemma DoRunTest_not_enough_nodes_witness :
  let test := mkDescription [mkServiceSpec "A" 3] [] in
  let env := mkTestEnv [] [] [] in
  DoRunTest example_two_nodes test env
  = Some (inl (NotFoundError "No idle node for placement of services: A/2"),
          example_two_nodes, []) /\
  StronglySorted String.le ["A/2"] /\
  NoDup ["A/2"] /\
  exists nsm',
    auto_place ["A/0"; "A/1"; "A/2"] ["node0"; "node1"] [] = ([], nsm', "A/2") /\
    concat nsm'.*2 ≡ₚ ["A/0"; "A/1"] ++ [].
Proof.
  intros test env.
  apply (DoRunTest_not_enough_nodes example_two_nodes test env
           ["A/0"; "A/1"; "A/2"] ["node0"; "node1"] []).
  - done.
  - vm_compute. reflexivity.
  - simpl. lia.
Defined.

(** ** The candidate pool *)

(** C10: the candidate pool of DoRunTest is the set of the registered
    aliases: an alias is in the snapshot exactly when the node map has an
    entry for it.  No idle flag is read: rewriting the idle flags of the
    node map in any way changes neither the snapshot nor the outcome of the
    placement.  In particular a node whose flag is false is chosen: with
    the single node node0 busy, one instance of A goes to node0. *)
Theorem placement_ignores_idle_flags :
  (forall nm a, a ∈ snapshot_nodes nm <-> is_Some (nm !! a)) /\
  (forall (flag : Node -> bool) nm test,
      let nm' := (fun n => set_idle (flag n) n) <$> nm in
      snapshot_nodes nm' = snapshot_nodes nm /\
      place_services nm' test = place_services nm test) /\
  (idle <$> (example_busy_node !! "node0") = Some false /\
   place_services example_busy_node (mkDescription [mkServiceSpec "A" 1] [])
   = inr [("node0", ["A/0"])]).
Proof.
  split; [|split].
  - intros nm a. apply snapshot_nodes_spec.
  - intros flag nm test nm'. subst nm'.
    split; [apply snapshot_nodes_fmap|].
    unfold place_services. by rewrite snapshot_nodes_fmap.
  - split; vm_compute; reflexivity.
Qed.

(** ** Completion queues *)

Lemma drain_complete {R S} (finish : CqEvent R -> S -> option S) cq : forall s s',
  finish_all finish (finished cq) s = Some s' ->
  exists rest,
    drain finish cq (length (finished cq)) s = Some (s', rest) /\ finished rest = [].
Proof.
  unfold finished.
  induction cq as [|ev cq IH]; intros s s' Hall.
  - simpl in *. injection Hall as <-. by exists [].
  - rewrite filter_cons in *. destruct (decide (ev_ok ev = true)) as [Hok|Hok].
    + simpl in Hall. simpl. rewrite Hok.
      destruct (finish ev s) as [s1|]; [|done]. by apply IH.
    + destruct (IH s s' Hall) as (rest & Hd & Hr).
      destruct (filter (fun ev => ev_ok ev = true) cq) as [|e l] eqn:Hf.
      * simpl in Hall. injection Hall as <-. exists (ev :: cq). simpl.
        split; [done|]. rewrite filter_cons, Hf. by rewrite decide_False.
      * apply not_true_is_false in Hok. simpl length in *. simpl.
        rewrite Hok. by exists rest.
Qed.

Lemma complete_queue_length {R} n (cq : list (CqEvent R)) :
  complete_queue n cq -> length (finished cq) = n.
Proof.
  intros H. apply Permutation_length in H.
  by rewrite length_fmap, length_seq in H.
Qed.

Lemma complete_queue_tag {R} n (cq : list (CqEvent R)) ev :
  complete_queue n cq -> ev ∈ finished cq -> (ev_tag ev < n)%nat.
Proof.
  intros H Hev.
  assert (ev_tag ev ∈ seq 0 n) as Hin.
  { rewrite <- H. apply list_elem_of_fmap. by exists ev. }
  apply elem_of_seq in Hin. lia.
Qed.

Lemma omap_fmap_comp {A B C} (g : A -> B) (f : B -> option C) (l : list A) :
  omap f (g <$> l) = omap (fun x => f (g x)) l.
Proof. induction l as [|x l IH]; [done|]. csimpl. by rewrite IH. Qed.

Lemma omap_lookup_seq {A} (l : list A) :
  omap (fun i => l !! i) (seq 0 (length l)) = l.
Proof.
  induction l as [|x l IH]; [done|].
  simpl length. rewrite <- cons_seq. csimpl. f_equal.
  rewrite <- fmap_S_seq. rewrite omap_fmap_comp. exact IH.
Qed.

(** The aliases of the completions are the aliases of the RPCs: each RPC
    finishes once. *)
Lemma complete_queue_aliases {R} (keys : list string) (cq : list (CqEvent R)) :
  complete_queue (length keys) cq ->
  omap (fun ev => keys !! ev_tag ev) (finished cq) ≡ₚ keys.
Proof.
  intros H. unfold complete_queue in H.
  transitivity (omap (fun i => keys !! i) (seq 0 (length keys)));
    [|by rewrite omap_lookup_seq].
  rewrite <- H. by rewrite omap_fmap_comp.
Qed.

Lemma ok_retain status finished : ok (retain status finished) = ok status && ok finished.
Proof. unfold retain. destruct (ok finished) eqn:E; [by rewrite andb_true_r|]. by rewrite E, andb_false_r. Qed.

Lemma ok_fold_retain statuses : forall status,
  ok (fold_left retain statuses status) = ok status && forallb ok statuses.
Proof.
  induction statuses as [|st statuses IH]; intros status; simpl.
  - by rewrite andb_true_r.
  - rewrite IH, ok_retain. by rewrite andb_assoc.
Qed.

Lemma ok_last_failure statuses : ok (last_failure statuses) = forallb ok statuses.
Proof. unfold last_failure. by rewrite ok_fold_retain. Qed.

Lemma issued_to_app k t1 t2 : issued_to k (t1 ++ t2) = issued_to k t1 ++ issued_to k t2.
Proof. unfold issued_to. apply omap_app. Qed.

Lemma finished_of_app k t1 t2 : finished_of k (t1 ++ t2) = finished_of k t1 ++ finished_of k t2.
Proof. unfold finished_of. apply omap_app. Qed.

Lemma issued_to_issues {A} k k' (f : A -> string) (l : list A) :
  issued_to k (map (fun p => EvIssue k' (f p)) l)
  = if decide (k' = k) then f <$> l else [].
Proof.
  unfold issued_to. induction l as [|p l IH]; csimpl.
  - by destruct (decide (k' = k)).
  - rewrite IH. by destruct (decide (k' = k)).
Qed.

Lemma finished_of_issues {A} k k' (f : A -> string) (l : list A) :
  finished_of k (map (fun p => EvIssue k' (f p)) l) = [].
Proof. unfold finished_of. induction l as [|p l IH]; csimpl; done. Qed.

(** ** ConfigureNodes *)

Lemma ConfigureNodes_issue_known nm test nsm :
  known_aliases nm nsm ->
  exists pending,
    ConfigureNodes_issue nm test nsm = Some pending /\ pending.*1 = nsm.*1.
Proof.
  unfold known_aliases.
  induction nsm as [|[alias svcs] nsm IH]; intros Hk; simpl.
  - by exists [].
  - destruct (Hk alias) as [node Hnode]; [left|]. rewrite Hnode.
    destruct IH as (pending & -> & Hp).
    { intros a Ha. apply Hk. by right. }
    eexists. split; [done|]. csimpl. by rewrite Hp.
Qed.

Lemma ConfigureNodes_finish_all pending evs : forall status ret trace,
  Forall (fun ev => (ev_tag ev < length pending)%nat) evs ->
  exists trace',
    finish_all (ConfigureNodes_finish pending) evs (status, ret, trace)
    = Some (fold_left retain (ev_status <$> evs) status,
            fold_left MergeFrom (ev_response <$> evs) ret,
            trace ++ trace') /\
    finished_of ConfigureNodeRpc trace' = omap (fun ev => pending.*1 !! ev_tag ev) evs /\
    (forall k, issued_to k trace' = []) /\
    (forall k, k <> ConfigureNodeRpc -> finished_of k trace' = []).
Proof.
  induction evs as [|ev evs IH]; intros status ret trace Htags.
  - exists []. simpl. by rewrite app_nil_r.
  - apply Forall_cons in Htags as [Htag Htags].
    destruct (lookup_lt_is_Some_2 pending (ev_tag ev) Htag) as [[alias req] Hp].
    simpl. rewrite Hp.
    destruct (IH (retain status (ev_status ev)) (MergeFrom ret (ev_response ev))
                 (trace ++ [EvFinish ConfigureNodeRpc alias (ev_status ev)]) Htags)
      as (trace' & -> & Hfin & Hiss & Hoth).
    exists (EvFinish ConfigureNodeRpc alias (ev_status ev) :: trace').
    split; [by rewrite <- app_assoc|]. split; [|split].
    + unfold finished_of in *. csimpl. rewrite list_lookup_fmap, Hp. csimpl.
      by rewrite Hfin.
    + intros k. unfold issued_to in *. csimpl. apply Hiss.
    + intros k Hk. unfold finished_of in *. csimpl.
      rewrite decide_False by done. by apply Hoth.
Qed.

(** ConfigureNodes on a placement whose aliases are registered and a queue
    that delivers every completion. *)
Lemma ConfigureNodes_loop_complete nm nsm test cq :
  known_aliases nm nsm ->
  complete_queue (length nsm) cq ->
  exists trace rest,
    ConfigureNodes_loop nm nsm test cq
    = Some (last_failure (ev_status <$> finished cq),
            merged (ev_response <$> finished cq), trace, rest) /\
    finished rest = [] /\
    issued_to ConfigureNodeRpc trace = nsm.*1 /\
    finished_of ConfigureNodeRpc trace ≡ₚ nsm.*1 /\
    (forall k, k <> ConfigureNodeRpc -> issued_to k trace = [] /\ finished_of k trace = []).
Proof.
  intros Hk Hcq. unfold ConfigureNodes_loop.
  destruct (ConfigureNodes_issue_known nm test nsm Hk) as (pending & -> & Hp).
  assert (Hlen : length pending = length nsm).
  { by rewrite <- (length_fmap fst pending), Hp, length_fmap. }
  destruct (ConfigureNodes_finish_all pending (finished cq) Status_OK ∅
              (map (fun p => EvIssue ConfigureNodeRpc p.1) pending))
    as (trace' & Hall & Hfin & Hiss & Hoth).
  { apply Forall_forall. intros ev Hev. rewrite Hlen.
    by eapply complete_queue_tag. }
  destruct (drain_complete _ cq _ _ Hall) as (rest & Hd & Hrest).
  rewrite (complete_queue_length _ _ Hcq) in Hd. rewrite Hlen, Hd.
  eexists _, rest. split; [reflexivity|]. split; [done|].
  rewrite !issued_to_app, !finished_of_app, Hiss, Hfin, app_nil_r.
  rewrite issued_to_issues, finished_of_issues, decide_True by done.
  split; [done|]. split.
  - simpl. rewrite Hp. apply complete_queue_aliases. by rewrite length_fmap.
  - intros k Hne. rewrite issued_to_app, finished_of_app, Hiss, (Hoth k Hne).
    rewrite issued_to_issues, finished_of_issues. by rewrite decide_False.
Qed.

(** ** IntroducePeers *)

Lemma IntroducePeers_issue_known nm service_map nsm :
  known_aliases nm nsm ->
  exists pending,
    IntroducePeers_issue nm service_map nsm = Some pending /\ pending.*1 = nsm.*1.
Proof.
  unfold known_aliases.
  induction nsm as [|[alias svcs] nsm IH]; intros Hk; simpl.
  - by exists [].
  - destruct (Hk alias) as [node Hnode]; [left|]. rewrite Hnode.
    destruct IH as (pending & -> & Hp).
    { intros a Ha. apply Hk. by right. }
    eexists. split; [done|]. csimpl. by rewrite Hp.
Qed.

Lemma IntroducePeers_finish_all pending evs : forall status trace,
  Forall (fun ev => (ev_tag ev < length pending)%nat) evs ->
  exists trace',
    finish_all (IntroducePeers_finish pending) evs (status, trace)
    = Some (fold_left retain (ev_status <$> evs) status, trace ++ trace') /\
    finished_of IntroducePeersRpc trace' = omap (fun ev => pending.*1 !! ev_tag ev) evs /\
    (forall k, issued_to k trace' = []) /\
    (forall k, k <> IntroducePeersRpc -> finished_of k trace' = []).
Proof.
  induction evs as [|ev evs IH]; intros status trace Htags.
  - exists []. simpl. by rewrite app_nil_r.
  - apply Forall_cons in Htags as [Htag Htags].
    destruct (lookup_lt_is_Some_2 pending (ev_tag ev) Htag) as [[alias req] Hp].
    simpl. rewrite Hp.
    destruct (IH (retain status (ev_status ev))
                 (trace ++ [EvFinish IntroducePeersRpc alias (ev_status ev)]) Htags)
      as (trace' & -> & Hfin & Hiss & Hoth).
    exists (EvFinish IntroducePeersRpc alias (ev_status ev) :: trace').
    split; [by rewrite <- app_assoc|]. split; [|split].
    + unfold finished_of in *. csimpl. rewrite list_lookup_fmap, Hp. csimpl.
      by rewrite Hfin.
    + intros k. unfold issued_to in *. csimpl. apply Hiss.
    + intros k Hk. unfold finished_of in *. csimpl.
      rewrite decide_False by done. by apply Hoth.
Qed.

Lemma IntroducePeers_loop_complete nm nsm service_map cq :
  known_aliases nm nsm ->
  complete_queue (length nsm) cq ->
  exists trace rest,
    IntroducePeers_loop nm nsm service_map cq
    = Some (last_failure (ev_status <$> finished cq), trace, rest) /\
    finished rest = [] /\
    issued_to IntroducePeersRpc trace = nsm.*1 /\
    finished_of IntroducePeersRpc trace ≡ₚ nsm.*1 /\
    (forall k, k <> IntroducePeersRpc -> issued_to k trace = [] /\ finished_of k trace = []).
Proof.
  intros Hk Hcq. unfold IntroducePeers_loop.
  destruct (IntroducePeers_issue_known nm service_map nsm Hk) as (pending & -> & Hp).
  assert (Hlen : length pending = length nsm).
  { by rewrite <- (length_fmap fst pending), Hp, length_fmap. }
  destruct (IntroducePeers_finish_all pending (finished cq) Status_OK
              (map (fun p => EvIssue IntroducePeersRpc p.1) pending))
    as (trace' & Hall & Hfin & Hiss & Hoth).
  { apply Forall_forall. intros ev Hev. rewrite Hlen.
    by eapply complete_queue_tag. }
  destruct (drain_complete _ cq _ _ Hall) as (rest & Hd & Hrest).
  rewrite (complete_queue_length _ _ Hcq) in Hd. rewrite Hlen, Hd.
  eexists _, rest. split; [reflexivity|]. split; [done|].
  rewrite !issued_to_app, !finished_of_app, Hiss, Hfin, app_nil_r.
  rewrite issued_to_issues, finished_of_issues, decide_True by done.
  split; [done|]. split.
  - simpl. rewrite Hp. apply complete_queue_aliases. by rewrite length_fmap.
  - intros k Hne. rewrite issued_to_app, finished_of_app, Hiss, (Hoth k Hne).
    rewrite issued_to_issues, finished_of_issues. by rewrite decide_False.
Qed.

(** ** RunTraffic *)

(** The events of the issuing loop and of the completions. *)
Lemma RunTraffic_issue_known nsm : forall nm trace,
  known_aliases nm nsm ->
  exists nm1,
    RunTraffic_issue nm nsm trace
    = Some (nm1, nsm.*1,
            trace ++ concat ((fun a => [EvIdle a false; EvIssue RunTrafficRpc a])
                             <$> nsm.*1)) /\
    (forall a, a ∈ nsm.*1 -> idle <$> nm1 !! a = Some false) /\
    (forall a, a ∉ nsm.*1 -> nm1 !! a = nm !! a) /\
    (forall a, is_Some (nm1 !! a) <-> is_Some (nm !! a)).
Proof.
  induction nsm as [|[alias svcs] nsm IH]; intros nm trace Hk; simpl.
  - exists nm. rewrite app_nil_r. split; [done|]. split; [|done].
    intros a Ha. by apply elem_of_nil in Ha.
  - destruct (Hk alias) as [node Hnode]; [left|]. rewrite Hnode.
    destruct (IH (<[alias := set_idle false node]> nm)
                 (trace ++ [EvIdle alias false; EvIssue RunTrafficRpc alias]))
      as (nm1 & -> & Hin & Hout & Hdom).
    { intros a Ha. destruct (decide (a = alias)) as [->|Hne].
      - rewrite lookup_insert_eq. eauto.
      - rewrite lookup_insert_ne by done. apply Hk. by right. }
    exists nm1. split; [csimpl; by rewrite <- app_assoc|]. csimpl. split; [|split].
    + intros a Ha. destruct (decide (a ∈ nsm.*1)) as [Hin'|Hnin]; [by apply Hin|].
      apply elem_of_cons in Ha as [->|Ha]; [|done].
      rewrite (Hout alias Hnin), lookup_insert_eq. done.
    + intros a Ha. apply not_elem_of_cons in Ha as [Hne Ha].
      rewrite (Hout a Ha). by rewrite lookup_insert_ne.
    + intros a. rewrite Hdom. destruct (decide (a = alias)) as [->|Hne].
      * rewrite lookup_insert_eq. split; eauto.
      * by rewrite lookup_insert_ne.
Qed.

Lemma RunTraffic_finish_all (pending : list string) evs : forall status ret nm trace,
  Forall (fun ev => (ev_tag ev < length pending)%nat) evs ->
  exists nm',
    finish_all (RunTraffic_finish pending) evs (status, ret, nm, trace)
    = Some (fold_left retain (ev_status <$> evs) status,
            fold_left MergeFrom (ev_response <$> evs) ret,
            nm',
            trace ++ concat (omap (fun ev =>
                       (fun a => [EvFinish RunTrafficRpc a (ev_status ev); EvIdle a true])
                       <$> pending !! ev_tag ev) evs)) /\
    (forall a, a ∈ omap (fun ev => pending !! ev_tag ev) evs ->
               is_Some (nm !! a) -> idle <$> nm' !! a = Some true) /\
    (forall a, a ∉ omap (fun ev => pending !! ev_tag ev) evs -> nm' !! a = nm !! a) /\
    (forall a, is_Some (nm' !! a) <-> is_Some (nm !! a)).
Proof.
  induction evs as [|ev evs IH]; intros status ret nm trace Htags.
  - exists nm. simpl. rewrite app_nil_r. split; [done|]. split; [|done].
    intros a Ha. by apply elem_of_nil in Ha.
  - apply Forall_cons in Htags as [Htag Htags].
    destruct (lookup_lt_is_Some_2 pending (ev_tag ev) Htag) as [alias Hp].
    simpl. rewrite Hp.
    destruct (IH (retain status (ev_status ev)) (MergeFrom ret (ev_response ev))
                 (alter (set_idle true) alias nm)
                 (trace ++ [EvFinish RunTrafficRpc alias (ev_status ev); EvIdle alias true])
                 Htags) as (nm' & -> & Hin & Hout & Hdom).
    exists nm'. csimpl. rewrite ?Hp. csimpl.
    split; [by rewrite <- app_assoc|]. split; [|split].
    + intros a Ha [n Hn].
      destruct (decide (a ∈ omap (fun ev => pending !! ev_tag ev) evs)) as [Hin'|Hnin].
      * apply Hin; [done|]. destruct (decide (a = alias)) as [->|Hne].
        -- rewrite lookup_alter_eq, Hn. eauto.
        -- rewrite lookup_alter_ne by done. eauto.
      * apply elem_of_cons in Ha as [->|Ha]; [|done].
        rewrite (Hout alias Hnin), lookup_alter_eq, Hn. done.
    + intros a Ha. apply not_elem_of_cons in Ha as [Hne Ha].
      rewrite (Hout a Ha). by rewrite lookup_alter_ne.
    + intros a. rewrite Hdom. destruct (decide (a = alias)) as [->|Hne].
      * rewrite lookup_alter_eq. by rewrite fmap_is_Some.
      * by rewrite lookup_alter_ne.
Qed.

Lemma RunTraffic_issue_events k (keys : list string) :
  issued_to k (concat ((fun a => [EvIdle a false; EvIssue RunTrafficRpc a]) <$> keys))
  = (if decide (RunTrafficRpc = k) then keys else []) /\
  finished_of k (concat ((fun a => [EvIdle a false; EvIssue RunTrafficRpc a]) <$> keys))
  = [].
Proof.
  unfold issued_to, finished_of.
  induction keys as [|a keys [IH1 IH2]]; csimpl.
  - by destruct (decide (RunTrafficRpc = k)).
  - rewrite IH1, IH2. by destruct (decide (RunTrafficRpc = k)).
Qed.

Lemma RunTraffic_finish_events k (pending : list string) (evs : list (CqEvent ServiceLogs)) :
  issued_to k (concat (omap (fun ev =>
      (fun a => [EvFinish RunTrafficRpc a (ev_status ev); EvIdle a true])
      <$> pending !! ev_tag ev) evs)) = [] /\
  finished_of k (concat (omap (fun ev =>
      (fun a => [EvFinish RunTrafficRpc a (ev_status ev); EvIdle a true])
      <$> pending !! ev_tag ev) evs))
  = if decide (RunTrafficRpc = k) then omap (fun ev => pending !! ev_tag ev) evs else [].
Proof.
  unfold issued_to, finished_of.
  induction evs as [|ev evs [IH1 IH2]]; csimpl.
  - by destruct (decide (RunTrafficRpc = k)).
  - destruct (pending !! ev_tag ev) as [a|]; csimpl.
    + rewrite IH1, IH2. by destruct (decide (RunTrafficRpc = k)).
    + by rewrite IH1, IH2.
Qed.

(** RunTraffic on a placement whose aliases are registered and a queue that
    delivers every completion. *)
Lemma RunTraffic_loop_complete nm nsm cq :
  known_aliases nm nsm ->
  complete_queue (length nsm) cq ->
  exists nm' rest,
    RunTraffic_loop nm nsm cq
    = Some (last_failure (ev_status <$> finished cq),
            merged (ev_response <$> finished cq), nm',
            concat ((fun a => [EvIdle a false; EvIssue RunTrafficRpc a]) <$> nsm.*1)
            ++ concat (omap (fun ev =>
                 (fun a => [EvFinish RunTrafficRpc a (ev_status ev); EvIdle a true])
                 <$> nsm.*1 !! ev_tag ev) (finished cq)),
            rest) /\
    finished rest = [] /\
    (forall a, a ∈ nsm.*1 -> idle <$> nm' !! a = Some true) /\
    (forall a, a ∉ nsm.*1 -> nm' !! a = nm !! a).
Proof.
  intros Hk Hcq. unfold RunTraffic_loop.
  destruct (RunTraffic_issue_known nsm nm [] Hk) as (nm1 & -> & Hin1 & Hout1 & Hdom1).
  pose proof (complete_queue_aliases nsm.*1 cq) as Hal.
  rewrite length_fmap in Hal. specialize (Hal Hcq).
  destruct (RunTraffic_finish_all nsm.*1 (finished cq) Status_OK ∅ nm1
              ([] ++ concat ((fun a => [EvIdle a false; EvIssue RunTrafficRpc a])
                             <$> nsm.*1)))
    as (nm' & Hall & Hin & Hout & Hdom).
  { apply Forall_forall. intros ev Hev. rewrite length_fmap.
    by eapply complete_queue_tag. }
  destruct (drain_complete _ cq _ _ Hall) as (rest & Hd & Hrest).
  rewrite (complete_queue_length _ _ Hcq) in Hd. rewrite length_fmap, Hd.
  exists nm', rest. split; [done|]. split; [done|]. split.
  - intros a Ha. apply Hin; [by rewrite Hal|].
    apply Hdom1. by apply Hk.
  - intros a Ha. rewrite Hout by (by rewrite Hal). by apply Hout1.
Qed.

(** ** The result of a phase *)

Lemma example_placement_known : known_aliases example_two_nodes example_placement.
Proof.
  intros a Ha. unfold example_placement in Ha. csimpl in Ha.
  rewrite !elem_of_cons in Ha. destruct Ha as [->|[->|Ha]].
  - eexists. vm_compute. reflexivity.
  - eexists. vm_compute. reflexivity.
  - by apply elem_of_nil in Ha.
Qed.

Lemma example_cq_two_failures_complete {R} (r : R) :
  complete_queue 2 (example_cq_two_failures r).
Proof. unfold complete_queue, finished, example_cq_two_failures. by cbn. Qed.

Lemma example_cq_one_failure_complete {R} (r : R) :
  complete_queue 2 (example_cq_one_failure r).
Proof.
  unfold complete_queue, finished, example_cq_one_failure. cbn.
  apply Permutation_swap.
Qed.

(** C2, as stated, fails on the status that is retained: when two workers
    answer with an error, the local [status] of the loop ends up holding the
    error that arrived last, not the one that arrived first. *)
Lemma phase_does_not_retain_first_failure :
  ~ (forall nm nsm test cq status ret trace rest,
       known_aliases nm nsm ->
       complete_queue (length nsm) cq ->
       ConfigureNodes_loop nm nsm test cq = Some (status, ret, trace, rest) ->
       status = first_failure (ev_status <$> finished cq)).
Proof.
  intros H.
  specialize (H example_two_nodes example_placement example_test
                (example_cq_two_failures ∅)
                (mkStatus INTERNAL "node1 failed") ∅
                [EvIssue ConfigureNodeRpc "node0"; EvIssue ConfigureNodeRpc "node1";
                 EvFinish ConfigureNodeRpc "node0" (mkStatus UNAVAILABLE "node0 is down");
                 EvFinish ConfigureNodeRpc "node1" (mkStatus INTERNAL "node1 failed")]
                []
                example_placement_known
                (example_cq_two_failures_complete ∅)).
  assert (Hrun : ConfigureNodes_loop example_two_nodes example_placement example_test
                   (example_cq_two_failures ∅)
                 = Some (mkStatus INTERNAL "node1 failed", ∅,
                         [EvIssue ConfigureNodeRpc "node0"; EvIssue ConfigureNodeRpc "node1";
                          EvFinish ConfigureNodeRpc "node0" (mkStatus UNAVAILABLE "node0 is down");
                          EvFinish ConfigureNodeRpc "node1" (mkStatus INTERNAL "node1 failed")],
                         [])).
  { vm_compute. reflexivity. }
  specialize (H Hrun). vm_compute in H. discriminate.
Qed.

(** C2, as the code has it.  On a placement whose aliases are registered,
    and with queues that deliver the completion of every RPC, each of the
    three phases returns.  The local [status] of its loop holds the error
    status that arrived last (OK when there was none), and the queue holds
    no further completion when the loop ends: every RPC that was issued has
    finished.  When a completion carried an error, ConfigureNodes and
    RunTraffic return INVALID_ARGUMENT with the message Unknown GRPC error2
    and IntroducePeers returns INVALID_ARGUMENT with the message Unknown GRPC
    error; when none did, ConfigureNodes and RunTraffic return the responses
    merged in the order of their arrival, and IntroducePeers returns OK. *)
Theorem fan_out_phase_results nm nsm test service_map cqc cqi cqt :
  known_aliases nm nsm ->
  complete_queue (length nsm) cqc ->
  complete_queue (length nsm) cqi ->
  complete_queue (length nsm) cqt ->
  (exists trace rest,
      ConfigureNodes_loop nm nsm test cqc
      = Some (last_failure (ev_status <$> finished cqc),
              merged (ev_response <$> finished cqc), trace, rest) /\
      ConfigureNodes nm nsm test cqc
      = Some (if forallb ok (ev_status <$> finished cqc)
              then inr (merged (ev_response <$> finished cqc))
              else inl (InvalidArgumentError "Unknown GRPC error2"), trace) /\
      finished rest = [] /\
      issued_to ConfigureNodeRpc trace = nsm.*1 /\
      finished_of ConfigureNodeRpc trace ≡ₚ nsm.*1) /\
  (exists trace rest,
      IntroducePeers_loop nm nsm service_map cqi
      = Some (last_failure (ev_status <$> finished cqi), trace, rest) /\
      IntroducePeers nm nsm service_map cqi
      = Some (if forallb ok (ev_status <$> finished cqi)
              then Status_OK
              else InvalidArgumentError "Unknown GRPC error", trace) /\
      finished rest = [] /\
      issued_to IntroducePeersRpc trace = nsm.*1 /\
      finished_of IntroducePeersRpc trace ≡ₚ nsm.*1) /\
  (exists nm' trace rest,
      RunTraffic_loop nm nsm cqt
      = Some (last_failure (ev_status <$> finished cqt),
              merged (ev_response <$> finished cqt), nm', trace, rest) /\
      RunTraffic nm nsm cqt
      = Some (if forallb ok (ev_status <$> finished cqt)
              then inr (merged (ev_response <$> finished cqt))
              else inl (InvalidArgumentError "Unknown GRPC error2"), nm', trace) /\
      finished rest = [] /\
      issued_to RunTrafficRpc trace = nsm.*1 /\
      finished_of RunTrafficRpc trace ≡ₚ nsm.*1).
Proof.
  intros Hk Hc Hi Ht. split; [|split].
  - destruct (ConfigureNodes_loop_complete nm nsm test cqc Hk Hc)
      as (trace & rest & Hloop & Hrest & Hiss & Hfin & _).
    exists trace, rest. split; [done|]. split; [|done].
    unfold ConfigureNodes. rewrite Hloop, ok_last_failure.
    by destruct (forallb ok (ev_status <$> finished cqc)).
  - destruct (IntroducePeers_loop_complete nm nsm service_map cqi Hk Hi)
      as (trace & rest & Hloop & Hrest & Hiss & Hfin & _).
    exists trace, rest. split; [done|]. split; [|done].
    unfold IntroducePeers. rewrite Hloop, ok_last_failure.
    by destruct (forallb ok (ev_status <$> finished cqi)).
  - destruct (RunTraffic_loop_complete nm nsm cqt Hk Ht)
      as (nm' & rest & Hloop & Hrest & _).
    eexists nm', _, rest. split; [exact Hloop|]. split; [|split; [done|]].
    + unfold RunTraffic. rewrite Hloop, ok_last_failure.
      by destruct (forallb ok (ev_status <$> finished cqt)).
    + rewrite issued_to_app, finished_of_app.
      destruct (RunTraffic_issue_events RunTrafficRpc nsm.*1) as [-> ->].
      destruct (RunTraffic_finish_events RunTrafficRpc nsm.*1 (finished cqt)) as [-> ->].
      rewrite decide_True by done. rewrite app_nil_r. split; [done|]. simpl.
      apply complete_queue_aliases. by rewrite length_fmap.
Qed.

(** C2 on the two-node placement: one error in Configure, two in
    Introduce, one in RunTraffic. *)
Lemma fan_out_phase_results_witness :
  let nm := example_two_nodes in
  let nsm := example_placement in
  let test := example_test in
  let service_map : ServiceEndpointMap := ∅ in
  let cqc : list (CqEvent ServiceEndpointMap) := example_cq_one_failure ∅ in
  let cqi : list (CqEvent unit) := example_cq_two_failures () in
  let cqt : list (CqEvent ServiceLogs) := example_cq_one_failure ∅ in
  (exists trace rest,
      ConfigureNodes_loop nm nsm test cqc
      = Some (last_failure (ev_status <$> finished cqc),
              merged (ev_response <$> finished cqc), trace, rest) /\
      ConfigureNodes nm nsm test cqc
      = Some (if forallb ok (ev_status <$> finished cqc)
              then inr (merged (ev_response <$> finished cqc))
              else inl (InvalidArgumentError "Unknown GRPC error2"), trace) /\
      finished rest = [] /\
      issued_to ConfigureNodeRpc trace = nsm.*1 /\
      finished_of ConfigureNodeRpc trace ≡ₚ nsm.*1) /\
  (exists trace rest,
      IntroducePeers_loop nm nsm service_map cqi
      = Some (last_failure (ev_status <$> finished cqi), trace, rest) /\
      IntroducePeers nm nsm service_map cqi
      = Some (if forallb ok (ev_status <$> finished cqi)
              then Status_OK
              else InvalidArgumentError "Unknown GRPC error", trace) /\
      finished rest = [] /\
      issued_to IntroducePeersRpc trace = nsm.*1 /\
      finished_of IntroducePeersRpc trace ≡ₚ nsm.*1) /\
  (exists nm' trace rest,
      RunTraffic_loop nm nsm cqt
      = Some (last_failure (ev_status <$> finished cqt),
              merged (ev_response <$> finished cqt), nm', trace, rest) /\
      RunTraffic nm nsm cqt
      = Some (if forallb ok (ev_status <$> finished cqt)
              then inr (merged (ev_response <$> finished cqt))
              else inl (InvalidArgumentError "Unknown GRPC error2"), nm', trace) /\
      finished rest = [] /\
      issued_to RunTrafficRpc trace = nsm.*1 /\
      finished_of RunTrafficRpc trace ≡ₚ nsm.*1).
Proof.
  intros nm nsm test service_map cqc cqi cqt.
  apply (fan_out_phase_results nm nsm test service_map cqc cqi cqt).
  - exact example_placement_known.
  - apply example_cq_one_failure_complete.
  - apply example_cq_two_failures_complete.
  - apply example_cq_one_failure_complete.
Defined.

(** ** RunTraffic and the idle flags *)

(** The issuing loop on a placement in two parts: the second part starts in
    the registry, and with the events, that the first part leaves. *)
Lemma RunTraffic_issue_app l1 : forall l2 nm trace,
  RunTraffic_issue nm (l1 ++ l2) trace
  = match RunTraffic_issue nm l1 trace with
    | Some (nm1, pending1, trace1) =>
        match RunTraffic_issue nm1 l2 trace1 with
        | Some (nm2, pending2, trace2) => Some (nm2, pending1 ++ pending2, trace2)
        | None => None
        end
    | None => None
    end.
Proof.
  induction l1 as [|[a svcs] l1 IH]; intros l2 nm trace; simpl.
  - by destruct (RunTraffic_issue nm l2 trace) as [[[n p] t]|].
  - destruct (nm !! a) as [node|]; [|done]. rewrite IH.
    destruct (RunTraffic_issue _ l1 _) as [[[n1 p1] t1]|]; [|done].
    by destruct (RunTraffic_issue n1 l2 t1) as [[[n2 p2] t2]|].
Qed.

(** C9: on a placement whose aliases are registered, and with a queue that
    delivers the completion of every RPC, RunTraffic returns, with OK or
    with an error, and every node it targeted has idle = true in the
    registry it leaves; the other nodes are as they were.

    The registry during the call.  When the RPC to a target is issued, the
    registry that the issuing loop has reached holds idle = false for that
    target, and the nodes that the loop has yet to reach are as they were;
    when the last RPC is issued every target has idle = false.  After any
    number of the completions, a target has idle = true exactly when the
    completion of its RPC is among them, whatever the status of that
    completion; the registry after the last completion is the one that
    RunTraffic leaves.

    In the events of the call, the flag of a targeted node is set to false
    right before its RPC is issued, and it is set to true right after the
    completion of that RPC is seen. *)
Theorem RunTraffic_leaves_targets_idle nm nsm cq :
  known_aliases nm nsm ->
  complete_queue (length nsm) cq ->
  exists result nm' trace nm1 trace1,
    RunTraffic nm nsm cq = Some (result, nm', trace) /\
    (forall a, a ∈ nsm.*1 -> idle <$> nm' !! a = Some true) /\
    (forall a, a ∉ nsm.*1 -> nm' !! a = nm !! a) /\
    (forall a, a ∈ nsm.*1 ->
       exists t1 t2 t3 st,
         trace = t1 ++ [EvIdle a false; EvIssue RunTrafficRpc a] ++ t2
                    ++ [EvFinish RunTrafficRpc a st; EvIdle a true] ++ t3) /\
    (* the issuing loop *)
    RunTraffic_issue nm nsm [] = Some (nm1, nsm.*1, trace1) /\
    (forall a, a ∈ nsm.*1 -> idle <$> nm1 !! a = Some false) /\
    (forall a, a ∉ nsm.*1 -> nm1 !! a = nm !! a) /\
    (forall pre a svcs post, nsm = pre ++ (a, svcs) :: post ->
       exists nm_a trace_a,
         RunTraffic_issue nm (pre ++ [(a, svcs)]) []
         = Some (nm_a, pre.*1 ++ [a],
                 trace_a ++ [EvIdle a false; EvIssue RunTrafficRpc a]) /\
         idle <$> nm_a !! a = Some false /\
         (forall b, b ∉ pre.*1 ++ [a] -> nm_a !! b = nm !! b) /\
         RunTraffic_issue nm_a post (trace_a ++ [EvIdle a false; EvIssue RunTrafficRpc a])
         = Some (nm1, post.*1, trace1)) /\
    (* the loop over the completions *)
    (forall evs1 evs2, finished cq = evs1 ++ evs2 ->
       exists status ret nm2 trace2,
         finish_all (RunTraffic_finish nsm.*1) evs1 (Status_OK, ∅, nm1, trace1)
         = Some (status, ret, nm2, trace2) /\
         (forall a, a ∈ nsm.*1 ->
            idle <$> nm2 !! a
            = Some (bool_decide (a ∈ omap (fun ev => nsm.*1 !! ev_tag ev) evs1))) /\
         (evs2 = [] -> nm2 = nm' /\ trace2 = trace)).
Proof.
  intros Hk Hcq.
  destruct (RunTraffic_issue_known nsm nm [] Hk) as (nm1 & Hissue & Hin1 & Hout1 & Hdom1).
  simpl in Hissue.
  set (trace1 := concat ((fun a => [EvIdle a false; EvIssue RunTrafficRpc a]) <$> nsm.*1))
    in *.
  assert (Htags : Forall (fun ev => (ev_tag ev < length nsm.*1)%nat) (finished cq)).
  { apply Forall_forall. intros ev Hev. rewrite length_fmap. by eapply complete_queue_tag. }
  pose proof (complete_queue_aliases nsm.*1 cq) as Hal.
  rewrite length_fmap in Hal. specialize (Hal Hcq).
  destruct (RunTraffic_finish_all nsm.*1 (finished cq) Status_OK ∅ nm1 trace1 Htags)
    as (nm' & Hall & Hin & Hout & Hdom).
  destruct (drain_complete _ cq _ _ Hall) as (rest & Hd & Hrest).
  rewrite (complete_queue_length _ _ Hcq) in Hd.
  exists (if ok (last_failure (ev_status <$> finished cq))
          then inr (merged (ev_response <$> finished cq))
          else inl (InvalidArgumentError "Unknown GRPC error2")).
  eexists nm', _, nm1, trace1. split.
  { unfold RunTraffic, RunTraffic_loop. rewrite Hissue, length_fmap, Hd.
    unfold last_failure.
    destruct (ok (fold_left retain (ev_status <$> finished cq) Status_OK)); reflexivity. }
  split.
  { intros a Ha. apply Hin; [by rewrite Hal|]. apply Hdom1. by apply Hk. }
  split.
  { intros a Ha. rewrite Hout by (by rewrite Hal). by apply Hout1. }
  split.
  { intros a Ha.
    (* the place of [a] in the issuing loop *)
    destruct (list_elem_of_split _ _ Ha) as (k1 & k2 & Hkeys).
    (* the completion of the RPC to [a] *)
    assert (Hfa : a ∈ omap (fun ev => nsm.*1 !! ev_tag ev) (finished cq)) by (by rewrite Hal).
    apply list_elem_of_omap in Hfa as (ev & Hev & Htag).
    destruct (list_elem_of_split _ _ Hev) as (e1 & e2 & Hevs).
    exists (concat ((fun a => [EvIdle a false; EvIssue RunTrafficRpc a]) <$> k1)),
           (concat ((fun a => [EvIdle a false; EvIssue RunTrafficRpc a]) <$> k2)
            ++ concat (omap (fun ev =>
                 (fun a => [EvFinish RunTrafficRpc a (ev_status ev); EvIdle a true])
                 <$> nsm.*1 !! ev_tag ev) e1)),
           (concat (omap (fun ev =>
                 (fun a => [EvFinish RunTrafficRpc a (ev_status ev); EvIdle a true])
                 <$> nsm.*1 !! ev_tag ev) e2)),
           (ev_status ev).
    rewrite Hevs. rewrite omap_app. csimpl. rewrite Htag. csimpl.
    rewrite concat_app. csimpl. subst trace1.
    rewrite Hkeys at 1. rewrite fmap_app, concat_app. csimpl.
    by rewrite <- !app_assoc. }
  split; [done|]. split; [done|]. split; [done|]. split.
  - (* the registry when the RPC to [a] is issued *)
    intros pre a svcs post Hsplit.
    assert (Hkpre : known_aliases nm (pre ++ [(a, svcs)])).
    { intros b Hb. apply Hk. rewrite Hsplit.
      rewrite fmap_app, elem_of_app in Hb. rewrite fmap_app, elem_of_app.
      destruct Hb as [Hb|Hb]; [by left|]. right. csimpl in *.
      apply list_elem_of_singleton in Hb as ->. left. }
    destruct (RunTraffic_issue_known (pre ++ [(a, svcs)]) nm [] Hkpre)
      as (nm_a & Hissue_a & Hin_a & Hout_a & _).
    simpl in Hissue_a. rewrite fmap_app in Hissue_a, Hin_a, Hout_a.
    csimpl in *. rewrite fmap_app, concat_app in Hissue_a. csimpl in *.
    exists nm_a, (concat ((fun a => [EvIdle a false; EvIssue RunTrafficRpc a]) <$> pre.*1)).
    split; [done|]. split.
    { apply Hin_a. apply elem_of_app. right. left. }
    split; [done|].
    pose proof (RunTraffic_issue_app (pre ++ [(a, svcs)]) post nm []) as Happ.
    rewrite <- app_assoc in Happ. simpl in Happ. rewrite <- Hsplit in Happ.
    rewrite Hissue, Hissue_a in Happ.
    destruct (RunTraffic_issue nm_a post _) as [[[n p] t]|]; [|done].
    injection Happ as -> Hp ->. f_equal. f_equal. f_equal.
    rewrite Hsplit, fmap_app in Hp. csimpl in Hp.
    rewrite <- app_assoc in Hp. simpl in Hp.
    apply app_inv_head in Hp. by injection Hp as <-.
  - (* the registry after the completions [evs1] *)
    intros evs1 evs2 Hsplit.
    assert (Htags1 : Forall (fun ev => (ev_tag ev < length nsm.*1)%nat) evs1).
    { rewrite Hsplit in Htags. by apply Forall_app in Htags as [? _]. }
    destruct (RunTraffic_finish_all nsm.*1 evs1 Status_OK ∅ nm1 trace1 Htags1)
      as (nm2 & Hall2 & Hin2 & Hout2 & _).
    eexists _, _, nm2, _. split; [exact Hall2|]. split.
    + intros a Ha. case_bool_decide as Hdone.
      * apply Hin2; [done|]. apply Hdom1. by apply Hk.
      * rewrite (Hout2 a Hdone). by apply Hin1.
    + intros ->. rewrite app_nil_r in Hsplit. subst evs1.
      rewrite Hall in Hall2. injection Hall2; intros; split; congruence.
Qed.

(** C9 on the two-node placement, node1 answering with an error. *)
Lemma RunTraffic_leaves_targets_idle_witness :
  exists result nm' trace nm1 trace1,
    RunTraffic example_two_nodes example_placement (example_cq_one_failure ∅)
    = Some (result, nm', trace) /\
    (forall a, a ∈ example_placement.*1 -> idle <$> nm' !! a = Some true) /\
    (forall a, a ∉ example_placement.*1 -> nm' !! a = example_two_nodes !! a) /\
    (forall a, a ∈ example_placement.*1 ->
       exists t1 t2 t3 st,
         trace = t1 ++ [EvIdle a false; EvIssue RunTrafficRpc a] ++ t2
                    ++ [EvFinish RunTrafficRpc a st; EvIdle a true] ++ t3) /\
    RunTraffic_issue example_two_nodes example_placement []
    = Some (nm1, example_placement.*1, trace1) /\
    (forall a, a ∈ example_placement.*1 -> idle <$> nm1 !! a = Some false) /\
    (forall a, a ∉ example_placement.*1 -> nm1 !! a = example_two_nodes !! a) /\
    (forall pre a svcs post, example_placement = pre ++ (a, svcs) :: post ->
       exists nm_a trace_a,
         RunTraffic_issue example_two_nodes (pre ++ [(a, svcs)]) []
         = Some (nm_a, pre.*1 ++ [a],
                 trace_a ++ [EvIdle a false; EvIssue RunTrafficRpc a]) /\
         idle <$> nm_a !! a = Some false /\
         (forall b, b ∉ pre.*1 ++ [a] -> nm_a !! b = example_two_nodes !! b) /\
         RunTraffic_issue nm_a post (trace_a ++ [EvIdle a false; EvIssue RunTrafficRpc a])
         = Some (nm1, post.*1, trace1)) /\
    (forall evs1 evs2, finished (example_cq_one_failure (∅ : ServiceLogs)) = evs1 ++ evs2 ->
       exists status ret nm2 trace2,
         finish_all (RunTraffic_finish example_placement.*1) evs1
                    (Status_OK, ∅, nm1, trace1)
         = Some (status, ret, nm2, trace2) /\
         (forall a, a ∈ example_placement.*1 ->
            idle <$> nm2 !! a
            = Some (bool_decide
                      (a ∈ omap (fun ev => example_placement.*1 !! ev_tag ev) evs1))) /\
         (evs2 = [] -> nm2 = nm' /\ trace2 = trace)).
Proof.
  apply (RunTraffic_leaves_targets_idle example_two_nodes example_placement
           (example_cq_one_failure ∅)).
  - exact example_placement_known.
  - apply example_cq_one_failure_complete.
Defined.

(** ** A failing Configure phase *)

(** A prefix of the tests that runs to its end hands its registry and its
    results to the rest of the sequence. *)
Lemma DoRunTestSequence_app pre : forall nm0 response0 response nm trace0 rest,
  DoRunTestSequence nm0 pre response0 = Some (Status_OK, response, nm, trace0) ->
  DoRunTestSequence nm0 (pre ++ rest) response0
  = match DoRunTestSequence nm rest response with
    | Some (s, r, n, t) => Some (s, r, n, trace0 ++ t)
    | None => None
    end.
Proof.
  induction pre as [|[[test cancelled] env] pre IH];
    intros nm0 response0 response nm trace0 rest Hpre; simpl in Hpre.
  - injection Hpre as <- <- <-. simpl.
    by destruct (DoRunTestSequence nm0 rest response0) as [[[[s r] n] t]|].
  - destruct cancelled; [discriminate|].
    destruct (DoRunTest nm0 test env) as [[[[e|result] nm1] trace1]|] eqn:Htest;
      [discriminate| |discriminate].
    destruct (DoRunTestSequence nm1 pre (response0 ++ [result]))
      as [[[[s r] n] t]|] eqn:Hrest; [|discriminate].
    injection Hpre as -> -> -> <-.
    simpl. rewrite Htest. rewrite (IH _ _ _ _ _ rest Hrest).
    destruct (DoRunTestSequence nm rest response) as [[[[s' r'] n'] t']|]; [|done].
    by rewrite app_assoc.
Qed.

(** C8: a test of a sequence is reached (the tests before it succeeded and
    no cancellation was seen), its placement succeeds, and a completion of
    its Configure phase carries an error.  Then DoRunTest returns the error
    of ConfigureNodes after every Configure RPC has finished; it has issued
    no IntroducePeers RPC and no RunTraffic RPC, and the registry is
    untouched.  The sequence returns ABORTED with the message of that
    error, whatever tests follow. *)
Theorem configure_failure_aborts_sequence
    nm0 pre response0 nm response trace0 test env post nsm :
  DoRunTestSequence nm0 pre response0 = Some (Status_OK, response, nm, trace0) ->
  place_services nm test = inr nsm ->
  complete_queue (length nsm) (cq_configure env) ->
  forallb ok (ev_status <$> finished (cq_configure env)) = false ->
  exists trace,
    DoRunTest nm test env
    = Some (inl (InvalidArgumentError "Unknown GRPC error2"), nm, trace) /\
    issued_to ConfigureNodeRpc trace = nsm.*1 /\
    finished_of ConfigureNodeRpc trace ≡ₚ nsm.*1 /\
    issued_to IntroducePeersRpc trace = [] /\
    issued_to RunTrafficRpc trace = [] /\
    DoRunTestSequence nm0 (pre ++ (test, false, env) :: post) response0
    = Some (mkStatus ABORTED "Unknown GRPC error2", response, nm, trace0 ++ trace).
Proof.
  intros Hpre Hplace Hcq Hfail.
  pose proof (place_services_known _ _ _ Hplace) as Hk.
  destruct (ConfigureNodes_loop_complete nm nsm test (cq_configure env) Hk Hcq)
    as (trace & rest & Hloop & _ & Hiss & Hfin & Hoth).
  assert (Hconf : ConfigureNodes nm nsm test (cq_configure env)
                  = Some (inl (InvalidArgumentError "Unknown GRPC error2"), trace)).
  { unfold ConfigureNodes. by rewrite Hloop, ok_last_failure, Hfail. }
  assert (Htest : DoRunTest nm test env
                  = Some (inl (InvalidArgumentError "Unknown GRPC error2"), nm, trace)).
  { unfold DoRunTest. by rewrite Hplace, Hconf. }
  exists trace. split; [done|]. split; [done|]. split; [done|].
  split; [by apply Hoth|]. split; [by apply Hoth|].
  rewrite (DoRunTestSequence_app _ _ _ _ _ _ _ Hpre). simpl. by rewrite Htest.
Qed.

(** C8 on a sequence of one test on the two nodes, in which node1 answers
    the Configure RPC with an error. *)
Lemma configure_failure_aborts_sequence_witness :
  let env := mkTestEnv (example_cq_one_failure ∅) [] [] in
  exists trace,
    DoRunTest example_two_nodes example_test env
    = Some (inl (InvalidArgumentError "Unknown GRPC error2"), example_two_nodes, trace) /\
    issued_to ConfigureNodeRpc trace = example_placement.*1 /\
    finished_of ConfigureNodeRpc trace ≡ₚ example_placement.*1 /\
    issued_to IntroducePeersRpc trace = [] /\
    issued_to RunTrafficRpc trace = [] /\
    DoRunTestSequence example_two_nodes ([] ++ (example_test, false, env) :: []) []
    = Some (mkStatus ABORTED "Unknown GRPC error2", [], example_two_nodes, [] ++ trace).
Proof.
  intros env.
  apply (configure_failure_aborts_sequence example_two_nodes [] [] example_two_nodes
           [] [] example_test env [] example_placement).
  - reflexivity.
  - vm_compute. reflexivity.
  - apply example_cq_one_failure_complete.
  - vm_compute. reflexivity.
Defined.

(** ** CancelTraffic *)

Lemma CancelTraffic_issue_spec nodes :
  (CancelTraffic_issue nodes).1 = (filter (fun p => idle p.2 = false) nodes).*1 /\
  issued_to CancelTrafficRpc (CancelTraffic_issue nodes).2 = (CancelTraffic_issue nodes).1.
Proof.
  induction nodes as [|[alias node] nodes [IH1 IH2]]; [done|].
  simpl. destruct (CancelTraffic_issue nodes) as [pending trace]. simpl in *.
  rewrite filter_cons. simpl.
  destruct (idle node) eqn:Hidle; simpl.
  - done.
  - csimpl. unfold issued_to in *. csimpl. rewrite IH2. split; by f_equal.
Qed.

Lemma CancelTraffic_finish_all (pending : list string) evs : forall nm trace,
  Forall (fun ev => (ev_tag ev < length pending)%nat) evs ->
  exists nm' trace',
    finish_all (CancelTraffic_finish pending) evs (nm, trace) = Some (nm', trace ++ trace') /\
    (forall k, issued_to k trace' = []) /\
    (forall a, a ∈ omap (fun ev => pending !! ev_tag ev) evs ->
               is_Some (nm !! a) -> idle <$> nm' !! a = Some true) /\
    (forall a, a ∉ omap (fun ev => pending !! ev_tag ev) evs -> nm' !! a = nm !! a).
Proof.
  induction evs as [|ev evs IH]; intros nm trace Htags.
  - exists nm, []. simpl. rewrite app_nil_r. split; [done|]. split; [done|].
    split; [|done]. intros a Ha. by apply elem_of_nil in Ha.
  - apply Forall_cons in Htags as [Htag Htags].
    destruct (lookup_lt_is_Some_2 pending (ev_tag ev) Htag) as [alias Hp].
    simpl. rewrite Hp.
    destruct (IH (alter (set_idle true) alias nm)
                 (trace ++ [EvFinish CancelTrafficRpc alias (ev_status ev);
                            EvIdle alias true]) Htags)
      as (nm' & trace' & -> & Hiss & Hin & Hout).
    exists nm', ([EvFinish CancelTrafficRpc alias (ev_status ev); EvIdle alias true]
                 ++ trace').
    csimpl. rewrite ?Hp. csimpl.
    split; [by rewrite <- app_assoc|]. split; [|split].
    + intros k. unfold issued_to in *. csimpl. apply Hiss.
    + intros a Ha [n Hn].
      destruct (decide (a ∈ omap (fun ev => pending !! ev_tag ev) evs)) as [Hin'|Hnin].
      * apply Hin; [done|]. destruct (decide (a = alias)) as [->|Hne].
        -- rewrite lookup_alter_eq, Hn. eauto.
        -- rewrite lookup_alter_ne by done. eauto.
      * apply elem_of_cons in Ha as [->|Ha]; [|done].
        rewrite (Hout alias Hnin), lookup_alter_eq, Hn. done.
    + intros a Ha. apply not_elem_of_cons in Ha as [Hne Ha].
      rewrite (Hout a Ha). by rewrite lookup_alter_ne.
Qed.

(** CancelTraffic, run on its own with a queue that delivers every
    completion: it sends an RPC to the nodes whose flag is false, to no
    other node, and it leaves every node idle. *)
Lemma CancelTraffic_complete nm cq :
  complete_queue (length (filter (fun p => idle p.2 = false) (map_to_list nm))) cq ->
  exists nm' trace,
    CancelTraffic nm cq = Some (nm', trace) /\
    (forall a, a ∈ issued_to CancelTrafficRpc trace <->
               exists node, nm !! a = Some node /\ idle node = false) /\
    (forall a, is_Some (nm !! a) -> idle <$> nm' !! a = Some true).
Proof.
  intros Hcq. unfold CancelTraffic.
  destruct (CancelTraffic_issue_spec (map_to_list nm)) as [Hpend Hiss].
  destruct (CancelTraffic_issue (map_to_list nm)) as [pending trace]. simpl in *.
  assert (Hlen : length pending
                 = length (filter (fun p => idle p.2 = false) (map_to_list nm))).
  { by rewrite Hpend, length_fmap. }
  assert (Hbusy : forall a, a ∈ pending <->
                    exists node, nm !! a = Some node /\ idle node = false).
  { intros a. rewrite Hpend, list_elem_of_fmap. split.
    - intros ([a' node] & -> & Hin). apply list_elem_of_filter in Hin as [Hidle Hin].
      apply elem_of_map_to_list in Hin. by exists node.
    - intros (node & Hn & Hidle). exists (a, node). split; [done|].
      apply list_elem_of_filter. split; [done|]. by apply elem_of_map_to_list. }
  destruct (CancelTraffic_finish_all pending (finished cq) nm trace)
    as (nm' & trace' & Hall & Hiss' & Hin & Hout).
  { apply Forall_forall. intros ev Hev. rewrite Hlen. by eapply complete_queue_tag. }
  destruct (drain_complete _ cq _ _ Hall) as (rest & Hd & _).
  rewrite (complete_queue_length _ _ Hcq) in Hd. rewrite Hlen, Hd.
  exists nm', (trace ++ trace'). split; [done|]. split.
  - intros a. rewrite issued_to_app, Hiss, Hiss', app_nil_r. apply Hbusy.
  - intros a [node Hn].
    pose proof (complete_queue_aliases pending cq) as Hal.
    rewrite Hlen in Hal. specialize (Hal Hcq).
    destruct (idle node) eqn:Hidle.
    + rewrite Hout; [by rewrite Hn; simpl; rewrite Hidle|].
      rewrite Hal, Hbusy. intros (node' & Hn' & Hidle'). congruence.
    + apply Hin; [|by eauto]. rewrite Hal. apply Hbusy. eauto.
Qed.

(** ** RunTestSequence under interleaving *)

Lemma upd_eq {A} (f : nat -> A) t v : upd f t v t = v.
Proof. unfold upd. by rewrite decide_True. Qed.

Lemma upd_ne {A} (f : nat -> A) t t' v : t' <> t -> upd f t v t' = f t'.
Proof. intros H. unfold upd. by rewrite decide_False. Qed.

(** The cases of a step: the label, the program counter of the thread,
    and the tests on the shared state that the statement makes. *)
Ltac step_cases Hstep :=
  match type of Hstep with
  | RunTestSequence_step ?s ?l = Some _ =>
      destruct l as [t|t|t placement|t|t a]; simpl in Hstep;
      destruct (pcs s t) eqn:Hpc; try discriminate Hstep;
      unfold lock_exclusive, lock_shared, unlock_shared, mutex_free in Hstep;
      repeat case_match; try discriminate Hstep;
      injection Hstep as <-
  end.

Ltac other_thread t' t :=
  destruct (decide (t' = t)) as [->|?];
  [rewrite ?upd_eq in *|rewrite ?upd_ne in * by done].

Lemma Inv_mutex_init nodes : Inv_mutex (CState_init nodes).
Proof. intros t. simpl. done. Qed.

Lemma Inv_mutex_step s l s' : Inv_mutex s -> RunTestSequence_step s l = Some s' -> Inv_mutex s'.
Proof.
  intros I Hstep. step_cases Hstep; intros t'; simpl;
    pose proof (I t) as It; pose proof (I t') as It'; rewrite Hpc in It; simpl in It;
    other_thread t' t; simpl;
    repeat match goal with
           | H : _ && _ = true |- _ => apply andb_true_iff in H as [? ?]
           | H : bool_decide _ = true |- _ => apply bool_decide_eq_true in H
           end;
    clear I; intuition congruence.
Qed.

Lemma Inv_context_init nodes : Inv_context (CState_init nodes).
Proof. unfold Inv_context. simpl. repeat split; intros; congruence. Qed.

Lemma Inv_context_step s l s' :
  Inv_mutex s -> Inv_context s -> RunTestSequence_step s l = Some s' -> Inv_context s'.
Proof.
  intros M (C1 & C2 & C3) Hstep.
  step_cases Hstep; (split; [|split]); intros t'; simpl;
    pose proof (M t) as Mt; pose proof (M t') as Mt';
    pose proof (C1 t) as C1t; pose proof (C1 t') as C1t';
    pose proof (C2 t) as C2t; pose proof (C2 t') as C2t';
    pose proof (C3 t) as C3t; pose proof (C3 t') as C3t';
    rewrite Hpc in Mt, C1t, C2t, C3t; simpl in Mt, C1t, C2t, C3t;
    other_thread t' t; simpl;
    repeat match goal with
           | H : _ && _ = true |- _ => apply andb_true_iff in H as [? ?]
           | H : bool_decide _ = true |- _ => apply bool_decide_eq_true in H
           end;
    clear M C1 C2 C3;
    repeat match goal with
           | H : running_test_sequence_context_ s = _ |- _ => rewrite H in *; clear H
           end;
    try (intuition congruence);
    destruct (pcs s t') eqn:Hpc'; simpl in *; intuition congruence.
Qed.

Lemma Inv_cancel_init nodes : Inv_cancel (CState_init nodes).
Proof.
  split.
  - intros t a Ha. simpl in Ha. by apply elem_of_nil in Ha.
  - intros t a A k Ha. simpl in Ha. by apply elem_of_nil in Ha.
Qed.

Lemma upd_node_eq f a v : upd_node f a v a = v.
Proof. unfold upd_node. by rewrite decide_True. Qed.

Lemma upd_node_ne f a a' v : a' <> a -> upd_node f a v a' = f a'.
Proof. intros H. unfold upd_node. by rewrite decide_False. Qed.

Lemma Inv_cancel_step_scan s l s' :
  Inv_cancel s -> RunTestSequence_step s l = Some s' ->
  forall t a, a ∈ entry_busy s' t ->
    a ∈ cancel_targets s' t \/
    (exists A k, (a, A, k) ∈ idled_before_scan s' t) \/
    (a ∈ to_scan (all_nodes s') (pcs s' t) /\ node_idle s' a = false).
Proof.
  intros [I _] Hstep.
  step_cases Hstep; intros t' b Hb; simpl in *;
    pose proof (I t' b) as It'; pose proof (I t b) as It;
    other_thread t' t; simpl in *;
    try rewrite Hpc in *; simpl in *;
    try (intuition congruence);
    rewrite ?elem_of_app, ?elem_of_cons, ?list_elem_of_filter, ?elem_of_nil in *;
    try match goal with
        | |- context [upd_node _ ?x _ b] =>
            destruct (decide (b = x)) as [->|?];
            [rewrite ?upd_node_eq in *|rewrite ?upd_node_ne in * by done]
        end;
    try match goal with
        | H : node_idle s ?x = _ |- _ => destruct (decide (b = x)) as [->|?]
        end;
    try (intuition congruence).
  all: specialize (It' Hb); destruct It' as [?|[(A0 & k0 & ?)|[? ?]]];
    [ by left
    | right; left; exists A0, k0;
      destruct (bool_decide (_ ∈ to_scan _ _)); [by apply elem_of_cons; right|done]
    | first [ by (right; right)
            | right; left; eexists _, _;
              rewrite (bool_decide_eq_true_2 (_ ∈ to_scan _ _)) by done; by left ] ].
Qed.

Lemma Inv_cancel_step_idled s l s' :
  Inv_cancel s -> RunTestSequence_step s l = Some s' ->
  forall t a A k, (a, A, k) ∈ idled_before_scan s' t ->
    A <> t /\ (k = RunTrafficRpc \/ k = CancelTrafficRpc).
Proof.
  intros [_ J] Hstep.
  step_cases Hstep; intros t' b B k Hb; simpl in *;
    pose proof (J t' b B k) as Jt';
    other_thread t' t; simpl in *;
    try rewrite Hpc in *; simpl in *;
    try (by apply elem_of_nil in Hb);
    try (intuition congruence).
  all: destruct (bool_decide (_ ∈ to_scan _ _)) eqn:Hscan; [|by apply Jt'];
    apply elem_of_cons in Hb as [Hb|Hb]; [|by apply Jt'];
    injection Hb as -> -> ->; split; [done|]; by (left + right).
Qed.

Lemma Inv_cancel_step s l s' : Inv_cancel s -> RunTestSequence_step s l = Some s' -> Inv_cancel s'.
Proof.
  intros I Hstep. split.
  - by eapply Inv_cancel_step_scan.
  - by eapply Inv_cancel_step_idled.
Qed.

Lemma run_invariants ls : forall s s',
  Inv_mutex s /\ Inv_context s /\ Inv_cancel s ->
  run s ls = Some s' ->
  Inv_mutex s' /\ Inv_context s' /\ Inv_cancel s'.
Proof.
  induction ls as [|l ls IH]; intros s s' Hinv Hrun; simpl in Hrun.
  - by injection Hrun as <-.
  - destruct (RunTestSequence_step s l) as [s1|] eqn:Hstep; [|done].
    destruct Hinv as (M & C & K). apply (IH s1 s'); [|done].
    split; [by eapply Inv_mutex_step|].
    split; [by eapply Inv_context_step|by eapply Inv_cancel_step].
Qed.

Lemma reachable_invariants nodes s :
  reachable nodes s -> Inv_mutex s /\ Inv_context s /\ Inv_cancel s.
Proof.
  intros [ls Hrun]. eapply run_invariants; [|exact Hrun].
  split; [apply Inv_mutex_init|]. split; [apply Inv_context_init|apply Inv_cancel_init].
Qed.

Lemma in_body_has_handle p : in_body p = true -> has_handle p = true.
Proof. by destruct p. Qed.

Lemma has_handle_has_context p : has_handle p = true -> has_context p = true.
Proof. by destruct p. Qed.

Lemma in_body_scanned all p : in_body p = true -> to_scan all p = [].
Proof. by destruct p. Qed.

Lemma example_final_run :
  run (CState_init ["node0"]) example_schedule = Some example_final.
Proof.
  unfold example_final.
  destruct (run (CState_init ["node0"]) example_schedule) eqn:E; [done|].
  vm_compute in E. discriminate.
Qed.

(** C1, as stated, fails on the nodes that were busy when the call
    arrived.  Thread 0 is in RunTraffic on node0 when thread 1 arrives, so
    node0 is not idle at the entry of thread 1; the RPC of thread 0 finishes
    and sets node0 idle before the scan of thread 1 reads the flag; thread 1
    sends no CancelTraffic RPC and enters its body. *)
Lemma entry_busy_node_without_cancel_rpc :
  ~ (forall nodes s B,
       reachable nodes s -> in_body (pcs s B) = true ->
       (forall A, A <> B -> in_body (pcs s A) = false) /\
       (forall a, a ∈ entry_busy s B -> a ∈ cancel_targets s B) /\
       (forall A A', has_context (pcs s A) = true ->
                     has_context (pcs s A') = true -> A = A')).
Proof.
  intros H.
  destruct (H ["node0"] example_final 1%nat) as (_ & Htargets & _).
  - exists example_schedule. apply example_final_run.
  - vm_compute. reflexivity.
  - specialize (Htargets "node0").
    assert (Hin : "node0" ∈ cancel_targets example_final 1%nat).
    { apply Htargets. vm_compute. left. }
    vm_compute in Hin. by apply elem_of_nil in Hin.
Qed.

Lemma example_final_cancel_run :
  run (CState_init ["node0"]) example_schedule_cancel = Some example_final_cancel.
Proof.
  unfold example_final_cancel.
  destruct (run (CState_init ["node0"]) example_schedule_cancel) eqn:E; [done|].
  vm_compute in E. discriminate.
Qed.

(** Both ways in which a node that was busy at the arrival of a call is
    dealt with occur.  In the first schedule the flag of node0 is set back
    by the RunTraffic RPC of thread 0 before the scan of thread 1 reads it,
    and thread 1 sends no CancelTraffic RPC.  In the second the scan of
    thread 1 reads the flag while it is false and sends the RPC; the
    completions that set the flag afterwards, that of thread 1's own RPC
    among them, are not in the history. *)
Lemma entry_busy_node_both_ways :
  (entry_busy example_final 1%nat = ["node0"] /\
   cancel_targets example_final 1%nat = [] /\
   idled_before_scan example_final 1%nat = [("node0", 0%nat, RunTrafficRpc)]) /\
  (reachable ["node0"] example_final_cancel /\
   in_body (pcs example_final_cancel 1%nat) = true /\
   entry_busy example_final_cancel 1%nat = ["node0"] /\
   cancel_targets example_final_cancel 1%nat = ["node0"] /\
   idled_before_scan example_final_cancel 1%nat = []).
Proof.
  split; [by vm_compute|].
  split; [exists example_schedule_cancel; apply example_final_cancel_run|].
  by vm_compute.
Qed.

(** C1, as the code has it.  In every state that the calls can reach, a
    call B that is inside its body is the only one inside a body, and the
    context and the notification that are installed are those of B.  Every
    node that was not idle when B arrived has been the target of a
    CancelTraffic RPC of the entry broadcast of B, or else its flag was
    set back to true by a finished RPC of another call (the
    RunTraffic RPC of the running sequence, or the CancelTraffic RPC of
    another call) after B arrived and before the scan of B read that flag.
    At any moment, one call at most has its context installed. *)
Theorem RunTestSequence_preemption nodes s B :
  reachable nodes s ->
  in_body (pcs s B) = true ->
  (forall A, A <> B -> in_body (pcs s A) = false) /\
  (forall a, a ∈ entry_busy s B ->
             a ∈ cancel_targets s B \/
             exists A k, A <> B /\ (k = RunTrafficRpc \/ k = CancelTrafficRpc) /\
                         (a, A, k) ∈ idled_before_scan s B) /\
  running_test_sequence_context_ s = Some B /\
  running_test_notification_ s = Some B /\
  (forall A A', has_context (pcs s A) = true ->
                has_context (pcs s A') = true -> A = A').
Proof.
  intros Hreach Hbody.
  destruct (reachable_invariants _ _ Hreach) as (M & (C1 & C2 & C3) & (K & J)).
  pose proof (in_body_has_handle _ Hbody) as Hh.
  pose proof (has_handle_has_context _ Hh) as Hc.
  assert (Hctx : running_test_sequence_context_ s = Some B) by (by apply C1).
  split; [|split; [|split; [done|split; [by apply C2|]]]].
  - intros A Hne. destruct (in_body (pcs s A)) eqn:HA; [|done].
    apply in_body_has_handle, has_handle_has_context, C1 in HA. congruence.
  - intros a Ha. destruct (K B a Ha) as [?|[(A & k & Hin)|[Hscan _]]]; [by left| |].
    + right. exists A, k. destruct (J B a A k Hin) as [? ?]. done.
    + rewrite in_body_scanned in Hscan by done. by apply elem_of_nil in Hscan.
  - intros A A' HA HA'. apply C1 in HA, HA'. congruence.
Qed.

(** C1 on the schedule of the two calls: thread 1 is in its body at the
    end. *)
Lemma RunTestSequence_preemption_witness :
  (forall A, A <> 1%nat -> in_body (pcs example_final A) = false) /\
  (forall a, a ∈ entry_busy example_final 1%nat ->
             a ∈ cancel_targets example_final 1%nat \/
             exists A k, A <> 1%nat /\ (k = RunTrafficRpc \/ k = CancelTrafficRpc) /\
                         (a, A, k) ∈ idled_before_scan example_final 1%nat) /\
  running_test_sequence_context_ example_final = Some 1%nat /\
  running_test_notification_ example_final = Some 1%nat /\
  (forall A A', has_context (pcs example_final A) = true ->
                has_context (pcs example_final A') = true -> A = A').
Proof.
  apply (RunTestSequence_preemption ["node0"] example_final 1%nat).
  - exists example_schedule. apply example_final_run.
  - vm_compute. reflexivity.
Defined.

(** * Further properties *)

(** ** RegisterNode: rejection, and what a call leaves alone *)

(** X1: A payload with an empty hostname or a control port that is not positive
    is answered with INVALID_ARGUMENT, and only such a payload is; the
    registry and the response object are then the ones before the call. *)
Theorem RegisterNode_rejects_exactly_invalid
    (DebugString : NodeRegistration -> string) NewStub st r resp :
  (code (RegisterNode DebugString NewStub st r resp).1.1 = INVALID_ARGUMENT
   <-> (hostname r = "" \/ control_port r <= 0)) /\
  (code (RegisterNode DebugString NewStub st r resp).1.1 = INVALID_ARGUMENT ->
   RegisterNode DebugString NewStub st r resp
   = (mkStatus INVALID_ARGUMENT "Invalid Registration", resp, st)).
Proof.
  destruct (decide (valid_registration r)) as [Hv|Hv].
  - rewrite RegisterNode_valid by done. simpl.
    destruct Hv as [Hh Hp].
    destruct (NewStub (node_service_of r)); simpl;
      (split; [split; [discriminate|intros [?|?]; [done|lia]]|discriminate]).
  - rewrite RegisterNode_invalid by done. simpl. split; [|done].
    split; [|done]. intros _.
    destruct (decide (hostname r = "")) as [?|Hh]; [by left|]. right.
    destruct (Z_le_gt_dec (control_port r) 0) as [?|Hp]; [done|].
    exfalso. apply Hv. split; [done|lia].
Qed.

(** X2: Whatever a call returns, every node that was registered is registered
    after it under the same alias, with the idle flag it had. *)
Theorem RegisterNode_keeps_nodes_and_idle_flags
    (DebugString : NodeRegistration -> string) NewStub st r resp a node :
  node_map_ st !! a = Some node ->
  exists node',
    node_map_ (RegisterNode DebugString NewStub st r resp).2 !! a = Some node' /\
    idle node' = idle node.
Proof.
  intros Ha.
  destruct (decide (valid_registration r)) as [Hv|Hv].
  - rewrite RegisterNode_valid by done. simpl.
    destruct (NewStub (node_service_of r)) as [stub|]; simpl; [|eauto].
    destruct (decide (a = alias_of (chosen_id DebugString st r))) as [->|Hne].
    + rewrite lookup_insert_eq, Ha. eauto.
    + rewrite lookup_insert_ne by done. eauto.
  - rewrite RegisterNode_invalid by done. simpl. eauto.
Qed.

Lemma RegisterNode_keeps_nodes_and_idle_flags_witness :
  exists node',
    node_map_ (RegisterNode (fun r => hostname r) stub_always
                 (mkSequencer example_busy_node ∅) example_h2
                 NodeConfig_default).2 !! "node0" = Some node' /\
    idle node' = idle (example_node "h1" false).
Proof.
  apply (RegisterNode_keeps_nodes_and_idle_flags (fun r => hostname r) stub_always
           (mkSequencer example_busy_node ∅) example_h2 NodeConfig_default
           "node0" (example_node "h1" false)).
  vm_compute. reflexivity.
Defined.

(** X3: A call that gets its stub stores the payload and the stub under the
    alias it returns, which is node followed by the id it returns; the node
    is idle when the alias is new and keeps its flag otherwise; the payload
    is recorded with that id; every other alias has the entry it had. *)
Theorem RegisterNode_success_entry
    (DebugString : NodeRegistration -> string) NewStub st r resp stub :
  valid_registration r ->
  NewStub (node_service_of r) = Some stub ->
  exists id st',
    RegisterNode DebugString NewStub st r resp
    = (Status_OK, mkNodeConfig id (alias_of id), st') /\
    node_map_ st' !! alias_of id
    = Some (mkNode r stub (default true (idle <$> node_map_ st !! alias_of id))) /\
    node_id_map_ st' !! DebugString r = Some id /\
    (forall a, a <> alias_of id -> node_map_ st' !! a = node_map_ st !! a) /\
    (forall k, k <> DebugString r -> node_id_map_ st' !! k = node_id_map_ st !! k).
Proof.
  intros Hv Hstub. rewrite RegisterNode_valid by done. simpl. rewrite Hstub.
  eexists _, _. split; [reflexivity|]. simpl.
  split; [|split; [by rewrite lookup_insert_eq|split]].
  - rewrite lookup_insert_eq.
    by destruct (node_map_ st !! alias_of (chosen_id DebugString st r)).
  - intros a Ha. by rewrite lookup_insert_ne.
  - intros k Hk. by rewrite lookup_insert_ne.
Qed.

Lemma RegisterNode_success_entry_witness :
  exists id st',
    RegisterNode (fun r => hostname r) stub_always
      (mkSequencer example_busy_node ∅) example_h1 NodeConfig_default
    = (Status_OK, mkNodeConfig id (alias_of id), st') /\
    node_map_ st' !! alias_of id
    = Some (mkNode example_h1 (mkStub (node_service_of example_h1))
              (default true (idle <$> example_busy_node !! alias_of id))) /\
    node_id_map_ st' !! "h1" = Some id /\
    (forall a, a <> alias_of id -> node_map_ st' !! a = example_busy_node !! a) /\
    (forall k, k <> "h1" -> node_id_map_ st' !! k = (∅ : gmap string Z) !! k).
Proof.
  apply (RegisterNode_success_entry (fun r => hostname r) stub_always
           (mkSequencer example_busy_node ∅) example_h1 NodeConfig_default
           (mkStub (node_service_of example_h1))).
  - split; [done|simpl; lia].
  - reflexivity.
Defined.

(** ** RegisterNode: the shape of the registry *)

(** X4: After a series of calls on the empty registry that all return OK (fewer
    than 2^31 of them), the aliases of the registry are node0, node1, ... up
    to the size of the node map, without a gap, and every id that a call
    returned is below that size and names a registered alias. *)
Theorem RegisterNodes_aliases_without_gap
    (DebugString : NodeRegistration -> string) calls results st' :
  RegisterNodes DebugString Sequencer_init calls = (results, st') ->
  Forall (fun sr => code sr.1 = OK) results ->
  Z.of_nat (length calls) < 2 ^ 31 ->
  (forall a, is_Some (node_map_ st' !! a) <->
             exists i, 0 <= i < Z.of_nat (size (node_map_ st')) /\ a = alias_of i) /\
  (forall s c, (s, c) ∈ results ->
     0 <= node_id c < Z.of_nat (size (node_map_ st')) /\
     node_alias c = alias_of (node_id c) /\
     is_Some (node_map_ st' !! node_alias c)).
Proof.
  intros Hrun Hok Hlen.
  destruct (RegisterNodes_keeps_inv DebugString calls Sequencer_init results st'
              (Registry_inv_init)) as ((I1 & I2 & I3 & I4) & _ & _ & Hres);
    [simpl; rewrite map_size_empty; simpl; lia|done|done|].
  split; [done|].
  intros s c Hin. apply list_elem_of_lookup in Hin as [i Hi].
  assert (Hlen' : length results = length calls).
  { clear -Hrun. revert results st' Hrun. generalize Sequencer_init.
    induction calls as [|[NS r] calls IH]; intros st results st' Hrun; simpl in Hrun.
    - by injection Hrun as <- _.
    - destruct (RegisterNode DebugString NS st r NodeConfig_default) as [[s c] st1].
      destruct (RegisterNodes DebugString st1 calls) as [rs st2] eqn:E.
      injection Hrun as <- _. simpl. f_equal. by eapply IH. }
  assert (Hlt : (i < length calls)%nat).
  { rewrite <- Hlen'. by eapply lookup_lt_Some. }
  destruct (lookup_lt_is_Some_2 calls i Hlt) as [[NS r] Hcall].
  destruct (Hres i r c) as [Hid Hal].
  { by rewrite list_lookup_fmap, Hcall. }
  { by rewrite list_lookup_fmap, Hi. }
  split; [by eapply I2|]. split; [done|].
  rewrite Hal. apply I1. exists (node_id c). split; [by eapply I2|done].
Qed.

Lemma RegisterNodes_aliases_without_gap_witness :
  let DS := fun r => hostname r in
  let calls := [(stub_always, example_h1); (stub_always, example_h2);
                (stub_always, example_h1)] in
  let results := (RegisterNodes DS Sequencer_init calls).1 in
  let st' := (RegisterNodes DS Sequencer_init calls).2 in
  (forall a, is_Some (node_map_ st' !! a) <->
             exists i, 0 <= i < Z.of_nat (size (node_map_ st')) /\ a = alias_of i) /\
  (forall s c, (s, c) ∈ results ->
     0 <= node_id c < Z.of_nat (size (node_map_ st')) /\
     node_alias c = alias_of (node_id c) /\
     is_Some (node_map_ st' !! node_alias c)).
Proof.
  intros DS calls results st'.
  apply (RegisterNodes_aliases_without_gap DS calls results st').
  - subst results st'. by destruct (RegisterNodes DS Sequencer_init calls).
  - subst results calls DS. vm_compute. repeat constructor.
  - simpl. lia.
Defined.

(** X5: A stub construction that fails leaves an id behind which is handed out
    twice: when the first call ever fails for the payload p1, a different
    payload p2 that registers next gets the id 0 and the alias node0, and p1,
    registering again, gets the id 0 and the alias node0 as well and takes
    the place of p2 in the node map, which has one entry. *)
Theorem stub_failure_makes_two_payloads_share_an_alias
    (DebugString : NodeRegistration -> string) p1 p2 :
  valid_registration p1 -> valid_registration p2 ->
  DebugString p1 <> DebugString p2 ->
  exists st',
    RegisterNodes DebugString Sequencer_init
      [(stub_never, p1); (stub_always, p2); (stub_always, p1)]
    = ([(mkStatus UNKNOWN "Could not create node stub.", NodeConfig_default);
        (Status_OK, mkNodeConfig 0 "node0");
        (Status_OK, mkNodeConfig 0 "node0")], st')
    /\ registration <$> (node_map_ st' !! "node0") = Some p1
    /\ size (node_map_ st') = 1%nat.
Proof. apply stub_failure_then_shared_alias. Qed.

Lemma stub_failure_makes_two_payloads_share_an_alias_witness :
  exists st',
    RegisterNodes (fun r => hostname r) Sequencer_init
      [(stub_never, example_h1); (stub_always, example_h2); (stub_always, example_h1)]
    = ([(mkStatus UNKNOWN "Could not create node stub.", NodeConfig_default);
        (Status_OK, mkNodeConfig 0 "node0");
        (Status_OK, mkNodeConfig 0 "node0")], st')
    /\ registration <$> (node_map_ st' !! "node0") = Some example_h1
    /\ size (node_map_ st') = 1%nat.
Proof.
  apply (stub_failure_makes_two_payloads_share_an_alias
           (fun r => hostname r) example_h1 example_h2).
  - split; [done|simpl; lia].
  - split; [done|simpl; lia].
  - done.
Defined.

(** ** Placement: the requested services *)

(** X6: The set of the requested services holds the names server_type/i for the
    indices i from 0 to count - 1 of every entry, each name once, in
    increasing order; an entry whose count is zero or negative adds
    nothing, and two entries of one server type add the instances of the
    larger count. *)
Theorem expand_services_requested svcs :
  NoDup (expand_services svcs) /\
  StronglySorted String.le (expand_services svcs) /\
  (forall x, x ∈ expand_services svcs <->
     exists sn i, sn ∈ svcs /\ 0 <= i < count sn /\
                  x = service_instance (server_type sn) i).
Proof. apply expand_services_spec. Qed.

(** ** Placement: the bundles are honoured *)

Lemma placed_on_map_alter_new f k x (m : ServiceMap) :
  k ∈ m.*1 -> (forall s, x ∈ f s) -> placed_on (map_alter f k m) k x.
Proof.
  intros Hk Hf. induction m as [|[k' v] m IH]; csimpl in *.
  - by apply elem_of_nil in Hk.
  - case_bool_decide as E.
    + subst. exists (f v). split; [left|apply Hf].
    + apply elem_of_cons in Hk as [->|Hk]; [done|].
      destruct (IH Hk) as (s & Hin & Hx). exists s. split; [by right|done].
Qed.

Lemma placed_on_sorted_place (m : ServiceMap) e a x :
  placed_on (e :: m) a x -> placed_on (sorted_place fst e m) a x.
Proof.
  intros (s & Hin & Hx). exists s. split; [|done].
  by rewrite sorted_place_perm.
Qed.

Lemma placed_on_map_at_new k x (m : ServiceMap) :
  placed_on (map_at k (set_insert x) m) k x.
Proof.
  unfold map_at. case_bool_decide as E.
  - apply placed_on_map_alter_new; [done|].
    intros s. apply elem_of_set_insert. by left.
  - apply placed_on_sorted_place. exists (set_insert x []).
    split; [left|]. apply elem_of_set_insert. by left.
Qed.

Lemma placed_on_map_alter_keep f k (m : ServiceMap) a y :
  (forall s, y ∈ s -> y ∈ f s) ->
  placed_on m a y -> placed_on (map_alter f k m) a y.
Proof.
  intros Hf (s & Hin & Hy). induction m as [|[k' v] m IH]; csimpl in *.
  - by apply elem_of_nil in Hin.
  - apply elem_of_cons in Hin as [Heq|Hin].
    + injection Heq as <- <-. case_bool_decide.
      * exists (f s). split; [left|by apply Hf].
      * exists s. split; [left|done].
    + destruct (IH Hin) as (s' & Hin' & Hy').
      case_bool_decide.
      * exists s. split; [by right|done].
      * exists s'. split; [by right|done].
Qed.

Lemma placed_on_map_at_keep f k (m : ServiceMap) a y :
  (forall s, y ∈ s -> y ∈ f s) ->
  placed_on m a y -> placed_on (map_at k f m) a y.
Proof.
  intros Hf Hp. unfold map_at. case_bool_decide.
  - by apply placed_on_map_alter_keep.
  - apply placed_on_sorted_place. destruct Hp as (s & Hin & Hy).
    exists s. split; [by right|done].
Qed.

Lemma set_insert_keeps x y s : y ∈ s -> y ∈ set_insert x s.
Proof. intros. apply elem_of_set_insert. by right. Qed.

Lemma place_bundle_services_placed alias bundle : forall unplaced nsm unplaced' nsm',
  place_bundle_services alias bundle unplaced nsm = inr (unplaced', nsm') ->
  (forall x, x ∈ bundle -> placed_on nsm' alias x) /\
  (forall a y, placed_on nsm a y -> placed_on nsm' a y).
Proof.
  induction bundle as [|service bundle IH]; intros unplaced nsm unplaced' nsm' Hrun;
    simpl in Hrun.
  - injection Hrun as <- <-. split; [|done]. intros x Hx. by apply elem_of_nil in Hx.
  - case_bool_decide; [|done].
    destruct (IH _ _ _ _ Hrun) as [Hnew Hkeep]. split.
    + intros x Hx. apply elem_of_cons in Hx as [->|Hx]; [|by apply Hnew].
      apply Hkeep, placed_on_map_at_new.
    + intros a y Hp. apply Hkeep, placed_on_map_at_keep; [|done].
      intros s. apply set_insert_keeps.
Qed.

Lemma place_bundles_placed bundles : forall unplaced idle nsm unplaced' idle' nsm',
  place_bundles bundles unplaced idle nsm = inr (unplaced', idle', nsm') ->
  (forall a svcs x, (a, svcs) ∈ bundles -> x ∈ svcs -> placed_on nsm' a x) /\
  (forall a y, placed_on nsm a y -> placed_on nsm' a y).
Proof.
  induction bundles as [|[alias bundle] bundles IH];
    intros unplaced idle nsm unplaced' idle' nsm' Hrun; simpl in Hrun.
  - injection Hrun as <- <- <-. split; [|done].
    intros a svcs x Hin. by apply elem_of_nil in Hin.
  - destruct (place_bundle_services alias bundle unplaced nsm)
      as [e|[unplaced1 nsm1]] eqn:Hinner; [done|].
    case_bool_decide; [|done].
    destruct (place_bundle_services_placed _ _ _ _ _ _ Hinner) as [Hnew1 Hkeep1].
    destruct (IH _ _ _ _ _ _ Hrun) as [Hnew Hkeep]. split.
    + intros a svcs x Hin Hx. apply elem_of_cons in Hin as [Heq|Hin].
      * injection Heq as -> ->. by apply Hkeep, Hnew1.
      * by eapply Hnew.
    + intros a y Hp. by apply Hkeep, Hkeep1.
Qed.

Lemma auto_place_keeps unplaced : forall idle nsm failures a y,
  placed_on nsm a y ->
  placed_on (fold_left auto_place_step unplaced (idle, nsm, failures)).1.2 a y.
Proof.
  induction unplaced as [|service unplaced IH]; intros idle nsm failures a y Hp; [done|].
  destruct idle as [|it idle]; simpl.
  - by apply IH.
  - apply IH, placed_on_map_at_keep; [|done]. intros s. apply set_insert_keeps.
Qed.

Lemma fold_map_at_id_keeps l : forall (m : ServiceMap) a y,
  placed_on m a y ->
  placed_on (fold_left (fun m idle_node => map_at idle_node id m) l m) a y.
Proof.
  induction l as [|k l IH]; intros m a y Hp; [done|].
  simpl. by apply IH, placed_on_map_at_keep.
Qed.

(** X7: When the placement succeeds, every service that a bundle names is in
    the set of the alias of that bundle, and in the set of no other
    alias. *)
Theorem place_services_honours_bundles nm test nsm a svcs x :
  place_services nm test = inr nsm ->
  (a, svcs) ∈ node_service_bundles test ->
  x ∈ svcs ->
  placed_on nsm a x /\ (forall a', placed_on nsm a' x -> a' = a).
Proof.
  intros Hrun Hin Hx.
  assert (Hp : placed_on nsm a x).
  { destruct (place_services_inr _ _ _ Hrun)
      as (_ & unplaced & idle & nsm1 & nsm2 & Hb & Hauto & _ & ->).
    destruct (place_bundles_placed _ _ _ _ _ _ _ Hb) as [Hnew _].
    apply fold_map_at_id_keeps.
    pose proof (auto_place_keeps unplaced idle nsm1 "" a x (Hnew a svcs x Hin Hx)) as Hk.
    unfold auto_place in Hauto. by rewrite Hauto in Hk. }
  split; [done|].
  destruct (place_services_spec _ _ _ Hrun) as (_ & _ & _ & _ & Huniq & _).
  destruct Hp as (s & Hs & Hxs). intros a' (s' & Hs' & Hxs'). by eapply Huniq.
Qed.

Lemma place_services_honours_bundles_witness :
  placed_on [("node0", ["A/0"]); ("node1", ["A/1"])] "node1" "A/1" /\
  (forall a', placed_on [("node0", ["A/0"]); ("node1", ["A/1"])] a' "A/1" -> a' = "node1").
Proof.
  apply (place_services_honours_bundles example_two_nodes
           (mkDescription [mkServiceSpec "A" 2] [("node1", ["A/1"])])
           [("node0", ["A/0"]); ("node1", ["A/1"])] "node1" ["A/1"] "A/1").
  - vm_compute. reflexivity.
  - left.
  - left.
Defined.

(** ** Placement without bundles *)

Lemma sorted_place_append {A} (key : A -> string) x l :
  Forall (fun y => String.ltb (key x) (key y) = false) l ->
  sorted_place key x l = l ++ [x].
Proof.
  induction 1 as [|y l Hy Hl IH]; simpl; [done|]. by rewrite Hy, IH.
Qed.

Lemma le_ne_not_ltb x y : String.le y x -> y <> x -> String.ltb x y = false.
Proof.
  intros Hle Hne. destruct (String.ltb x y) eqn:E; [|done].
  apply ltb_le in E. exfalso. apply Hne. by apply (anti_symm String.le).
Qed.

(** A new key that comes after all keys goes to the end of the map. *)
Lemma map_at_append k f (m : ServiceMap) :
  StronglySorted String.le (m.*1 ++ [k]) -> NoDup (m.*1 ++ [k]) ->
  map_at k f m = m ++ [(k, f [])].
Proof.
  intros Hso Hnd. unfold map_at.
  apply NoDup_app in Hnd as (_ & Hdisj & _).
  rewrite bool_decide_eq_false_2.
  2:{ intros Hin. apply (Hdisj k Hin). left. }
  apply sorted_place_append. apply Forall_forall. intros [k' v] Hin. simpl.
  assert (Hk' : k' ∈ m.*1) by (apply list_elem_of_fmap; by exists (k', v)).
  apply le_ne_not_ltb.
  - eapply StronglySorted_app_1_elem_of; [exact Hso|done|left].
  - intros ->. apply (Hdisj k Hk'). left.
Qed.

Lemma sorted_nodup_prefix (l1 : list string) k l2 :
  StronglySorted String.le (l1 ++ k :: l2) -> NoDup (l1 ++ k :: l2) ->
  StronglySorted String.le (l1 ++ [k]) /\ NoDup (l1 ++ [k]) /\
  StronglySorted String.le ((l1 ++ [k]) ++ l2) /\ NoDup ((l1 ++ [k]) ++ l2).
Proof.
  intros Hso Hnd.
  assert (Heq : l1 ++ k :: l2 = (l1 ++ [k]) ++ l2) by (by rewrite <- app_assoc).
  rewrite Heq in Hso, Hnd. split; [|split; [|done]].
  - by apply StronglySorted_app_1_l in Hso.
  - by apply NoDup_app in Hnd as (? & _ & _).
Qed.

Lemma auto_place_layout unplaced : forall idle (pre : ServiceMap) failures,
  (length unplaced <= length idle)%nat ->
  StronglySorted String.le (pre.*1 ++ idle) -> NoDup (pre.*1 ++ idle) ->
  fold_left auto_place_step unplaced (idle, pre, failures)
  = (drop (length unplaced) idle,
     pre ++ ((fun p => (p.1, [p.2])) <$> zip idle unplaced), failures).
Proof.
  induction unplaced as [|u unplaced IH]; intros idle pre failures Hlen Hso Hnd.
  - simpl. rewrite drop_0. destruct idle; simpl; by rewrite app_nil_r.
  - destruct idle as [|it idle]; [simpl in Hlen; lia|].
    destruct (sorted_nodup_prefix _ _ _ Hso Hnd) as (Hso1 & Hnd1 & Hso2 & Hnd2).
    change (fold_left auto_place_step (u :: unplaced) (it :: idle, pre, failures))
      with (fold_left auto_place_step unplaced
              (idle, map_at it (set_insert u) pre, failures)).
    rewrite (map_at_append it (set_insert u) pre Hso1 Hnd1).
    rewrite IH.
    + csimpl. by rewrite <- app_assoc.
    + simpl in Hlen. lia.
    + by rewrite fmap_app.
    + by rewrite fmap_app.
Qed.

Lemma fold_map_at_id_layout l : forall (pre : ServiceMap),
  StronglySorted String.le (pre.*1 ++ l) -> NoDup (pre.*1 ++ l) ->
  fold_left (fun m idle_node => map_at idle_node id m) l pre
  = pre ++ ((fun a => (a, [])) <$> l).
Proof.
  induction l as [|k l IH]; intros pre Hso Hnd.
  - simpl. by rewrite app_nil_r.
  - destruct (sorted_nodup_prefix _ _ _ Hso Hnd) as (Hso1 & Hnd1 & Hso2 & Hnd2).
    simpl. rewrite (map_at_append k id pre Hso1 Hnd1).
    rewrite IH; [csimpl; by rewrite <- app_assoc|by rewrite fmap_app..].
Qed.

Lemma snapshot_nodes_length nm : length (snapshot_nodes nm) = size nm.
Proof.
  destruct (snapshot_nodes_spec nm) as (Hnd & _ & Hel).
  rewrite <- (size_dom (D := gset string)).
  rewrite <- (size_list_to_set (C := gset string) (snapshot_nodes nm)) by done.
  f_equal. apply set_eq. intros a.
  rewrite elem_of_list_to_set, Hel. by rewrite elem_of_dom.
Qed.

Lemma zip_layout_keys (idle unplaced : list string) :
  ((fun p : string * string => (p.1, [p.2])) <$> zip idle unplaced).*1
  = take (length unplaced) idle.
Proof.
  revert unplaced. induction idle as [|a idle IH]; intros [|u unplaced]; csimpl; try done.
  by rewrite IH.
Qed.

(** X8: A description without bundles, with services, and with no more
    requested instances than registered nodes, is placed by pairing the
    instances and the aliases in increasing order, one instance to a node;
    the aliases that are left get an empty set. *)
Theorem place_services_without_bundles nm test :
  services test <> [] ->
  node_service_bundles test = [] ->
  (length (expand_services (services test)) <= size nm)%nat ->
  place_services nm test
  = inr (auto_layout (snapshot_nodes nm) (expand_services (services test))).
Proof.
  intros Hsv Hb Hlen. rewrite <- snapshot_nodes_length in Hlen.
  destruct (snapshot_nodes_spec nm) as (Hnd & Hso & _).
  rewrite place_services_unfold by done. rewrite Hb. simpl.
  unfold auto_place.
  rewrite (auto_place_layout _ _ [] "" Hlen Hso Hnd).
  rewrite bool_decide_eq_true_2 by done. simpl.
  rewrite fold_map_at_id_layout; [done|..];
    by rewrite zip_layout_keys, take_drop.
Qed.

(** Three registered nodes and two instances of A: A/0 goes to node0, A/1 to
    node1, and node2 has an empty set. *)
Lemma place_services_without_bundles_witness :
  place_services example_three_nodes example_test
  = inr [("node0", ["A/0"]); ("node1", ["A/1"]); ("node2", [])].
Proof.
  eapply eq_trans.
  - apply (place_services_without_bundles example_three_nodes example_test).
    + done.
    + reflexivity.
    + vm_compute. lia.
  - vm_compute. reflexivity.
Defined.

(** ** Placement: when it succeeds *)

Lemma place_bundle_services_outcome alias bundle : forall unplaced nsm,
  NoDup unplaced ->
  match place_bundle_services alias bundle unplaced nsm with
  | inr (unplaced', _) =>
      NoDup bundle /\ (forall x, x ∈ bundle -> x ∈ unplaced) /\
      NoDup unplaced' /\
      (forall x, x ∈ unplaced' <-> x ∈ unplaced /\ x ∉ bundle) /\
      (length unplaced' + length bundle = length unplaced)%nat
  | inl e =>
      ~ (NoDup bundle /\ forall x, x ∈ bundle -> x ∈ unplaced) /\ code e = NOT_FOUND
  end.
Proof.
  induction bundle as [|service bundle IH]; intros unplaced nsm Hnd; simpl.
  - split; [constructor|]. split; [intros x Hx; by apply elem_of_nil in Hx|].
    split; [done|]. split; [|lia]. intros x. rewrite elem_of_nil. tauto.
  - case_bool_decide as Hin.
    + destruct (set_erase_NoDup service unplaced Hnd Hin) as [Hnd1 Hout].
      pose proof (fun y => elem_of_set_erase y service unplaced Hnd Hin) as Hel1.
      pose proof (Permutation_length (set_erase_perm service unplaced Hin)) as Hlen1.
      simpl in Hlen1.
      specialize (IH (set_erase service unplaced)
                     (map_at alias (set_insert service) nsm) Hnd1).
      destruct (place_bundle_services alias bundle (set_erase service unplaced)
                  (map_at alias (set_insert service) nsm)) as [e|[unplaced' nsm']].
      * destruct IH as [Hnot Hcode]. split; [|done]. intros [Hndb Hsub].
        apply NoDup_cons in Hndb as [Hsb Hndb]. apply Hnot. split; [done|].
        intros x Hx. apply Hel1. split; [apply Hsub; by right|]. by intros ->.
      * destruct IH as (Hndb & Hsub & Hnd' & Hel' & Hlen').
        split; [|split; [|split; [done|split; [|lia]]]].
        -- constructor; [|done]. intros Hsb. apply Hsub in Hsb. by apply Hout.
        -- intros x Hx. apply elem_of_cons in Hx as [->|Hx]; [done|].
           by apply Hsub, Hel1 in Hx as [? _].
        -- intros x. rewrite Hel', Hel1, not_elem_of_cons. tauto.
    + split; [|done]. intros [_ Hsub]. apply Hin, Hsub. left.
Qed.

Lemma place_bundles_outcome bundles : forall unplaced idle nsm,
  NoDup unplaced -> NoDup idle ->
  match place_bundles bundles unplaced idle nsm with
  | inr (unplaced', idle', _) =>
      valid_bundles bundles unplaced idle /\
      (length unplaced' + length (concat bundles.*2) = length unplaced)%nat /\
      (length idle' + length bundles = length idle)%nat
  | inl e => ~ valid_bundles bundles unplaced idle /\ code e = NOT_FOUND
  end.
Proof.
  unfold valid_bundles.
  induction bundles as [|[alias bundle] bundles IH]; intros unplaced idle nsm Hnd Hi;
    simpl place_bundles.
  - csimpl. split; [|lia]. split; [constructor|]. split; [by intros a ?%elem_of_nil|].
    split; [constructor|]. by intros x ?%elem_of_nil.
  - pose proof (place_bundle_services_outcome alias bundle unplaced nsm Hnd) as Hinner.
    destruct (place_bundle_services alias bundle unplaced nsm)
      as [e|[unplaced1 nsm1]].
    + destruct Hinner as [Hnot Hcode]. split; [|done].
      intros (_ & _ & Hnds & Hsub). csimpl in *. apply Hnot.
      apply NoDup_app in Hnds as (? & _ & _). split; [done|].
      intros x Hx. apply Hsub, elem_of_app. by left.
    + destruct Hinner as (Hndb & Hsubb & Hnd1 & Hel1 & Hlen1).
      case_bool_decide as Hal.
      * destruct (set_erase_NoDup alias idle Hi Hal) as [Hi1 Hout].
        pose proof (fun y => elem_of_set_erase y alias idle Hi Hal) as Heli.
        pose proof (Permutation_length (set_erase_perm alias idle Hal)) as Hleni.
        simpl in Hleni.
        specialize (IH unplaced1 (set_erase alias idle) nsm1 Hnd1 Hi1).
        destruct (place_bundles bundles unplaced1 (set_erase alias idle) nsm1)
          as [e|[[unplaced' idle'] nsm']].
        -- destruct IH as [Hnot Hcode]. split; [|done].
           intros (Hka & Hki & Hnds & Hsub). csimpl in *. apply Hnot.
           apply NoDup_cons in Hka as [Hak Hka].
           apply NoDup_app in Hnds as (_ & Hdisj & Hnds).
           split; [done|]. split; [|split; [done|]].
           ++ intros a Ha. apply Heli. split; [apply Hki; by right|]. by intros ->.
           ++ intros x Hx. apply Hel1. split; [apply Hsub, elem_of_app; by right|].
              intros Hxb. by apply (Hdisj x Hxb).
        -- destruct IH as ((Hka & Hki & Hnds & Hsub) & Hlen' & Hleni').
           csimpl. rewrite length_app. split; [|lia].
           split; [|split; [|split]].
           ++ constructor; [|done]. intros Ha. apply Hki in Ha. by apply Hout.
           ++ intros a Ha. apply elem_of_cons in Ha as [->|Ha]; [done|].
              by apply Hki, Heli in Ha as [? _].
           ++ apply NoDup_app. split; [done|]. split; [|done].
              intros x Hxb Hxs. apply Hsub, Hel1 in Hxs as [_ ?]. done.
           ++ intros x Hx. apply elem_of_app in Hx as [Hx|Hx]; [by apply Hsubb|].
              by apply Hsub, Hel1 in Hx as [? _].
      * split; [|done]. intros (_ & Hki & _). apply Hal, Hki. csimpl. left.
Qed.

(** X9: The placement succeeds exactly when the description has a service,
    no alias is named by two bundles, every alias of a bundle is registered,
    no service is named twice by the bundles, every service of a bundle is a
    requested instance, and the requested instances that no bundle names are
    no more than the registered nodes that no bundle names.  When it fails,
    the error is INVALID_ARGUMENT for a description without services and
    NOT_FOUND otherwise. *)
Theorem place_services_succeeds_iff nm test :
  ((exists nsm, place_services nm test = inr nsm) <->
   services test <> [] /\
   NoDup (node_service_bundles test).*1 /\
   (forall a, a ∈ (node_service_bundles test).*1 -> is_Some (nm !! a)) /\
   NoDup (concat (node_service_bundles test).*2) /\
   (forall x, x ∈ concat (node_service_bundles test).*2 ->
              x ∈ expand_services (services test)) /\
   (length (expand_services (services test)) + length (node_service_bundles test)
    <= size nm + length (concat (node_service_bundles test).*2))%nat) /\
  (forall e, place_services nm test = inl e ->
     code e = if bool_decide (services test = []) then INVALID_ARGUMENT else NOT_FOUND).
Proof.
  destruct (decide (services test = [])) as [Hsv|Hsv].
  { unfold place_services. rewrite Hsv. split.
    - split; [by intros [nsm ?]|]. by intros [? _].
    - intros e He. injection He as <-. done. }
  rewrite place_services_unfold by done.
  rewrite (bool_decide_eq_false_2 _ Hsv).
  destruct (expand_services_spec (services test)) as (Hnd & _ & Hel).
  destruct (snapshot_nodes_spec nm) as (Hind & _ & Hiel).
  pose proof (place_bundles_outcome (node_service_bundles test)
                (expand_services (services test)) (snapshot_nodes nm) [] Hnd Hind)
    as Hout.
  pose proof (place_bundles_spec (node_service_bundles test)
                (expand_services (services test)) (snapshot_nodes nm) []) as Hspec.
  unfold valid_bundles in Hout. rewrite snapshot_nodes_length in Hout.
  destruct (place_bundles _ _ _ _) as [e|[[unplaced idle] nsm1]].
  - destruct Hout as [Hnot Hcode]. split.
    + split; [by intros [nsm ?]|].
      intros (_ & H1 & H2 & H3 & H4 & _). exfalso. apply Hnot.
      split; [done|]. split; [|done]. intros a Ha. by apply Hiel, H2.
    + intros e' He'. by injection He' as <-.
  - destruct Hout as ((H1 & H2 & H3 & H4) & Hlu & Hli).
    destruct (Hspec unplaced idle nsm1 eq_refl) as (Hp & Hk & _);
      [by rewrite app_nil_r|constructor|done|].
    csimpl in Hp. rewrite app_nil_r in Hp.
    destruct (auto_place_spec unplaced idle nsm1 "") as (nsm2 & Hauto & _);
      [by rewrite Hp|done|].
    unfold auto_place. rewrite Hauto.
    assert (Hne : Forall (fun s => s <> "") (drop (length idle) unplaced)).
    { apply Forall_forall. intros x Hx.
      assert (x ∈ expand_services (services test)) as Hx'.
      { rewrite <- Hp. apply elem_of_app. left. by eapply elem_of_drop_elem_of. }
      apply Hel in Hx' as (sn' & i & _ & _ & ->). apply service_instance_nonempty. }
    case_bool_decide as Hf.
    + apply (failures_append_empty _ Hne), drop_nil_inv in Hf. split.
      * split; [|by eauto]. intros _. split; [done|]. split; [done|].
        split; [intros a Ha; by apply Hiel, H2|]. split; [done|]. split; [done|].
        lia.
      * intros e He. discriminate.
    + split.
      * split; [by intros [nsm ?]|].
        intros (_ & _ & _ & _ & _ & Hcount). exfalso. apply Hf.
        rewrite drop_ge by lia. done.
      * intros e He. by injection He as <-.
Qed.

(** ** Completion queues: waiting and skipping *)

(** While fewer completions have arrived than RPCs are outstanding, the
    loop does not end: it stays in [cq.Next]. *)
Lemma drain_short {R S} (finish : CqEvent R -> S -> option S) cq : forall n s,
  (length (finished cq) < n)%nat -> drain finish cq n s = None.
Proof.
  unfold finished.
  induction cq as [|ev cq IH]; intros n s Hlen.
  - destruct n; [simpl in Hlen; lia|done].
  - destruct n as [|n]; [lia|]. rewrite filter_cons in Hlen. simpl.
    destruct (ev_ok ev) eqn:Hok.
    + rewrite decide_True in Hlen by done. simpl in Hlen.
      destruct (finish ev s); [|done]. apply IH. lia.
    + rewrite decide_False in Hlen by done. by apply IH.
Qed.

(** The events whose [ok] flag is false change nothing. *)
Lemma drain_skips_not_ok {R S} (finish : CqEvent R -> S -> option S) cq : forall n s,
  fst <$> drain finish cq n s = fst <$> drain finish (finished cq) n s.
Proof.
  unfold finished.
  induction cq as [|ev cq IH]; intros n s; [done|].
  rewrite filter_cons. destruct n as [|n].
  { destruct (decide (ev_ok ev = true)); [reflexivity|].
    by destruct (filter _ cq). }
  simpl. destruct (ev_ok ev) eqn:Hok.
  - rewrite decide_True by done. simpl. rewrite Hok.
    destruct (finish ev s); [|done]. apply IH.
  - rewrite decide_False by done. apply IH.
Qed.

Lemma ConfigureNodes_issue_unknown nm test nsm a :
  a ∈ nsm.*1 -> nm !! a = None -> ConfigureNodes_issue nm test nsm = None.
Proof.
  induction nsm as [|[alias svcs] nsm IH]; csimpl; intros Ha Hn.
  - by apply elem_of_nil in Ha.
  - destruct (nm !! alias) eqn:E; [|done].
    apply elem_of_cons in Ha as [->|Ha]; [congruence|]. by rewrite IH.
Qed.

Lemma IntroducePeers_issue_unknown nm service_map nsm a :
  a ∈ nsm.*1 -> nm !! a = None -> IntroducePeers_issue nm service_map nsm = None.
Proof.
  induction nsm as [|[alias svcs] nsm IH]; csimpl; intros Ha Hn.
  - by apply elem_of_nil in Ha.
  - destruct (nm !! alias) eqn:E; [|done].
    apply elem_of_cons in Ha as [->|Ha]; [congruence|]. by rewrite IH.
Qed.

Lemma RunTraffic_issue_unknown nsm : forall nm trace a,
  a ∈ nsm.*1 -> nm !! a = None -> RunTraffic_issue nm nsm trace = None.
Proof.
  induction nsm as [|[alias svcs] nsm IH]; csimpl; intros nm trace a Ha Hn.
  - by apply elem_of_nil in Ha.
  - destruct (nm !! alias) as [node|] eqn:E; [|done].
    apply elem_of_cons in Ha as [->|Ha]; [congruence|].
    rewrite (IH _ _ a Ha); [done|].
    rewrite lookup_insert_ne; [done|]. intros <-. congruence.
Qed.

(** X10: A placement that names an alias without an entry in the node map stops
    each of the three phases at its QCHECK: none of them returns. *)
Theorem phases_abort_on_unknown_alias nm nsm test service_map cqc cqi cqt a :
  a ∈ nsm.*1 ->
  nm !! a = None ->
  ConfigureNodes nm nsm test cqc = None /\
  IntroducePeers nm nsm service_map cqi = None /\
  RunTraffic nm nsm cqt = None.
Proof.
  intros Ha Hn.
  unfold ConfigureNodes, ConfigureNodes_loop, IntroducePeers, IntroducePeers_loop,
    RunTraffic, RunTraffic_loop.
  rewrite (ConfigureNodes_issue_unknown _ _ _ a Ha Hn).
  rewrite (IntroducePeers_issue_unknown _ _ _ a Ha Hn).
  by rewrite (RunTraffic_issue_unknown _ _ _ a Ha Hn).
Qed.

Lemma phases_abort_on_unknown_alias_witness :
  ConfigureNodes example_busy_node example_placement example_test [] = None /\
  IntroducePeers example_busy_node example_placement ∅ [] = None /\
  RunTraffic example_busy_node example_placement [] = None.
Proof.
  apply (phases_abort_on_unknown_alias example_busy_node example_placement
           example_test ∅ [] [] [] "node1").
  - right. left.
  - vm_compute. reflexivity.
Defined.

(** X11: A phase does not return before the completion of every RPC it issued
    has arrived: with fewer completions in the queue than aliases in the
    placement, none of the three phases returns, whatever the statuses of
    the completions that did arrive. *)
Theorem phases_wait_for_every_completion nm nsm test service_map cqc cqi cqt :
  (length (finished cqc) < length nsm)%nat ->
  (length (finished cqi) < length nsm)%nat ->
  (length (finished cqt) < length nsm)%nat ->
  ConfigureNodes nm nsm test cqc = None /\
  IntroducePeers nm nsm service_map cqi = None /\
  RunTraffic nm nsm cqt = None.
Proof.
  intros Hc Hi Ht.
  unfold ConfigureNodes, ConfigureNodes_loop, IntroducePeers, IntroducePeers_loop,
    RunTraffic, RunTraffic_loop.
  split; [|split].
  - destruct (ConfigureNodes_issue nm test nsm) as [pending|] eqn:E; [|done].
    assert (length pending = length nsm) as Hlen.
    { clear -E. revert pending E.
      induction nsm as [|[a s] nsm IH]; simpl; intros pending E.
      - by injection E as <-.
      - destruct (nm !! a); [|done].
        destruct (ConfigureNodes_issue nm test nsm); [|done].
        injection E as <-. simpl. f_equal. by apply IH. }
    rewrite drain_short; [done|lia].
  - destruct (IntroducePeers_issue nm service_map nsm) as [pending|] eqn:E; [|done].
    assert (length pending = length nsm) as Hlen.
    { clear -E. revert pending E.
      induction nsm as [|[a s] nsm IH]; simpl; intros pending E.
      - by injection E as <-.
      - destruct (nm !! a); [|done].
        destruct (IntroducePeers_issue nm service_map nsm); [|done].
        injection E as <-. simpl. f_equal. by apply IH. }
    rewrite drain_short; [done|lia].
  - destruct (RunTraffic_issue nm nsm []) as [[[nm1 pending] trace]|] eqn:E; [|done].
    assert (length pending = length nsm) as Hlen.
    { clear -E. revert nm nm1 pending trace E. generalize (@nil Event).
      induction nsm as [|[a s] nsm IH]; simpl; intros tr0 nm nm1 pending trace E.
      - by injection E as _ <- _.
      - destruct (nm !! a); [|done].
        destruct (RunTraffic_issue _ nsm _) as [[[nm2 p2] t2]|] eqn:E2; [|done].
        injection E as _ <- _. simpl. f_equal. by eapply IH. }
    rewrite drain_short; [done|lia].
Qed.

Lemma phases_wait_for_every_completion_witness :
  ConfigureNodes example_two_nodes example_placement example_test
    [mkCqEvent true 0 Status_OK ∅; mkCqEvent false 1 Status_OK ∅] = None /\
  IntroducePeers example_two_nodes example_placement ∅ [] = None /\
  RunTraffic example_two_nodes example_placement
    [mkCqEvent true 1 Status_OK ∅] = None.
Proof.
  apply (phases_wait_for_every_completion example_two_nodes example_placement
           example_test ∅); vm_compute; lia.
Defined.

(** X12: An event of the queue whose [ok] flag is false is passed over: each
    phase, and CancelTraffic, returns on a queue what it returns on the
    queue without these events. *)
Theorem phases_skip_events_that_are_not_ok nm nsm test service_map
    (cqc : list (CqEvent ServiceEndpointMap)) (cqi cqx : list (CqEvent unit))
    (cqt : list (CqEvent ServiceLogs)) :
  ConfigureNodes nm nsm test cqc = ConfigureNodes nm nsm test (finished cqc) /\
  IntroducePeers nm nsm service_map cqi
  = IntroducePeers nm nsm service_map (finished cqi) /\
  RunTraffic nm nsm cqt = RunTraffic nm nsm (finished cqt) /\
  CancelTraffic nm cqx = CancelTraffic nm (finished cqx).
Proof.
  unfold ConfigureNodes, ConfigureNodes_loop, IntroducePeers, IntroducePeers_loop,
    RunTraffic, RunTraffic_loop, CancelTraffic.
  split; [|split; [|split]].
  - destruct (ConfigureNodes_issue nm test nsm) as [pending|]; [|done].
    pose proof (drain_skips_not_ok (ConfigureNodes_finish pending) cqc (length pending)
                  (Status_OK, ∅, map (fun p => EvIssue ConfigureNodeRpc p.1) pending)) as H.
    destruct (drain _ cqc _ _) as [[[[st ret] tr] rest]|];
      destruct (drain _ (finished cqc) _ _) as [[[[st' ret'] tr'] rest']|];
      simpl in H; try done. by injection H as -> -> ->.
  - destruct (IntroducePeers_issue nm service_map nsm) as [pending|]; [|done].
    pose proof (drain_skips_not_ok (IntroducePeers_finish pending) cqi (length pending)
                  (Status_OK, map (fun p => EvIssue IntroducePeersRpc p.1) pending)) as H.
    destruct (drain _ cqi _ _) as [[[st tr] rest]|];
      destruct (drain _ (finished cqi) _ _) as [[[st' tr'] rest']|];
      simpl in H; try done. by injection H as -> ->.
  - destruct (RunTraffic_issue nm nsm []) as [[[nm1 pending] trace]|]; [|done].
    pose proof (drain_skips_not_ok (RunTraffic_finish pending) cqt (length pending)
                  (Status_OK, ∅, nm1, trace)) as H.
    destruct (drain _ cqt _ _) as [[[[[st ret] nm2] tr] rest]|];
      destruct (drain _ (finished cqt) _ _) as [[[[[st' ret'] nm2'] tr'] rest']|];
      simpl in H; try done. by injection H as -> -> -> ->.
  - destruct (CancelTraffic_issue (map_to_list nm)) as [pending trace].
    pose proof (drain_skips_not_ok (CancelTraffic_finish pending) cqx (length pending)
                  (nm, trace)) as H.
    destruct (drain _ cqx _ _) as [[s rest]|];
      destruct (drain _ (finished cqx) _ _) as [[s' rest']|];
      simpl in H; done.
Qed.

(** ** The registry during a test *)

Lemma same_nodes_refl nm : same_nodes nm nm.
Proof. done. Qed.

Lemma same_nodes_trans nm1 nm2 nm3 :
  same_nodes nm1 nm2 -> same_nodes nm2 nm3 -> same_nodes nm1 nm3.
Proof. unfold same_nodes. congruence. Qed.

Lemma same_nodes_insert nm a node b :
  nm !! a = Some node -> same_nodes nm (<[a := set_idle b node]> nm).
Proof.
  intros Hn. unfold same_nodes. rewrite fmap_insert.
  apply insert_id. by rewrite lookup_fmap, Hn.
Qed.

Lemma same_nodes_alter nm a b : same_nodes nm (alter (set_idle b) a nm).
Proof.
  unfold same_nodes. apply map_eq. intros k. rewrite !lookup_fmap.
  destruct (decide (k = a)) as [->|Hne].
  - rewrite lookup_alter_eq. by destruct (nm !! a).
  - by rewrite lookup_alter_ne.
Qed.

Lemma same_nodes_lookup nm nm' a :
  same_nodes nm nm' -> set_idle true <$> nm' !! a = set_idle true <$> nm !! a.
Proof. intros H. by rewrite <- !lookup_fmap, H. Qed.

Lemma same_nodes_snapshot nm nm' :
  same_nodes nm nm' -> snapshot_nodes nm' = snapshot_nodes nm.
Proof.
  intros H. rewrite <- (snapshot_nodes_fmap (set_idle true) nm'), H.
  apply snapshot_nodes_fmap.
Qed.

Lemma same_nodes_place_services nm nm' test :
  same_nodes nm nm' -> place_services nm' test = place_services nm test.
Proof. intros H. unfold place_services. by rewrite (same_nodes_snapshot _ _ H). Qed.

Lemma all_idle_same_nodes nm nm' :
  all_idle nm -> all_idle nm' -> same_nodes nm nm' -> nm' = nm.
Proof.
  intros Hi Hi' Hs. apply map_eq. intros a.
  pose proof (same_nodes_lookup _ _ a Hs) as Ha.
  destruct (nm' !! a) as [[r' s' i']|] eqn:E'; destruct (nm !! a) as [[r s i]|] eqn:E;
    try done.
  apply Hi in E. apply Hi' in E'. simpl in *. subst.
  injection Ha as -> ->. done.
Qed.

(** What a step of a loop keeps, the loop keeps. *)
Lemma drain_invariant {R S} (P : S -> Prop) (finish : CqEvent R -> S -> option S) :
  (forall ev s s', P s -> finish ev s = Some s' -> P s') ->
  forall cq n s s' rest, P s -> drain finish cq n s = Some (s', rest) -> P s'.
Proof.
  intros Hstep. induction cq as [|ev cq IH]; intros n s s' rest HP Hd.
  - destruct n; [|done]. by injection Hd as <- _.
  - destruct n as [|n]; [by injection Hd as <- _|]. simpl in Hd.
    destruct (ev_ok ev); [|by eapply IH].
    destruct (finish ev s) as [s1|] eqn:E; [|done].
    eapply IH; [|exact Hd]. by eapply Hstep.
Qed.

Lemma RunTraffic_issue_same nsm : forall nm trace nm1 pending trace1,
  RunTraffic_issue nm nsm trace = Some (nm1, pending, trace1) -> same_nodes nm nm1.
Proof.
  induction nsm as [|[a s] nsm IH]; simpl; intros nm trace nm1 pending trace1 H.
  - injection H as <- _ _. apply same_nodes_refl.
  - destruct (nm !! a) as [node|] eqn:E; [|done].
    destruct (RunTraffic_issue _ nsm _) as [[[nm2 p2] t2]|] eqn:E2; [|done].
    injection H as <- _ _.
    eapply same_nodes_trans; [exact (same_nodes_insert nm a node false E)|].
    by eapply IH.
Qed.

Lemma RunTraffic_same nm nsm cq r nm' trace :
  RunTraffic nm nsm cq = Some (r, nm', trace) -> same_nodes nm nm'.
Proof.
  unfold RunTraffic, RunTraffic_loop. intros H.
  destruct (RunTraffic_issue nm nsm []) as [[[nm1 pending] trace1]|] eqn:E; [|done].
  destruct (drain _ cq _ _) as [[[[[st ret] nm2] tr] rest]|] eqn:Ed; [|done].
  assert (same_nodes nm nm2) as Hs.
  { apply (drain_invariant (fun s => same_nodes nm s.1.2) _) in Ed; [done| |].
    - intros ev [[[st0 ret0] nm0] tr0] s' HP Hf. simpl in *.
      destruct (pending !! ev_tag ev); [|done]. injection Hf as <-. simpl.
      eapply same_nodes_trans; [exact HP|apply same_nodes_alter].
    - simpl. by eapply RunTraffic_issue_same. }
  by destruct (ok st); injection H as _ <- _.
Qed.

Lemma CancelTraffic_same nm cq nm' trace :
  CancelTraffic nm cq = Some (nm', trace) -> same_nodes nm nm'.
Proof.
  unfold CancelTraffic. intros H.
  destruct (CancelTraffic_issue (map_to_list nm)) as [pending trace0].
  destruct (drain _ cq _ _) as [[[nm2 tr] rest]|] eqn:Ed; [|done].
  injection H as <- _.
  apply (drain_invariant (fun s => same_nodes nm s.1) _) in Ed; [done| |done].
  intros ev [nm0 tr0] s' HP Hf. simpl in *.
  destruct (pending !! ev_tag ev); [|done]. injection Hf as <-. simpl.
  eapply same_nodes_trans; [exact HP|apply same_nodes_alter].
Qed.

Lemma DoRunTest_same nm test env r nm' trace :
  DoRunTest nm test env = Some (r, nm', trace) -> same_nodes nm nm'.
Proof.
  unfold DoRunTest. intros H.
  destruct (place_services nm test) as [e|nsm]; [by injection H as _ <- _|].
  destruct (ConfigureNodes _ _ _ _) as [[[e|sm] t1]|]; [by injection H as _ <- _| |done].
  destruct (IntroducePeers _ _ _ _) as [[ip t2]|]; [|done].
  destruct (negb (ok ip)); [by injection H as _ <- _|].
  destruct (RunTraffic _ _ _) as [[[r3 nm3] t3]|] eqn:E; [|done].
  apply RunTraffic_same in E. by destruct r3; injection H as _ <- _.
Qed.

Lemma DoRunTestSequence_same tests : forall nm response s response' nm' trace,
  DoRunTestSequence nm tests response = Some (s, response', nm', trace) ->
  same_nodes nm nm'.
Proof.
  induction tests as [|[[test c] env] tests IH]; simpl;
    intros nm response s response' nm' trace H.
  - by injection H as _ _ <- _.
  - destruct c; [by injection H as _ _ <- _|].
    destruct (DoRunTest nm test env) as [[[[e|result] nm1] t1]|] eqn:E; [| |done].
    + injection H as _ _ <- _. by eapply DoRunTest_same.
    + destruct (DoRunTestSequence nm1 tests _) as [[[[s2 r2] nm2] t2]|] eqn:E2; [|done].
      injection H as _ _ <- _.
      eapply same_nodes_trans; [by eapply DoRunTest_same|by eapply IH].
Qed.

(** X13: A test sequence registers no node, removes none, and changes neither the
    registration nor the stub of a node: the registry it leaves differs
    from the one it started with at most in idle flags, and a placement
    computed on either is the same. *)
Theorem test_sequence_changes_only_idle_flags nm tests response s response' nm' trace :
  DoRunTestSequence nm tests response = Some (s, response', nm', trace) ->
  (forall a, (fun n => (registration n, stub n)) <$> nm' !! a
             = (fun n => (registration n, stub n)) <$> nm !! a) /\
  (forall test, place_services nm' test = place_services nm test).
Proof.
  intros H. apply DoRunTestSequence_same in H. split.
  - intros a. pose proof (same_nodes_lookup _ _ a H) as Ha.
    destruct (nm' !! a) as [[r1 s1 i1]|]; destruct (nm !! a) as [[r2 s2 i2]|];
      try done.
    by injection Ha as -> ->.
  - intros test. by apply same_nodes_place_services.
Qed.

Lemma test_sequence_changes_only_idle_flags_witness :
  exists nm',
    (forall a, (fun n => (registration n, stub n)) <$> nm' !! a
               = (fun n => (registration n, stub n)) <$> example_two_nodes !! a) /\
    (forall test, place_services nm' test = place_services example_two_nodes test).
Proof.
  eexists.
  eapply (test_sequence_changes_only_idle_flags example_two_nodes
            [(example_test, false, example_env_ok)] []).
  vm_compute. reflexivity.
Defined.

(** ** One test *)

Lemma queue_result_ok {R} (cq : list (CqEvent R)) :
  all_ok cq -> ok (last_failure (ev_status <$> finished cq)) = true.
Proof. intros H. by rewrite ok_last_failure. Qed.

(** DoRunTest with queues that deliver every completion: it returns, and
    a node that was idle before the test is idle after it. *)
Lemma DoRunTest_complete nm test env :
  queues_complete nm test env ->
  exists r nm' trace,
    DoRunTest nm test env = Some (r, nm', trace) /\
    (forall a node, nm !! a = Some node -> idle node = true ->
                    idle <$> nm' !! a = Some true).
Proof.
  intros Hq. unfold DoRunTest.
  destruct (place_services nm test) as [e|nsm] eqn:Hplace.
  { eexists _, nm, _. split; [done|]. intros a node -> <-. done. }
  pose proof (place_services_known _ _ _ Hplace) as Hk.
  destruct (Hq nsm Hplace) as (Hc & Hi & Ht).
  destruct (ConfigureNodes_loop_complete nm nsm test _ Hk Hc)
    as (t1 & rest1 & Hloop1 & _).
  unfold ConfigureNodes. rewrite Hloop1.
  destruct (ok (last_failure (ev_status <$> finished (cq_configure env)))).
  2:{ eexists _, nm, _. split; [done|]. intros a node -> <-. done. }
  destruct (IntroducePeers_loop_complete nm nsm
              (merged (ev_response <$> finished (cq_configure env))) _ Hk Hi)
    as (t2 & rest2 & Hloop2 & _).
  unfold IntroducePeers. rewrite Hloop2.
  destruct (ok (last_failure (ev_status <$> finished (cq_introduce env)))); simpl.
  2:{ eexists _, nm, _. split; [done|]. intros a node -> <-. done. }
  destruct (RunTraffic_loop_complete nm nsm _ Hk Ht)
    as (nm' & rest3 & Hloop3 & _ & Hin & Hout).
  unfold RunTraffic. rewrite Hloop3.
  assert (forall a node, nm !! a = Some node -> idle node = true ->
                         idle <$> nm' !! a = Some true) as Hidle.
  { intros a node Hn Hidle. destruct (decide (a ∈ nsm.*1)) as [Ha|Ha].
    - by apply Hin.
    - rewrite (Hout a Ha), Hn. simpl. by rewrite Hidle. }
  destruct (ok (last_failure (ev_status <$> finished (cq_traffic env))));
    eexists _, nm', _; (split; [done|exact Hidle]).
Qed.

Lemma example_cq_ok_complete {R} (r0 r1 : R) : complete_queue 2 (example_cq_ok r0 r1).
Proof.
  unfold complete_queue. vm_compute.
  apply (Permutation_swap 0%nat 1%nat []).
Qed.

Lemma example_env_ok_complete : queues_complete example_two_nodes example_test example_env_ok.
Proof.
  intros nsm H. vm_compute in H. injection H as <-.
  repeat split; apply example_cq_ok_complete.
Qed.

(** X14: With queues that deliver every completion, DoRunTest returns for every
    registry and every description, with a result or with an error, and
    every node that was idle before the call is idle after it. *)
Theorem DoRunTest_returns_and_keeps_idle_nodes_idle nm test env :
  queues_complete nm test env ->
  exists r nm' trace,
    DoRunTest nm test env = Some (r, nm', trace) /\
    (forall a node, nm !! a = Some node -> idle node = true ->
                    idle <$> nm' !! a = Some true).
Proof. apply DoRunTest_complete. Qed.

Lemma DoRunTest_returns_and_keeps_idle_nodes_idle_witness :
  exists r nm' trace,
    DoRunTest example_two_nodes example_test example_env_traffic_fails
    = Some (r, nm', trace) /\
    (forall a node, example_two_nodes !! a = Some node -> idle node = true ->
                    idle <$> nm' !! a = Some true).
Proof.
  apply (DoRunTest_returns_and_keeps_idle_nodes_idle example_two_nodes example_test
           example_env_traffic_fails).
  intros nsm H. vm_compute in H. injection H as <-.
  split; [apply example_cq_ok_complete|].
  split; [apply example_cq_ok_complete|apply example_cq_one_failure_complete].
Defined.

(** X15: A test whose placement succeeds and whose workers answer OK to every
    RPC.  DoRunTest returns a result that echoes the description, holds the
    merged ConfigureNode responses as its placement and the merged
    RunTraffic responses as its logs.  Its events are those of the three
    phases in order: the Configure RPCs all finish before the first
    IntroducePeers RPC is issued, and these all finish before the first
    RunTraffic RPC is issued; each phase sends one RPC to each alias of the
    placement, in the order of the placement, and sees each finish. *)
Theorem DoRunTest_success nm test env nsm :
  place_services nm test = inr nsm ->
  complete_queue (length nsm) (cq_configure env) ->
  complete_queue (length nsm) (cq_introduce env) ->
  complete_queue (length nsm) (cq_traffic env) ->
  all_ok (cq_configure env) ->
  all_ok (cq_introduce env) ->
  all_ok (cq_traffic env) ->
  exists nm' t1 t2 t3,
    DoRunTest nm test env
    = Some (inr (mkTestResult test
                   (merged (ev_response <$> finished (cq_configure env)))
                   (merged (ev_response <$> finished (cq_traffic env)))),
            nm', t1 ++ t2 ++ t3) /\
    (forall k, issued_to k t1 = if decide (k = ConfigureNodeRpc) then nsm.*1 else []) /\
    (forall k, finished_of k t1 ≡ₚ if decide (k = ConfigureNodeRpc) then nsm.*1 else []) /\
    (forall k, issued_to k t2 = if decide (k = IntroducePeersRpc) then nsm.*1 else []) /\
    (forall k, finished_of k t2 ≡ₚ if decide (k = IntroducePeersRpc) then nsm.*1 else []) /\
    (forall k, issued_to k t3 = if decide (k = RunTrafficRpc) then nsm.*1 else []) /\
    (forall k, finished_of k t3 ≡ₚ if decide (k = RunTrafficRpc) then nsm.*1 else []).
Proof.
  intros Hplace Hc Hi Ht Hokc Hoki Hokt.
  pose proof (place_services_known _ _ _ Hplace) as Hk.
  destruct (ConfigureNodes_loop_complete nm nsm test _ Hk Hc)
    as (t1 & rest1 & Hloop1 & _ & Hiss1 & Hfin1 & Hoth1).
  destruct (IntroducePeers_loop_complete nm nsm
              (merged (ev_response <$> finished (cq_configure env))) _ Hk Hi)
    as (t2 & rest2 & Hloop2 & _ & Hiss2 & Hfin2 & Hoth2).
  destruct (RunTraffic_loop_complete nm nsm _ Hk Ht)
    as (nm' & rest3 & Hloop3 & _).
  exists nm', t1, t2. eexists. split.
  { unfold DoRunTest, ConfigureNodes, IntroducePeers, RunTraffic.
    rewrite Hplace, Hloop1, (queue_result_ok _ Hokc), Hloop2, (queue_result_ok _ Hoki).
    simpl. by rewrite Hloop3, (queue_result_ok _ Hokt). }
  split; [|split; [|split; [|split; [|split]]]].
  - intros k. destruct (decide (k = ConfigureNodeRpc)) as [->|Hne]; [done|].
    by apply Hoth1.
  - intros k. destruct (decide (k = ConfigureNodeRpc)) as [->|Hne]; [done|].
    by rewrite (proj2 (Hoth1 k Hne)).
  - intros k. destruct (decide (k = IntroducePeersRpc)) as [->|Hne]; [done|].
    by apply Hoth2.
  - intros k. destruct (decide (k = IntroducePeersRpc)) as [->|Hne]; [done|].
    by rewrite (proj2 (Hoth2 k Hne)).
  - intros k. rewrite issued_to_app.
    rewrite (proj1 (RunTraffic_issue_events k _)), (proj1 (RunTraffic_finish_events k _ _)).
    rewrite app_nil_r.
    destruct (decide (k = RunTrafficRpc)) as [->|Hne]; [done|].
    by rewrite decide_False.
  - intros k. rewrite finished_of_app.
    rewrite (proj2 (RunTraffic_issue_events k _)), (proj2 (RunTraffic_finish_events k _ _)).
    simpl.
    destruct (decide (k = RunTrafficRpc)) as [->|Hne].
    + rewrite decide_True by done. apply complete_queue_aliases. by rewrite length_fmap.
    + by rewrite decide_False.
Qed.

Lemma DoRunTest_success_witness :
  exists nm' t1 t2 t3,
    DoRunTest example_two_nodes example_test example_env_ok
    = Some (inr (mkTestResult example_test
                   (merged (ev_response <$> finished (cq_configure example_env_ok)))
                   (merged (ev_response <$> finished (cq_traffic example_env_ok)))),
            nm', t1 ++ t2 ++ t3) /\
    (forall k, issued_to k t1
               = if decide (k = ConfigureNodeRpc) then example_placement.*1 else []) /\
    (forall k, finished_of k t1
               ≡ₚ if decide (k = ConfigureNodeRpc) then example_placement.*1 else []) /\
    (forall k, issued_to k t2
               = if decide (k = IntroducePeersRpc) then example_placement.*1 else []) /\
    (forall k, finished_of k t2
               ≡ₚ if decide (k = IntroducePeersRpc) then example_placement.*1 else []) /\
    (forall k, issued_to k t3
               = if decide (k = RunTrafficRpc) then example_placement.*1 else []) /\
    (forall k, finished_of k t3
               ≡ₚ if decide (k = RunTrafficRpc) then example_placement.*1 else []).
Proof.
  apply (DoRunTest_success example_two_nodes example_test example_env_ok
           example_placement).
  - vm_compute. reflexivity.
  - apply example_cq_ok_complete.
  - apply example_cq_ok_complete.
  - apply example_cq_ok_complete.
  - vm_compute. reflexivity.
  - vm_compute. reflexivity.
  - vm_compute. reflexivity.
Defined.

(** X16: A test whose placement succeeds and whose Configure phase succeeds,
    while a completion of its IntroducePeers phase carries an error.
    DoRunTest returns INVALID_ARGUMENT with the message of IntroducePeers
    after every IntroducePeers RPC has finished; it issues no RunTraffic
    RPC, so no idle flag is touched and the registry is as it was. *)
Theorem introduce_failure_aborts_test nm test env nsm :
  place_services nm test = inr nsm ->
  complete_queue (length nsm) (cq_configure env) ->
  complete_queue (length nsm) (cq_introduce env) ->
  all_ok (cq_configure env) ->
  forallb ok (ev_status <$> finished (cq_introduce env)) = false ->
  exists trace,
    DoRunTest nm test env
    = Some (inl (InvalidArgumentError "Unknown GRPC error"), nm, trace) /\
    issued_to IntroducePeersRpc trace = nsm.*1 /\
    finished_of IntroducePeersRpc trace ≡ₚ nsm.*1 /\
    issued_to RunTrafficRpc trace = [].
Proof.
  intros Hplace Hc Hi Hokc Hfail.
  pose proof (place_services_known _ _ _ Hplace) as Hk.
  destruct (ConfigureNodes_loop_complete nm nsm test _ Hk Hc)
    as (t1 & rest1 & Hloop1 & _ & Hiss1 & Hfin1 & Hoth1).
  destruct (IntroducePeers_loop_complete nm nsm
              (merged (ev_response <$> finished (cq_configure env))) _ Hk Hi)
    as (t2 & rest2 & Hloop2 & _ & Hiss2 & Hfin2 & Hoth2).
  exists (t1 ++ t2). split.
  { unfold DoRunTest, ConfigureNodes, IntroducePeers.
    rewrite Hplace, Hloop1, (queue_result_ok _ Hokc), Hloop2.
    by rewrite ok_last_failure, Hfail. }
  rewrite !issued_to_app, finished_of_app.
  rewrite (proj1 (Hoth1 IntroducePeersRpc ltac:(done))).
  rewrite (proj2 (Hoth1 IntroducePeersRpc ltac:(done))).
  rewrite (proj1 (Hoth1 RunTrafficRpc ltac:(done))).
  rewrite (proj1 (Hoth2 RunTrafficRpc ltac:(done))).
  done.
Qed.

Lemma introduce_failure_aborts_test_witness :
  exists trace,
    DoRunTest example_two_nodes example_test example_env_introduce_fails
    = Some (inl (InvalidArgumentError "Unknown GRPC error"), example_two_nodes, trace) /\
    issued_to IntroducePeersRpc trace = example_placement.*1 /\
    finished_of IntroducePeersRpc trace ≡ₚ example_placement.*1 /\
    issued_to RunTrafficRpc trace = [].
Proof.
  apply (introduce_failure_aborts_test example_two_nodes example_test
           example_env_introduce_fails example_placement).
  - vm_compute. reflexivity.
  - apply example_cq_ok_complete.
  - apply example_cq_one_failure_complete.
  - vm_compute. reflexivity.
  - vm_compute. reflexivity.
Defined.

(** X17: A test whose placement, Configure phase and IntroducePeers phase succeed,
    while a completion of its RunTraffic phase carries an error.  DoRunTest
    returns INVALID_ARGUMENT with the message of RunTraffic after every
    RunTraffic RPC has finished; the logs that arrived are dropped, and
    every node of the placement is idle again. *)
Theorem traffic_failure_aborts_test nm test env nsm :
  place_services nm test = inr nsm ->
  complete_queue (length nsm) (cq_configure env) ->
  complete_queue (length nsm) (cq_introduce env) ->
  complete_queue (length nsm) (cq_traffic env) ->
  all_ok (cq_configure env) ->
  all_ok (cq_introduce env) ->
  forallb ok (ev_status <$> finished (cq_traffic env)) = false ->
  exists nm' trace,
    DoRunTest nm test env
    = Some (inl (InvalidArgumentError "Unknown GRPC error2"), nm', trace) /\
    issued_to RunTrafficRpc trace = nsm.*1 /\
    finished_of RunTrafficRpc trace ≡ₚ nsm.*1 /\
    (forall a, a ∈ nsm.*1 -> idle <$> nm' !! a = Some true) /\
    (forall a, a ∉ nsm.*1 -> nm' !! a = nm !! a).
Proof.
  intros Hplace Hc Hi Ht Hokc Hoki Hfail.
  pose proof (place_services_known _ _ _ Hplace) as Hk.
  destruct (ConfigureNodes_loop_complete nm nsm test _ Hk Hc)
    as (t1 & rest1 & Hloop1 & _ & Hiss1 & Hfin1 & Hoth1).
  destruct (IntroducePeers_loop_complete nm nsm
              (merged (ev_response <$> finished (cq_configure env))) _ Hk Hi)
    as (t2 & rest2 & Hloop2 & _ & Hiss2 & Hfin2 & Hoth2).
  destruct (RunTraffic_loop_complete nm nsm _ Hk Ht)
    as (nm' & rest3 & Hloop3 & _ & Hin & Hout).
  exists nm'. eexists. split.
  { unfold DoRunTest, ConfigureNodes, IntroducePeers, RunTraffic.
    rewrite Hplace, Hloop1, (queue_result_ok _ Hokc), Hloop2, (queue_result_ok _ Hoki).
    simpl. by rewrite Hloop3, ok_last_failure, Hfail. }
  rewrite !issued_to_app, !finished_of_app.
  rewrite (proj1 (Hoth1 RunTrafficRpc ltac:(done))).
  rewrite (proj2 (Hoth1 RunTrafficRpc ltac:(done))).
  rewrite (proj1 (Hoth2 RunTrafficRpc ltac:(done))).
  rewrite (proj2 (Hoth2 RunTrafficRpc ltac:(done))).
  rewrite (proj1 (RunTraffic_issue_events _ _)), (proj1 (RunTraffic_finish_events _ _ _)).
  rewrite (proj2 (RunTraffic_issue_events _ _)), (proj2 (RunTraffic_finish_events _ _ _)).
  rewrite !decide_True by done. simpl. rewrite app_nil_r.
  split; [done|]. split; [|done].
  apply complete_queue_aliases. by rewrite length_fmap.
Qed.

Lemma traffic_failure_aborts_test_witness :
  exists nm' trace,
    DoRunTest example_two_nodes example_test example_env_traffic_fails
    = Some (inl (InvalidArgumentError "Unknown GRPC error2"), nm', trace) /\
    issued_to RunTrafficRpc trace = example_placement.*1 /\
    finished_of RunTrafficRpc trace ≡ₚ example_placement.*1 /\
    (forall a, a ∈ example_placement.*1 -> idle <$> nm' !! a = Some true) /\
    (forall a, a ∉ example_placement.*1 -> nm' !! a = example_two_nodes !! a).
Proof.
  apply (traffic_failure_aborts_test example_two_nodes example_test
           example_env_traffic_fails example_placement).
  - vm_compute. reflexivity.
  - apply example_cq_ok_complete.
  - apply example_cq_ok_complete.
  - apply example_cq_one_failure_complete.
  - vm_compute. reflexivity.
  - vm_compute. reflexivity.
  - vm_compute. reflexivity.
Defined.

(** ** The sequence of tests *)

Lemma DoRunTest_echo nm test env result nm' trace :
  DoRunTest nm test env = Some (inr result, nm', trace) -> traffic_config result = test.
Proof.
  unfold DoRunTest. intros H.
  destruct (place_services nm test) as [e|nsm]; [done|].
  destruct (ConfigureNodes _ _ _ _) as [[[e|sm] t1]|]; [done| |done].
  destruct (IntroducePeers _ _ _ _) as [[ip t2]|]; [|done].
  destruct (negb (ok ip)); [done|].
  destruct (RunTraffic _ _ _) as [[[[e|logs] nm3] t3]|]; [done| |done].
  by injection H as <- _ _.
Qed.

Lemma queues_complete_same nm nm' test env :
  same_nodes nm nm' -> queues_complete nm test env -> queues_complete nm' test env.
Proof.
  intros Hs Hq nsm Hplace. apply Hq.
  by rewrite <- (same_nodes_place_services _ _ test Hs).
Qed.

Lemma DoRunTest_complete_all_idle nm test env :
  queues_complete nm test env ->
  exists r nm' trace,
    DoRunTest nm test env = Some (r, nm', trace) /\
    same_nodes nm nm' /\ (all_idle nm -> nm' = nm).
Proof.
  intros Hq. destruct (DoRunTest_complete nm test env Hq) as (r & nm' & trace & Hrun & Hidle).
  exists r, nm', trace. split; [done|].
  pose proof (DoRunTest_same _ _ _ _ _ _ Hrun) as Hs. split; [done|].
  intros Hall. apply all_idle_same_nodes; [done| |done].
  intros a node' Hn'.
  pose proof (same_nodes_lookup _ _ a Hs) as Ha. rewrite Hn' in Ha.
  destruct (nm !! a) as [node|] eqn:Hn; [|done].
  specialize (Hidle a node Hn (Hall a node Hn)). rewrite Hn' in Hidle.
  by injection Hidle.
Qed.

Lemma DoRunTestSequence_complete tests : forall nm response,
  Forall (fun t => queues_complete nm t.1.1 t.2) tests ->
  exists s response' nm' trace,
    DoRunTestSequence nm tests response = Some (s, response', nm', trace) /\
    (all_idle nm -> nm' = nm).
Proof.
  induction tests as [|[[test c] env] tests IH]; intros nm response Hq; simpl.
  - by eexists _, _, nm, _.
  - apply Forall_cons in Hq as [Hq Hqs]. simpl in Hq.
    destruct c; [by eexists _, _, nm, _|].
    destruct (DoRunTest_complete_all_idle nm test env Hq)
      as ([e|result] & nm1 & trace1 & -> & Hs & Hidle).
    + by eexists _, _, nm1, _.
    + destruct (IH nm1 (response ++ [result])) as (s & r' & nm' & tr & -> & Hidle').
      { eapply Forall_impl; [exact Hqs|]. intros t. by apply queues_complete_same. }
      eexists _, _, nm', _. split; [done|].
      intros Hall. specialize (Hidle Hall). subst nm1. by apply Hidle'.
Qed.

(** X18: With queues that deliver every completion of every test, the sequence
    returns, for every registry and every list of tests; when every node
    is idle at its start, it leaves the registry exactly as it found it. *)
Theorem test_sequence_returns nm tests response :
  Forall (fun t => queues_complete nm t.1.1 t.2) tests ->
  exists s response' nm' trace,
    DoRunTestSequence nm tests response = Some (s, response', nm', trace) /\
    (all_idle nm -> nm' = nm).
Proof. apply DoRunTestSequence_complete. Qed.

Lemma test_sequence_returns_witness :
  exists s response' nm' trace,
    DoRunTestSequence example_two_nodes
      [(example_test, false, example_env_ok);
       (example_test, false, example_env_traffic_fails);
       (example_test, false, example_env_ok)] []
    = Some (s, response', nm', trace) /\
    (all_idle example_two_nodes -> nm' = example_two_nodes).
Proof.
  apply (test_sequence_returns example_two_nodes).
  assert (forall nsm, place_services example_two_nodes example_test = inr nsm ->
                      length nsm = 2%nat) as Hlen.
  { intros nsm H. vm_compute in H. by injection H as <-. }
  repeat apply Forall_cons_2; [| | |apply Forall_nil_2];
    intros nsm H; rewrite (Hlen nsm H); simpl;
    repeat split;
    first [apply example_cq_ok_complete|apply example_cq_one_failure_complete].
Defined.

(** X19: The status of a sequence is OK or ABORTED, never another code.  The
    results it adds to the response are those of a prefix of the tests, in
    order, each echoing the description of its test; with OK there is one
    result for each test and no test saw a cancellation; with ABORTED at
    least one test has no result. *)
Theorem test_sequence_results tests : forall nm response s response' nm' trace,
  DoRunTestSequence nm tests response = Some (s, response', nm', trace) ->
  (s = Status_OK \/ code s = ABORTED) /\
  exists added,
    response' = response ++ added /\
    traffic_config <$> added = take (length added) tests.*1.*1 /\
    (s = Status_OK -> length added = length tests /\
                      Forall (fun t => t.1.2 = false) tests) /\
    (code s = ABORTED -> (length added < length tests)%nat).
Proof.
  induction tests as [|[[test c] env] tests IH]; simpl;
    intros nm response s response' nm' trace H.
  - injection H as <- <- _ _. split; [by left|]. exists [].
    by rewrite app_nil_r.
  - assert (forall msg, mkStatus ABORTED msg <> Status_OK) as Hne by done.
    destruct c.
    { injection H as <- <- _ _. split; [by right|]. exists [].
      rewrite app_nil_r. repeat split; try done; simpl; try lia.
      all: by intros ?%Hne. }
    destruct (DoRunTest nm test env) as [[[[e|result] nm1] t1]|] eqn:E; [| |done].
    { injection H as <- <- _ _. split; [by right|]. exists [].
      rewrite app_nil_r. repeat split; try done; simpl; try lia.
      all: by intros ?%Hne. }
    destruct (DoRunTestSequence nm1 tests _) as [[[[s2 r2] nm2] t2]|] eqn:E2; [|done].
    injection H as <- <- _ _.
    destruct (IH _ _ _ _ _ _ E2) as (Hs & added & -> & Hecho & Hok & Hab).
    split; [done|]. exists (result :: added).
    split; [by rewrite <- app_assoc|]. csimpl.
    rewrite (DoRunTest_echo _ _ _ _ _ _ E), Hecho. split; [done|]. split.
    + intros Hs2. destruct (Hok Hs2) as [Hlen Hall]. split; [by rewrite Hlen|].
      by apply Forall_cons.
    + intros Hs2. specialize (Hab Hs2). lia.
Qed.

Lemma test_sequence_results_witness :
  let tests := [(example_test, false, example_env_ok);
                (example_test, false, example_env_traffic_fails);
                (example_test, false, example_env_ok)] in
  exists s response',
    (s = Status_OK \/ code s = ABORTED) /\
    exists added,
      response' = [] ++ added /\
      traffic_config <$> added = take (length added) tests.*1.*1 /\
      (s = Status_OK -> length added = length tests /\
                        Forall (fun t => t.1.2 = false) tests) /\
      (code s = ABORTED -> (length added < length tests)%nat).
Proof.
  intros tests. eexists _, _.
  eapply (test_sequence_results tests example_two_nodes []).
  vm_compute. reflexivity.
Defined.

(** X20: A test of a sequence is reached and its placement fails.  DoRunTest
    returns the placement error without an event: no RPC is issued, no idle
    flag is touched, whatever the queues hold.  The sequence returns ABORTED
    with the message of the placement error; it adds no result and runs none
    of the tests that follow. *)
Theorem placement_failure_aborts_sequence
    nm0 pre response0 nm response trace0 test env post e :
  DoRunTestSequence nm0 pre response0 = Some (Status_OK, response, nm, trace0) ->
  place_services nm test = inl e ->
  DoRunTest nm test env = Some (inl e, nm, []) /\
  DoRunTestSequence nm0 (pre ++ (test, false, env) :: post) response0
  = Some (mkStatus ABORTED (message e), response, nm, trace0).
Proof.
  intros Hpre Hplace.
  assert (DoRunTest nm test env = Some (inl e, nm, [])) as Htest.
  { unfold DoRunTest. by rewrite Hplace. }
  split; [done|].
  rewrite (DoRunTestSequence_app _ _ _ _ _ _ _ Hpre). simpl.
  by rewrite Htest, app_nil_r.
Qed.

Lemma placement_failure_aborts_sequence_witness :
  let test := mkDescription [] [] in
  DoRunTest example_two_nodes test example_env_ok
  = Some (inl (InvalidArgumentError "No services defined."), example_two_nodes, []) /\
  DoRunTestSequence example_two_nodes
    ([] ++ (test, false, example_env_ok) :: [(example_test, false, example_env_ok)]) []
  = Some (mkStatus ABORTED (message (InvalidArgumentError "No services defined.")),
          [], example_two_nodes, []).
Proof.
  intros test.
  apply (placement_failure_aborts_sequence example_two_nodes [] [] example_two_nodes
           [] [] test example_env_ok [(example_test, false, example_env_ok)]).
  - reflexivity.
  - vm_compute. reflexivity.
Defined.

(** X21: A test of a sequence is reached while the context of the sequence is
    cancelled.  The sequence returns ABORTED with the message
    "Cancelled by new test sequence."; the test is not placed, no RPC is
    issued for it, the results of the tests before it are kept, and none of
    the tests that follow is run. *)
Theorem cancellation_stops_sequence nm0 pre response0 nm response trace0 test env post :
  DoRunTestSequence nm0 pre response0 = Some (Status_OK, response, nm, trace0) ->
  DoRunTestSequence nm0 (pre ++ (test, true, env) :: post) response0
  = Some (mkStatus ABORTED "Cancelled by new test sequence.", response, nm, trace0).
Proof.
  intros Hpre. rewrite (DoRunTestSequence_app _ _ _ _ _ _ _ Hpre). simpl.
  by rewrite app_nil_r.
Qed.

Lemma cancellation_stops_sequence_witness :
  exists response nm trace0,
    DoRunTestSequence example_two_nodes [(example_test, false, example_env_ok)] []
    = Some (Status_OK, response, nm, trace0) /\
    length response = 1%nat /\
    DoRunTestSequence example_two_nodes
      ([(example_test, false, example_env_ok)]
       ++ (example_test, true, example_env_ok) :: [(example_test, false, example_env_ok)]) []
    = Some (mkStatus ABORTED "Cancelled by new test sequence.", response, nm, trace0).
Proof.
  eexists _, _, _.
  assert (forall (A B : Prop), A -> (A -> B) -> A /\ B) as Hcut by tauto.
  apply Hcut; [vm_compute; reflexivity|]. intros Hpre.
  split; [reflexivity|].
  apply (cancellation_stops_sequence example_two_nodes
           [(example_test, false, example_env_ok)] [] _ _ _ example_test example_env_ok
           [(example_test, false, example_env_ok)] Hpre).
Defined.

(** ** CancelTraffic *)

Lemma CancelTraffic_issue_all_idle nodes :
  Forall (fun p => idle p.2 = true) nodes -> CancelTraffic_issue nodes = ([], []).
Proof.
  induction 1 as [|[a node] nodes Hidle _ IH]; [done|].
  simpl in *. by rewrite IH, Hidle.
Qed.

Lemma CancelTraffic_issue_no_finish k nodes :
  finished_of k (CancelTraffic_issue nodes).2 = [].
Proof.
  induction nodes as [|[a node] nodes IH]; [done|]. simpl.
  destruct (CancelTraffic_issue nodes) as [pending trace]. simpl in *.
  by destruct (idle node).
Qed.

Lemma CancelTraffic_finish_trace pending evs : forall nm tr nm2 tr2,
  finish_all (CancelTraffic_finish pending) evs (nm, tr) = Some (nm2, tr2) ->
  finished_of CancelTrafficRpc tr2
  = finished_of CancelTrafficRpc tr ++ omap (fun ev => pending !! ev_tag ev) evs.
Proof.
  induction evs as [|ev evs IH]; intros nm tr nm2 tr2 H; simpl in H.
  - injection H as _ <-. by rewrite app_nil_r.
  - csimpl. destruct (pending !! ev_tag ev) as [alias|] eqn:Hp; [|done].
    rewrite (IH _ _ _ _ H), finished_of_app, <- app_assoc. done.
Qed.

(** X22: CancelTraffic with a queue that delivers the completion of every RPC it
    issues.  It returns; it has sent a CancelTraffic RPC to exactly the
    nodes whose idle flag was false, and no RPC of another kind; and the
    registry it leaves is the one it found with every idle flag set to
    true. *)
Theorem CancelTraffic_cancels_busy_nodes nm cq :
  complete_queue (length (filter (fun p => idle p.2 = false) (map_to_list nm))) cq ->
  exists trace,
    CancelTraffic nm cq = Some (set_idle true <$> nm, trace) /\
    (forall a, a ∈ issued_to CancelTrafficRpc trace <->
               exists node, nm !! a = Some node /\ idle node = false) /\
    (forall a, a ∈ finished_of CancelTrafficRpc trace <->
               exists node, nm !! a = Some node /\ idle node = false).
Proof.
  intros Hcq.
  destruct (CancelTraffic_complete nm cq Hcq) as (nm' & trace & Hrun & Hiss & Hidle).
  pose proof (CancelTraffic_same _ _ _ _ Hrun) as Hs.
  assert (nm' = set_idle true <$> nm) as ->.
  { apply map_eq. intros a. rewrite lookup_fmap.
    pose proof (same_nodes_lookup _ _ a Hs) as Ha. rewrite <- Ha.
    destruct (nm !! a) as [node|] eqn:Hn.
    - specialize (Hidle a ltac:(eauto)).
      destruct (nm' !! a) as [[r s i]|]; [|done]. simpl in *.
      by injection Hidle as ->.
    - by destruct (nm' !! a). }
  exists trace. split; [done|]. split; [done|].
  (* the completions seen are those of the RPCs issued *)
  intros a. rewrite <- Hiss. clear Hiss Hidle Hs.
  unfold CancelTraffic in Hrun.
  destruct (CancelTraffic_issue_spec (map_to_list nm)) as [Hpend Hiss].
  pose proof (CancelTraffic_issue_no_finish CancelTrafficRpc (map_to_list nm)) as Hnf.
  destruct (CancelTraffic_issue (map_to_list nm)) as [pending trace0]. simpl in *.
  assert (Hlen : length pending
                 = length (filter (fun p => idle p.2 = false) (map_to_list nm))).
  { by rewrite Hpend, length_fmap. }
  rewrite <- Hlen in Hcq.
  destruct (CancelTraffic_finish_all pending (finished cq) nm trace0)
    as (nm3 & trace3 & Hfa & Hno & _).
  { apply Forall_forall. intros ev Hev. by eapply complete_queue_tag. }
  destruct (drain_complete _ cq _ _ Hfa) as (rest' & Hd & _).
  rewrite (complete_queue_length _ _ Hcq) in Hd. rewrite Hd in Hrun.
  injection Hrun as _ <-.
  rewrite (CancelTraffic_finish_trace _ _ _ _ _ _ Hfa), Hnf.
  rewrite issued_to_app, Hiss, Hno, app_nil_r. simpl.
  by rewrite (complete_queue_aliases pending cq Hcq).
Qed.

Lemma example_busy_node_queue :
  complete_queue
    (length (filter (fun p => idle p.2 = false) (map_to_list example_busy_node)))
    [mkCqEvent true 0 (mkStatus UNAVAILABLE "node0 is down") tt].
Proof. unfold complete_queue. vm_compute. reflexivity. Qed.

Lemma CancelTraffic_cancels_busy_nodes_witness :
  exists trace,
    CancelTraffic example_busy_node [mkCqEvent true 0 (mkStatus UNAVAILABLE "node0 is down") tt]
    = Some (set_idle true <$> example_busy_node, trace) /\
    (forall a, a ∈ issued_to CancelTrafficRpc trace <->
               exists node, example_busy_node !! a = Some node /\ idle node = false) /\
    (forall a, a ∈ finished_of CancelTrafficRpc trace <->
               exists node, example_busy_node !! a = Some node /\ idle node = false).
Proof.
  apply (CancelTraffic_cancels_busy_nodes example_busy_node).
  exact example_busy_node_queue.
Defined.

(** X23: When every node is idle, CancelTraffic sends no RPC and returns at once,
    whatever the queue holds, and the registry is as it was. *)
Theorem CancelTraffic_all_idle nm (cq : list (CqEvent unit)) :
  all_idle nm -> CancelTraffic nm cq = Some (nm, []).
Proof.
  intros Hall. unfold CancelTraffic.
  rewrite CancelTraffic_issue_all_idle.
  - by destruct cq.
  - apply Forall_forall. intros [a node] Hin. apply elem_of_map_to_list in Hin.
    by apply (Hall a).
Qed.

Lemma CancelTraffic_all_idle_witness :
  CancelTraffic example_two_nodes [mkCqEvent true 5 Status_OK tt]
  = Some (example_two_nodes, []).
Proof.
  apply (CancelTraffic_all_idle example_two_nodes).
  intros a node H.
  destruct (decide (a = "node0")) as [->|H0].
  { vm_compute in H. by injection H as <-. }
  destruct (decide (a = "node1")) as [->|H1].
  { vm_compute in H. by injection H as <-. }
  unfold example_two_nodes in H.
  by rewrite !lookup_insert_ne, lookup_empty in H.
Defined.

(** ** Busy nodes and waiting calls *)

Lemma Inv_busy_init nodes : Inv_busy (CState_init nodes).
Proof. intros a Ha. simpl in Ha. done. Qed.

Lemma elem_of_set_erase_ne (a b : string) pending :
  a ∈ pending -> b ∈ pending -> b <> a -> b ∈ set_erase a pending.
Proof.
  intros Ha Hb Hne. rewrite (set_erase_perm a pending Ha) in Hb.
  by apply elem_of_cons in Hb as [->|Hb].
Qed.

Lemma Inv_busy_step s l s' : Inv_busy s -> RunTestSequence_step s l = Some s' -> Inv_busy s'.
Proof.
  intros I Hstep.
  step_cases Hstep; intros b Hb; simpl in *;
    try match type of Hb with
        | upd_node _ ?x _ b = _ =>
            destruct (decide (b = x)) as [->|?];
            [rewrite ?upd_node_eq in Hb|rewrite ?upd_node_ne in Hb by done]
        end;
    try discriminate Hb;
    try (exists t; rewrite upd_eq; simpl; rewrite elem_of_app, list_elem_of_singleton;
         by right);
    destruct (I b Hb) as [t0 Ht0];
    (destruct (decide (t0 = t)) as [->|?];
     [rewrite Hpc in Ht0; simpl in Ht0; try (by apply elem_of_nil in Ht0);
      exists t; rewrite upd_eq; simpl;
      first [ done
            | by apply elem_of_app; left
            | apply elem_of_set_erase_ne; [by eapply bool_decide_eq_true_1|done|done] ]
     |exists t0; by rewrite upd_ne]).
Qed.

Lemma Inv_notify_init nodes : Inv_notify (CState_init nodes).
Proof. unfold Inv_notify. simpl. repeat split; intros; congruence. Qed.

Lemma Inv_notify_step s l s' :
  Inv_notify s -> RunTestSequence_step s l = Some s' -> Inv_notify s'.
Proof.
  intros (N1 & N2 & N3) Hstep.
  step_cases Hstep; (split; [intros t'|split; [intros t'|intros t0 t']]);
    simpl;
    pose proof (N1 t) as N1t; pose proof (N1 t') as N1t';
    pose proof (N2 t) as N2t; pose proof (N2 t') as N2t';
    try pose proof (N3 t0 t') as N3t'; try pose proof (N3 t0 t) as N3t;
    try pose proof (N3 t t') as N3tt';
    rewrite Hpc in *; simpl in *;
    try (destruct (decide (t0 = t)) as [->|?];
         [rewrite ?upd_eq in *|rewrite ?upd_ne in * by done]);
    other_thread t' t; simpl;
    try rewrite Hpc in *; simpl in *;
    clear N1 N2 N3;
    try (intuition congruence).
Qed.

Lemma Inv_wait_init nodes : Inv_wait (CState_init nodes).
Proof. unfold Inv_wait. simpl. split; intros; congruence. Qed.

Lemma before_notify_has_context p : before_notify p = true -> has_context p = true.
Proof. by destruct p. Qed.

Lemma Inv_wait_step s l s' :
  Inv_mutex s -> Inv_context s -> Inv_notify s -> Inv_wait s ->
  RunTestSequence_step s l = Some s' -> Inv_wait s'.
Proof.
  intros M (C1 & C2 & C3) (N1 & N2 & N3) (W1 & W2) Hstep.
  step_cases Hstep; (split; intros t0 w); simpl;
    pose proof (M t) as Mt; pose proof (M t0) as Mt0; pose proof (M w) as Mn;
    pose proof (C1 w) as C1n; pose proof (C2 w) as C2n;
    pose proof (N1 w) as N1n; pose proof (N2 w) as N2n;
    pose proof (W1 t0 w) as W1n; pose proof (W2 t0 w) as W2n;
    pose proof (W1 t w) as W1t;
    rewrite Hpc in *; simpl in *;
    other_thread t0 t; simpl;
    try rewrite Hpc in *; simpl in *;
    clear M C1 C2 C3 N1 N2 N3 W1 W2;
    try (intuition congruence).
  all: intros; rewrite ?orb_true_iff in *;
    repeat match goal with
           | |- context [upd _ ?x true ?y] =>
               destruct (decide (y = x)) as [->|?];
               [rewrite upd_eq|rewrite upd_ne by done]
           end;
    try (intuition congruence);
    try (destruct (pcs s w) eqn:Hw; simpl in *; intuition congruence).
  rewrite H in Mt0. simpl in Mt0. intuition congruence.
Qed.

Lemma run_more_invariants ls : forall s s',
  Inv_mutex s /\ Inv_context s /\ Inv_busy s /\ Inv_notify s /\ Inv_wait s ->
  run s ls = Some s' ->
  Inv_busy s' /\ Inv_notify s' /\ Inv_wait s'.
Proof.
  induction ls as [|l ls IH]; intros s s' Hinv Hrun; simpl in Hrun.
  - injection Hrun as <-. tauto.
  - destruct (RunTestSequence_step s l) as [s1|] eqn:Hstep; [|done].
    destruct Hinv as (M & C & B & N & W). apply (IH s1 s'); [|done].
    split; [by eapply Inv_mutex_step|].
    split; [by eapply Inv_context_step|].
    split; [by eapply Inv_busy_step|].
    split; [by eapply Inv_notify_step|by eapply Inv_wait_step].
Qed.

Lemma reachable_more_invariants nodes s :
  reachable nodes s -> Inv_busy s /\ Inv_notify s /\ Inv_wait s.
Proof.
  intros [ls Hrun]. eapply run_more_invariants; [|exact Hrun].
  split; [apply Inv_mutex_init|]. split; [apply Inv_context_init|].
  split; [apply Inv_busy_init|]. split; [apply Inv_notify_init|apply Inv_wait_init].
Qed.

Lemma example_waiting_run :
  run (CState_init ["node0"]) example_schedule_wait = Some example_waiting.
Proof.
  unfold example_waiting.
  destruct (run (CState_init ["node0"]) example_schedule_wait) eqn:E; [done|].
  vm_compute in E. discriminate.
Qed.

Lemma example_in_traffic_run :
  run (CState_init ["node0"]) example_schedule_traffic = Some example_in_traffic.
Proof.
  unfold example_in_traffic.
  destruct (run (CState_init ["node0"]) example_schedule_traffic) eqn:E; [done|].
  vm_compute in E. discriminate.
Qed.

(** X24: In every state that the calls can reach, a node whose idle flag is
    false is the target of a RunTraffic RPC that has been issued and has not
    finished, and the call that issued it is the one whose context is
    installed.  So while no call is inside RunTraffic every node is idle:
    in particular a call that is in its body, outside RunTraffic, finds
    every node idle. *)
Theorem node_busy_only_during_RunTraffic nodes s a :
  reachable nodes s ->
  node_idle s a = false ->
  exists t, a ∈ awaited (pcs s t) /\
            running_test_sequence_context_ s = Some t /\
            forall B, pcs s B <> L89 /\ pcs s B <> L89_locked.
Proof.
  intros Hreach Hbusy.
  destruct (reachable_invariants _ _ Hreach) as (M & (C1 & C2 & C3) & K).
  destruct (reachable_more_invariants _ _ Hreach) as (B & _).
  destruct (B a Hbusy) as [t Ht]. exists t. split; [done|].
  assert (has_context (pcs s t) = true) as Hc.
  { destruct (pcs s t); simpl in Ht; try (by apply elem_of_nil in Ht); done. }
  split; [by apply C1|].
  intros t'.
  assert (pcs s t' = L89 \/ pcs s t' = L89_locked -> False) as Hno; [|tauto].
  intros Ht'.
  assert (has_context (pcs s t') = true) as Hc' by (by destruct Ht' as [-> | ->]).
  apply C1 in Hc, Hc'. assert (t' = t) as -> by congruence.
  destruct Ht' as [Ht' | Ht']; rewrite Ht' in Ht; by apply elem_of_nil in Ht.
Qed.

Lemma node_busy_only_during_RunTraffic_witness :
  exists t, "node0" ∈ awaited (pcs example_in_traffic t) /\
            running_test_sequence_context_ example_in_traffic = Some t /\
            forall B, pcs example_in_traffic B <> L89 /\
                      pcs example_in_traffic B <> L89_locked.
Proof.
  apply (node_busy_only_during_RunTraffic ["node0"] example_in_traffic "node0").
  - exists example_schedule_traffic. apply example_in_traffic_run.
  - vm_compute. reflexivity.
Defined.

(** X25: A call that is blocked in [prior_notification->WaitForNotification()]
    waits for another call: the one whose context is installed.  That call
    has installed its notification, has not called Notify yet, and has
    been cancelled by the waiting call's TryCancel, so the wait ends as soon
    as the running call returns from its body. *)
Theorem blocked_call_waits_for_cancelled_call nodes s t :
  reachable nodes s ->
  pcs s t = L79 ->
  RunTestSequence_step s (Run t) = None ->
  exists n, prior_notification s t = Some n /\
            n <> t /\
            before_notify (pcs s n) = true /\
            running_test_sequence_context_ s = Some n /\
            cancelled s n = true.
Proof.
  intros Hreach Hpc Hblock.
  destruct (reachable_invariants _ _ Hreach) as (M & (C1 & C2 & C3) & K).
  destruct (reachable_more_invariants _ _ Hreach) as (_ & (N1 & N2 & N3) & (W1 & W2)).
  simpl in Hblock. rewrite Hpc in Hblock.
  destruct (prior_notification s t) as [n|] eqn:Hprior; [|done].
  destruct (notified s n) eqn:Hn; [done|].
  exists n. split; [done|].
  pose proof (N3 t n Hprior) as Hb. pose proof (W2 t n Hprior) as Hw.
  rewrite Hn in Hw. simpl in Hw.
  destruct (after_notify (pcs s n)) eqn:Ha.
  { apply N1 in Ha. congruence. }
  rewrite orb_false_r in Hb.
  split; [|split; [done|split; [|done]]].
  - intros ->. rewrite Hpc in Hb. done.
  - by apply C1, before_notify_has_context.
Qed.

Lemma blocked_call_waits_for_cancelled_call_witness :
  exists n, prior_notification example_waiting 1%nat = Some n /\
            n <> 1%nat /\
            before_notify (pcs example_waiting n) = true /\
            running_test_sequence_context_ example_waiting = Some n /\
            cancelled example_waiting n = true.
Proof.
  apply (blocked_call_waits_for_cancelled_call ["node0"] example_waiting 1%nat).
  - exists example_schedule_wait. apply example_waiting_run.
  - vm_compute. reflexivity.
  - vm_compute. reflexivity.
Defined.


(** ** The reader and writer sections of [mutex_] *)

Lemma Inv_readers_init nodes : Inv_readers (CState_init nodes).
Proof.
  split; [|done]. exists []. simpl. split; [constructor|]. split; [|done].
  intros t. split; [done|]. intros H. by apply elem_of_nil in H.
Qed.

Lemma length_filter_ne (t : nat) l :
  NoDup l -> t ∈ l -> length (filter (fun x => x <> t) l) = Nat.pred (length l).
Proof.
  induction 1 as [|x l Hx Hnd IH]; intros Ht; [by apply elem_of_nil in Ht|].
  rewrite filter_cons. destruct (decide (x <> t)) as [Hne|Heq].
  - apply elem_of_cons in Ht as [->|Ht]; [done|]. simpl. rewrite IH by done.
    destruct l; [by apply elem_of_nil in Ht|done].
  - apply dec_stable in Heq. subst x. simpl. f_equal.
    clear -Hx. induction l as [|y l IH]; [done|].
    apply not_elem_of_cons in Hx as [Hne Hx].
    rewrite filter_cons, decide_True by done. by rewrite IH.
Qed.

Lemma Inv_readers_step s l s' :
  Inv_readers s -> RunTestSequence_step s l = Some s' -> Inv_readers s'.
Proof.
  intros [(rs & Hnd & Hrs & Hlen) Hw] Hstep.
  step_cases Hstep; simpl;
    repeat match goal with
           | H : _ && _ = true |- _ => apply andb_true_iff in H as [? ?]
           | H : bool_decide _ = true |- _ => apply bool_decide_eq_true in H
           end;
    pose proof (Hrs t) as Hrt; rewrite Hpc in Hrt; simpl in Hrt;
    (split; [|simpl; try done; try (intros _; lia); try (intros; rewrite Hw by done; done);
              try (by intros []) ]).
  all: try (exists rs; split; [done|]; (split; [|done]); intros t'; simpl;
            other_thread t' t; simpl; [|by apply Hrs]; tauto).
  all: match goal with
       | |- context [S (mutex_readers _)] =>
           exists (t :: rs); simpl;
           (split; [constructor; [intros Hin; apply Hrt in Hin; done|done]|]);
           (split; [|by rewrite Hlen]); intros t'; other_thread t' t; simpl;
           [split; [left|done]
           |rewrite elem_of_cons, <- Hrs; split; [by right|by intros [?|?]]]
       | |- context [Nat.pred (mutex_readers _)] =>
           exists (filter (fun x => x <> t) rs);
           (split; [by apply NoDup_filter|]);
           (split; [|simpl; rewrite Hlen; symmetry; apply length_filter_ne;
                     [done|by apply Hrt]]);
           intros t'; simpl; other_thread t' t; simpl; rewrite list_elem_of_filter;
           [split; [done|by intros [? _]]
           |rewrite <- Hrs; split; [done|by intros [_ ?]]]
       end.
Qed.

Lemma run_Inv_readers ls : forall s s',
  Inv_readers s -> run s ls = Some s' -> Inv_readers s'.
Proof.
  induction ls as [|l ls IH]; intros s s' Hinv Hrun; simpl in Hrun.
  - by injection Hrun as <-.
  - destruct (RunTestSequence_step s l) as [s1|] eqn:Hstep; [|done].
    apply (IH s1 s'); [|done]. by eapply Inv_readers_step.
Qed.

Lemma example_in_critical_run :
  run (CState_init ["node0"]) example_schedule_critical = Some example_in_critical.
Proof.
  unfold example_in_critical.
  destruct (run (CState_init ["node0"]) example_schedule_critical) eqn:E; [done|].
  vm_compute in E. discriminate.
Qed.

(** X26: [mutex_] separates its sections: while a call holds it exclusively (in
    the entry protocol of RunTestSequence, or in a critical section of its
    body such as the cancellation check, the snapshot, ConfigureNodes or
    IntroducePeers), no other call holds it exclusively, and no call is
    inside CancelTraffic or RunTraffic, which hold it as readers. *)
Theorem mutex_exclusive_section_is_alone nodes s t t' :
  reachable nodes s ->
  holds_mutex (pcs s t) = true ->
  (t' <> t -> holds_mutex (pcs s t') = false) /\ in_reader (pcs s t') = false.
Proof.
  intros Hreach Hhold.
  destruct (reachable_invariants _ _ Hreach) as (M & _).
  assert (Inv_readers s) as [(rs & Hnd & Hrs & Hlen) Hw].
  { destruct Hreach as [ls Hrun]. eapply run_Inv_readers; [|exact Hrun].
    apply Inv_readers_init. }
  apply M in Hhold. split.
  - intros Hne. destruct (holds_mutex (pcs s t')) eqn:E; [|done].
    apply M in E. congruence.
  - destruct (in_reader (pcs s t')) eqn:E; [|done].
    apply Hrs in E. rewrite Hw in Hlen by congruence.
    destruct rs; [by apply elem_of_nil in E|done].
Qed.

Lemma mutex_exclusive_section_is_alone_witness :
  (1%nat <> 0%nat -> holds_mutex (pcs example_in_critical 1%nat) = false) /\
  in_reader (pcs example_in_critical 1%nat) = false.
Proof.
  apply (mutex_exclusive_section_is_alone ["node0"] example_in_critical 0%nat 1%nat).
  - exists example_schedule_critical. apply example_in_critical_run.
  - vm_compute. reflexivity.
Defined.


(** ** The idle flags under the reader lock *)

Lemma run_app ls1 : forall s s1 ls2,
  run s ls1 = Some s1 -> run s (ls1 ++ ls2) = run s1 ls2.
Proof.
  induction ls1 as [|l ls1 IH]; intros s s1 ls2 H; simpl in *.
  - by injection H as ->.
  - destruct (RunTestSequence_step s l); [by apply IH|done].
Qed.

(** The scan of CancelTraffic goes over the nodes without waiting. *)
Lemma scan_steps pre : forall s t rest pending,
  pcs s t = L111 (pre ++ rest) pending ->
  exists s' pending',
    run s (repeat (Run t) (length pre)) = Some s' /\
    pcs s' t = L111 rest pending' /\
    (forall t', t' <> t -> pcs s' t' = pcs s t') /\
    (forall b, node_idle s' b = node_idle s b).
Proof.
  induction pre as [|b pre IH]; intros s t rest pending Hpc.
  - by exists s, pending.
  - cbn [length repeat run]. simpl RunTestSequence_step. rewrite Hpc. simpl.
    destruct (node_idle s b) eqn:Hb.
    + destruct (IH (set_pc t (L111 (pre ++ rest) pending) s) t rest pending)
        as (s' & pending' & Hrun & Ht & Hoth & Hidle).
      { simpl. apply upd_eq. }
      exists s', pending'. split; [done|]. split; [done|]. split; [|done].
      intros t' Hne. rewrite (Hoth t' Hne). simpl. by rewrite upd_ne.
    + destruct (IH (set_pc t (L111 (pre ++ rest) (pending ++ [b])) (add_target t b s))
                   t rest (pending ++ [b]))
        as (s' & pending' & Hrun & Ht & Hoth & Hidle).
      { simpl. apply upd_eq. }
      exists s', pending'. split; [done|]. split; [done|]. split; [|done].
      intros t' Hne. rewrite (Hoth t' Hne). simpl. by rewrite upd_ne.
Qed.

Lemma step_NotCalled s t :
  pcs s t = NotCalled ->
  RunTestSequence_step s (Run t) = Some (set_pc t L71 (set_entry t s)).
Proof. intros H. simpl. by rewrite H. Qed.

Lemma step_L71 s t :
  pcs s t = L71 -> mutex_writer s = None ->
  RunTestSequence_step s (Run t)
  = Some (set_pc t (L111 (all_nodes s) []) (set_readers (S (mutex_readers s)) s)).
Proof. intros H Hw. simpl. rewrite H. unfold lock_shared. by rewrite Hw. Qed.

Lemma step_L111 s t a todo pending :
  pcs s t = L111 (a :: todo) pending ->
  RunTestSequence_step s (Run t)
  = if node_idle s a then Some (set_pc t (L111 todo pending) s)
    else Some (set_pc t (L111 todo (pending ++ [a])) (add_target t a s)).
Proof. intros H. simpl. by rewrite H. Qed.

Lemma step_L376 s t a todo pending :
  pcs s t = L376 (a :: todo) pending ->
  RunTestSequence_step s (Run t)
  = Some (set_pc t (L376 todo (pending ++ [a])) (set_busy a s)).
Proof. intros H. simpl. by rewrite H. Qed.

Lemma step_Traffic s t a :
  pcs s t = L89 -> a ∈ all_nodes s -> mutex_writer s = None ->
  RunTestSequence_step s (Traffic t [a])
  = Some (set_pc t (L376 [a] []) (set_readers (S (mutex_readers s)) s)).
Proof.
  intros H Ha Hw. simpl. rewrite H. simpl.
  rewrite bool_decide_eq_true_2 by done. simpl.
  unfold lock_shared. by rewrite Hw.
Qed.

Lemma run_cons s l ls :
  run s (l :: ls) = match RunTestSequence_step s l with
                    | Some s' => run s' ls
                    | None => None
                    end.
Proof. done. Qed.

(** X27: RunTraffic writes the idle flags, and CancelTraffic reads them, while
    holding [mutex_] as readers, so the lock does not order the two.  From a
    state in which the call A is in its body and the call B has not arrived,
    the calls can reach a state in which A is about to mark the node idle
    = false and B is about to test the flag of the same node; if A goes
    first B sends a CancelTraffic RPC to the node, and if B goes first it
    sends none although the node is busy afterwards. *)
Theorem idle_flag_is_written_under_the_reader_lock s A B a :
  pcs s A = L89 ->
  pcs s B = NotCalled ->
  mutex_writer s = None ->
  a ∈ all_nodes s ->
  node_idle s a = true ->
  exists ls s' todo pending,
    run s ls = Some s' /\
    pcs s' A = L376 [a] [] /\
    pcs s' B = L111 (a :: todo) pending /\
    (exists s1, run s' [Run A; Run B] = Some s1 /\
                pcs s1 B = L111 todo (pending ++ [a]) /\ node_idle s1 a = false) /\
    (exists s2, run s' [Run B; Run A] = Some s2 /\
                pcs s2 B = L111 todo pending /\ node_idle s2 a = false).
Proof.
  intros HA HB Hw Ha Hidle.
  assert (A <> B) as Hne by (intros ->; congruence).
  assert (B <> A) as Hne' by done.
  destruct (list_elem_of_split _ _ Ha) as (pre & post & Hnodes).
  pose (s1 := set_pc A (L376 [a] []) (set_readers (S (mutex_readers s)) s)).
  pose (s2 := set_pc B L71 (set_entry B s1)).
  pose (s3 := set_pc B (L111 (all_nodes s2) []) (set_readers (S (mutex_readers s2)) s2)).
  assert (run s [Traffic A [a]; Run B; Run B] = Some s3) as Hrun3.
  { rewrite run_cons, (step_Traffic s A a HA Ha Hw). fold s1.
    rewrite run_cons, (step_NotCalled s1 B); [|by simpl; rewrite upd_ne]. fold s2.
    rewrite run_cons, (step_L71 s2 B); [done|simpl; apply upd_eq|done]. }
  destruct (scan_steps pre s3 B (a :: post) []) as (s' & pending & Hscan & HBs & Hoth & Hids).
  { simpl. rewrite upd_eq. by rewrite Hnodes. }
  assert (pcs s' A = L376 [a] []) as HAs.
  { rewrite (Hoth A Hne). simpl.
    rewrite upd_ne by done. rewrite upd_ne by done. apply upd_eq. }
  assert (node_idle s' a = true) as Hidle' by (by rewrite Hids).
  exists ([Traffic A [a]; Run B; Run B] ++ repeat (Run B) (length pre)), s', post, pending.
  split; [by rewrite (run_app _ _ _ _ Hrun3)|]. split; [done|]. split; [done|]. split.
  - eexists. rewrite run_cons, (step_L376 s' A a [] [] HAs).
    rewrite run_cons, (step_L111 _ B a post pending); [|by simpl; rewrite upd_ne].
    simpl. rewrite upd_node_eq. simpl. split; [reflexivity|]. simpl.
    by rewrite upd_eq, upd_node_eq.
  - eexists. rewrite run_cons, (step_L111 s' B a post pending HBs), Hidle'.
    rewrite run_cons, (step_L376 _ A a [] []); [|by simpl; rewrite upd_ne].
    simpl. split; [reflexivity|]. simpl.
    by rewrite upd_ne, upd_eq, upd_node_eq.
Qed.

Lemma example_in_body_run :
  run (CState_init ["node0"]) example_schedule_body = Some example_in_body.
Proof.
  unfold example_in_body.
  destruct (run (CState_init ["node0"]) example_schedule_body) eqn:E; [done|].
  vm_compute in E. discriminate.
Qed.

Lemma idle_flag_is_written_under_the_reader_lock_witness :
  exists ls s' todo pending,
    run example_in_body ls = Some s' /\
    pcs s' 0%nat = L376 ["node0"] [] /\
    pcs s' 1%nat = L111 ("node0" :: todo) pending /\
    (exists s1, run s' [Run 0; Run 1] = Some s1 /\
                pcs s1 1%nat = L111 todo (pending ++ ["node0"]) /\
                node_idle s1 "node0" = false) /\
    (exists s2, run s' [Run 1; Run 0] = Some s2 /\
                pcs s2 1%nat = L111 todo pending /\ node_idle s2 "node0" = false).
Proof.
  apply (idle_flag_is_written_under_the_reader_lock example_in_body 0%nat 1%nat "node0").
  - vm_compute. reflexivity.
  - vm_compute. reflexivity.
  - vm_compute. reflexivity.
  - vm_compute. left.
  - vm_compute. reflexivity.
Defined.
